(** * VampNet: the iterative masked-token decoding engine

    A shallow embedding of [vampnet/modules/transformer.py]: the sampling
    loop [generate], the confidence-based remasking [mask_by_random_topk]
    and the typical-mass filter [typical_filter], with the Gumbel-max
    sampler [gumbel_sample] and the decoding of a token grid to audio,
    [to_signal]; and of the top-k [accuracy] of [scripts/exp/train.py].

    Tensors are lists (a batch is a list of rows).  Floating-point values
    are exact rationals extended with the IEEE special values; rounding is
    not modelled.  Random draws and the scoring network are explicit
    arguments.  Where PyTorch would broadcast two tensors the model asks
    for equal shapes, except in [masked_fill], where the broadcast is
    written out; grids with an empty batch or codebook axis are outside
    the model. *)

From Stdlib Require Import List Bool Arith ZArith QArith Qabs Qround Lia Lqa.
From Stdlib Require Import Permutation Sorted.
Import ListNotations.

Local Open Scope nat_scope.

(** ** Exceptions and results *)

(** The exceptions the modelled code can raise.  PyTorch reports both
    [ShapeError] (tensors that do not broadcast) and [IndexError] (a gather
    index outside the axis) as [RuntimeError]. *)
Inductive error : Type :=
| AssertionError
| ShapeError
| IndexError
| UnboundLocalError.

Inductive result (A : Type) : Type :=
| Ok (a : A)
| Err (e : error).

Arguments Ok {A} a.
Arguments Err {A} e.

Definition bind {A B : Type} (m : result A) (f : A -> result B) : result B :=
  match m with
  | Ok a => f a
  | Err e => Err e
  end.

Notation "x <- m ;; k" := (bind m (fun x => k))
  (at level 61, m at next level, right associativity).

Fixpoint mapM {A B : Type} (f : A -> result B) (l : list A) : result (list B) :=
  match l with
  | [] => Ok []
  | x :: l' => y <- f x ;; ys <- mapM f l' ;; Ok (y :: ys)
  end.

(** Element-wise combination of two tensors of the same length. *)
Fixpoint zipM {A B C : Type} (f : A -> B -> result C)
         (l1 : list A) (l2 : list B) : result (list C) :=
  match l1, l2 with
  | [], [] => Ok []
  | x :: l1', y :: l2' => z <- f x y ;; zs <- zipM f l1' l2' ;; Ok (z :: zs)
  | _, _ => Err ShapeError
  end.

Definition zip_with {A B C : Type} (f : A -> B -> C)
           (l1 : list A) (l2 : list B) : result (list C) :=
  zipM (fun x y => Ok (f x y)) l1 l2.

(** [torch.take_along_dim] / [gather] along the last axis with one index:
    an index outside [0, len) is an error (negative indices do not wrap). *)
Definition take_along {A : Type} (l : list A) (k : Z) : result A :=
  if (k <? 0)%Z then Err IndexError
  else match nth_error l (Z.to_nat k) with
       | Some x => Ok x
       | None => Err IndexError
       end.

Definition count_true (l : list bool) : nat := length (filter (fun b => b) l).

(** ** Floating-point values *)

Inductive fl : Type :=
| NaN
| NInf
| Fin (q : Q)
| PInf.

Definition Qltb (x y : Q) : bool :=
  match (x ?= y)%Q with Lt => true | _ => false end.

Definition Qeqb0 (x : Q) : bool :=
  match (x ?= 0)%Q with Eq => true | _ => false end.

Definition fl_neg (a : fl) : fl :=
  match a with
  | NaN => NaN
  | NInf => PInf
  | Fin q => Fin (- q)
  | PInf => NInf
  end.

Definition fl_abs (a : fl) : fl :=
  match a with
  | NaN => NaN
  | NInf => PInf
  | Fin q => Fin (Qabs q)
  | PInf => PInf
  end.

Definition fl_add (a b : fl) : fl :=
  match a, b with
  | NaN, _ | _, NaN => NaN
  | PInf, NInf | NInf, PInf => NaN
  | PInf, _ | _, PInf => PInf
  | NInf, _ | _, NInf => NInf
  | Fin x, Fin y => Fin (x + y)
  end.

Definition fl_sub (a b : fl) : fl := fl_add a (fl_neg b).

(** Sign of an infinity multiplied by the finite [q]; [0 * inf] is NaN. *)
Definition fl_scale_inf (pos : bool) (q : Q) : fl :=
  if Qeqb0 q then NaN
  else if Qltb 0 q then (if pos then PInf else NInf)
  else (if pos then NInf else PInf).

Definition fl_mul (a b : fl) : fl :=
  match a, b with
  | NaN, _ | _, NaN => NaN
  | Fin x, Fin y => Fin (x * y)
  | Fin x, PInf | PInf, Fin x => fl_scale_inf true x
  | Fin x, NInf | NInf, Fin x => fl_scale_inf false x
  | PInf, PInf | NInf, NInf => PInf
  | PInf, NInf | NInf, PInf => NInf
  end.

(** The IEEE comparison [a < b]: false as soon as one side is NaN. *)
Definition fl_ltb (a b : fl) : bool :=
  match a, b with
  | NaN, _ | _, NaN => false
  | _, NInf => false
  | NInf, _ => true
  | PInf, _ => false
  | Fin _, PInf => true
  | Fin x, Fin y => Qltb x y
  end.

Definition fl_gtb (a b : fl) : bool := fl_ltb b a.

(** The order [torch.sort] uses: the numeric order, NaN greater than
    everything. *)
Definition fl_sort_leb (a b : fl) : bool :=
  match a, b with
  | _, NaN => true
  | NaN, _ => false
  | _, _ => negb (fl_ltb b a)
  end.

(** [nansum]: the sum of the entries that are not NaN. *)
Definition fl_nansum (l : list fl) : fl :=
  fold_left (fun acc x => match x with NaN => acc | _ => fl_add acc x end)
            l (Fin 0).

(** [cumsum] along the last axis. *)
Fixpoint fl_cumsum_from (acc : fl) (l : list fl) : list fl :=
  match l with
  | [] => []
  | x :: l' => let s := fl_add acc x in s :: fl_cumsum_from s l'
  end.

Definition fl_cumsum (l : list fl) : list fl :=
  match l with
  | [] => []
  | x :: l' => x :: fl_cumsum_from x l'
  end.

(** ** Sorting *)

Section Sort.
Context {A : Type} (leb : A -> A -> bool).

Fixpoint insert (x : A) (l : list A) : list A :=
  match l with
  | [] => [x]
  | y :: l' => if leb x y then x :: l else y :: insert x l'
  end.

(** A stable ascending sort. *)
Definition isort (l : list A) : list A := fold_right insert [] l.
End Sort.

(** [tensor.sort(dim=-1)]: the sorted values and the indices they came
    from. *)
Definition key_leb (p q : fl * nat) : bool := fl_sort_leb (fst p) (fst q).

Definition sort_with_indices (l : list fl) : list fl * list nat :=
  let s := isort key_leb (combine l (seq 0 (length l))) in
  (map fst s, map snd s).

Definition sort_values (l : list fl) : list fl := isort fl_sort_leb l.

(** ** Tensor helpers *)

(** [x.gather(-1, idx)] on one row. *)
Definition gather {A : Type} (x : list A) (idx : list nat) : result (list A) :=
  mapM (fun i => match nth_error x i with
                 | Some v => Ok v
                 | None => Err IndexError
                 end) idx.

Fixpoint set_nth {A : Type} (i : nat) (v : A) (l : list A) : list A :=
  match l, i with
  | [], _ => []
  | _ :: l', 0 => v :: l'
  | x :: l', S i' => x :: set_nth i' v l'
  end.

(** [base.scatter(1, idx, src)] on one row: [out[idx[j]] = src[j]]. *)
Fixpoint scatter {A : Type} (base : list A) (idx : list nat) (src : list A)
  : list A :=
  match idx, src with
  | i :: idx', v :: src' => scatter (set_nth i v base) idx' src'
  | _, _ => base
  end.

(** [t[..., :n] = v] on one row. *)
Definition fill_prefix {A : Type} (n : nat) (v : A) (l : list A) : list A :=
  repeat v (Nat.min n (length l)) ++ skipn n l.

(** [torch.where(cond, a, b)] on rows of one shape. *)
Fixpoint where_ {A : Type} (cond : list bool) (a b : list A)
  : result (list A) :=
  match cond, a, b with
  | [], [], [] => Ok []
  | c :: cond', x :: a', y :: b' =>
      r <- where_ cond' a' b' ;; Ok ((if c then x else y) :: r)
  | _, _, _ => Err ShapeError
  end.

(** The same with a scalar on one side. *)
Definition where_scalar_r {A : Type} (cond : list bool) (a : list A) (v : A)
  : result (list A) :=
  zip_with (fun (c : bool) x => if c then x else v) cond a.

Definition where_scalar_l {A : Type} (cond : list bool) (v : A) (b : list A)
  : result (list A) :=
  zip_with (fun (c : bool) y => if c then v else y) cond b.

(** Broadcasting of two axes against each other: they have one length,
    or the one of length 1 is repeated. *)
Definition broadcast {A B : Type} (l1 : list A) (l2 : list B)
  : result (list A * list B) :=
  if length l1 =? length l2 then Ok (l1, l2)
  else match l1, l2 with
       | _, [y] => Ok (l1, repeat y (length l1))
       | [x], _ => Ok (repeat x (length l2), l2)
       | _, _ => Err ShapeError
       end.

(** ** Codebook layout *)

(** Modelled from the spec: [codebook_flatten] of [vampnet/util.py], which
    is not among the sources.  A row [tokens[c][t]] becomes one sequence,
    all codebooks of time step 0, then all of time step 1, and so on. *)
Definition codebook_flatten {A : Type} (d : A) (tokens : list (list A)) : list A :=
  flat_map (fun t => map (fun channel => nth t channel d) tokens)
           (seq 0 (length (hd [] tokens))).

(** Modelled from the spec: [codebook_unflatten] of [vampnet/util.py], the
    inverse layout; it fails when the length is not a multiple of the
    number of codebooks. *)
Definition codebook_unflatten {A : Type} (d : A) (flat_tokens : list A) (n_c : Z)
  : result (list (list A)) :=
  if (n_c <=? 0)%Z then Err ShapeError
  else
    let c := Z.to_nat n_c in
    if length flat_tokens mod c =? 0 then
      Ok (map (fun k => map (fun t => nth (t * c + k) flat_tokens d)
                            (seq 0 (length flat_tokens / c)))
              (seq 0 c))
    else Err ShapeError.

(** ** Numeric primitives

    [torch.log] is given by its restriction [ln] to the positive rationals;
    [exp], [softmax] and [log_softmax] are taken whole. *)
Section Numerics.
Variable ln : Q -> Q.
Variable fl_exp : fl -> fl.
Variable softmax : list fl -> list fl.
Variable log_softmax : list fl -> list fl.

Definition fl_log (a : fl) : fl :=
  match a with
  | NaN => NaN
  | NInf => NaN
  | PInf => PInf
  | Fin q => if Qltb q 0 then NaN
             else if Qeqb0 q then NInf
             else Fin (ln q)
  end.

(** [gumbel_noise_like t]: [u j] is the uniform draw at position [j] of
    a fresh tensor shaped like [t]. *)
Definition gumbel_noise_like {T : Type} (t : list T) (u : nat -> Q) : list fl :=
  map (fun j => fl_neg (fl_log (fl_neg (fl_log (Fin (u j))))))
      (seq 0 (length t)).

(** *** Confidence-based remasking *)

(** [torch.log(probs) + temperature * gumbel_noise_like(probs)] on one
    row; the noise has the shape of [probs] by construction. *)
Definition perturbed_confidence (probs : list fl) (temperature : fl)
           (u : nat -> Q) : list fl :=
  map (fun pg => fl_add (fl_log (fst pg)) (fl_mul temperature (snd pg)))
      (combine probs (gumbel_noise_like probs u)).

(** One batch row of [mask_by_random_topk]. *)
Definition mask_by_random_topk_row
           (num_to_mask : Z) (probs : list fl) (temperature : fl)
           (u : nat -> Q) : result (list bool) :=
  let confidence := perturbed_confidence probs temperature u in
  let sorted_confidence := sort_values confidence in
  cut_off <- take_along sorted_confidence num_to_mask ;;
  Ok (map (fun c => fl_ltb c cut_off) confidence).

(** The remasking as section 4.4 of the specification words it: the
    cutoff is the value at rank [num_to_mask - 1]. *)
Definition spec_mask_by_rank
           (num_to_mask : Z) (probs : list fl) (temperature : fl)
           (u : nat -> Q) : result (list bool) :=
  let confidence := perturbed_confidence probs temperature u in
  cut_off <- take_along (sort_values confidence) (num_to_mask - 1) ;;
  Ok (map (fun c => fl_ltb c cut_off) confidence).

Fixpoint rows_from {A B C : Type} (f : nat -> A -> B -> result C) (b : nat)
         (l1 : list A) (l2 : list B) : result (list C) :=
  match l1, l2 with
  | [], [] => Ok []
  | x :: l1', y :: l2' =>
      z <- f b x y ;; zs <- rows_from f (S b) l1' l2' ;; Ok (z :: zs)
  | _, _ => Err ShapeError
  end.

(** [mask_by_random_topk]: [num_to_mask] holds one count per batch row,
    [u b j] is the uniform draw for row [b], position [j]. *)
Definition mask_by_random_topk
           (num_to_mask : list Z) (probs : list (list fl)) (temperature : fl)
           (u : nat -> nat -> Q) : result (list (list bool)) :=
  rows_from (fun b k row => mask_by_random_topk_row k row temperature (u b))
            0 num_to_mask probs.

(** *** Typical-mass filtering *)

(** [c_flat_shifted]: how far the information content of each entry is
    from the entropy of the row. *)
Definition c_flat_shifted (x_flat : list fl) : list fl :=
  let x_flat_norm := log_softmax x_flat in
  let x_flat_norm_p := map fl_exp x_flat_norm in
  let entropy :=
    fl_neg (fl_nansum (map (fun ab => fl_mul (fst ab) (snd ab))
                           (combine x_flat_norm x_flat_norm_p))) in
  map (fun v => fl_abs (fl_sub (fl_neg v) entropy)) x_flat_norm.

(** [x_flat_cumsum]: the running mass of the row taken in the order
    [x_flat_indices]. *)
Definition x_flat_cumsum (x_flat : list fl) (x_flat_indices : list nat)
  : result (list fl) :=
  x_gathered <- gather x_flat x_flat_indices ;;
  Ok (fl_cumsum (softmax x_gathered)).

(** The removal mask [indices_to_remove] of one flattened row. *)
Definition typical_indices_to_remove
           (x_flat : list fl) (typical_mass : fl) (typical_min_tokens : Z)
  : result (list bool) :=
  let c_flat_sorted := fst (sort_with_indices (c_flat_shifted x_flat)) in
  let x_flat_indices := snd (sort_with_indices (c_flat_shifted x_flat)) in
  x_flat_cumsum <- x_flat_cumsum x_flat x_flat_indices ;;
  let last_ind :=
    length (filter (fun v => fl_ltb v typical_mass) x_flat_cumsum) in
  threshold <- take_along c_flat_sorted (Z.of_nat last_ind) ;;
  let sorted_indices_to_remove :=
    map (fun c => fl_gtb c threshold) c_flat_sorted in
  let sorted_indices_to_remove :=
    if (typical_min_tokens >? 1)%Z
    then fill_prefix (Z.to_nat typical_min_tokens) false
                     sorted_indices_to_remove
    else sorted_indices_to_remove in
  Ok (scatter sorted_indices_to_remove x_flat_indices
              sorted_indices_to_remove).

(** The removal mask as section 4.3 of the specification words it: keep
    the minimal prefix of the typical order whose running mass reaches
    [typical_mass], remove every later entry. *)
Definition spec_indices_to_remove (x_flat : list fl) (typical_mass : fl)
  : result (list bool) :=
  let x_flat_indices := snd (sort_with_indices (c_flat_shifted x_flat)) in
  x_flat_cumsum <- x_flat_cumsum x_flat x_flat_indices ;;
  let last_ind :=
    length (filter (fun v => fl_ltb v typical_mass) x_flat_cumsum) in
  _ <- take_along x_flat_cumsum (Z.of_nat last_ind) ;;
  let sorted_indices_to_remove :=
    map (fun j => last_ind <? j) (seq 0 (length x_flat_indices)) in
  Ok (scatter sorted_indices_to_remove x_flat_indices
              sorted_indices_to_remove).

Definition typical_filter_row
           (x_flat : list fl) (typical_mass : fl) (typical_min_tokens : Z)
  : result (list fl) :=
  indices_to_remove <-
    typical_indices_to_remove x_flat typical_mass typical_min_tokens ;;
  where_scalar_l indices_to_remove NInf x_flat.

(** [typical_filter] on logits of shape (batch, positions, vocabulary);
    it returns the filtered logits and leaves its argument as it was. *)
Definition typical_filter
           (logits : list (list (list fl)))
           (typical_mass : fl) (typical_min_tokens : Z)
  : result (list (list (list fl))) :=
  mapM (mapM (fun x_flat =>
                typical_filter_row x_flat typical_mass typical_min_tokens))
       logits.

End Numerics.

(** ** The sampling loop *)

Definition grid : Type := list (list (list Z)).

(** The fields of [self] that [generate] reads.  [mask_token] is
    [self.embedding.special_idxs["MASK"]], set by the embedding layer. *)
Record VampNet : Type := {
  n_codebooks : nat;
  n_conditioning_codebooks : nat;
  mask_token : Z
}.

(** What a caller can pass as [temperature]. *)
Inductive temperature_arg : Type :=
| PyFloat (x : fl)
| PyInt (n : Z)
| PyTuple (a b : fl).

(** What a caller can pass as [mask]: nothing, a (batch, time) tensor or a
    (batch, codebooks, time) tensor. *)
Inductive mask_arg : Type :=
| MaskNone
| Mask2 (m : list (list Z))
| Mask3 (m : grid).

(** What one iteration of the loop computed. *)
Record step : Type := {
  st_probs : list (list (list fl));
  st_mask : list (list bool);
  st_selected_probs : list (list fl);
  st_num_to_mask : list Z;
  st_new_mask : list (list bool);
  st_sampled_z : list (list Z);
  st_z_masked : grid
}.

Fixpoint zipM3 {A B C D : Type} (f : A -> B -> C -> result D)
         (l1 : list A) (l2 : list B) (l3 : list C) : result (list D) :=
  match l1, l2, l3 with
  | [], [], [] => Ok []
  | x :: l1', y :: l2', z :: l3' =>
      r <- f x y z ;; rs <- zipM3 f l1' l2' l3' ;; Ok (r :: rs)
  | _, _, _ => Err ShapeError
  end.

Definition mapi {A B : Type} (f : nat -> A -> B) (l : list A) : list B :=
  map (fun p => f (fst p) (snd p)) (combine (seq 0 (length l)) l).

(** [mask = torch.ones_like(z).int(); mask[:, :n, :] = 0]. *)
Definition default_mask (n : nat) (z : grid) : grid :=
  map (fun row =>
         mapi (fun c channel =>
                 map (fun _ => if c <? n then 0%Z else 1%Z) channel) row) z.

(** [mask[:, None, :].repeat(1, z.shape[1], 1)]. *)
Definition repeat_over_codebooks (z : grid) (m : list (list Z)) : grid :=
  map (fun mrow => repeat mrow (length (hd [] z))) m.

Definition resolve_mask (n : nat) (z : grid) (mask : mask_arg) : grid :=
  match mask with
  | MaskNone => default_mask n z
  | Mask2 m => repeat_over_codebooks z m
  | Mask3 m => m
  end.

(** [z.masked_fill(mask.bool(), v)]: the out-of-place fill broadcasts
    [z] and the mask against each other, axis by axis. *)
Definition masked_fill (z : grid) (mask : grid) (v : Z) : result grid :=
  p1 <- broadcast z mask ;;
  zipM (fun zrow mrow =>
          p2 <- broadcast zrow mrow ;;
          zipM (fun zchan mchan =>
                  p3 <- broadcast zchan mchan ;;
                  zip_with (fun x (m : Z) => if (m =? 0)%Z then x else v)
                           (fst p3) (snd p3))
               (fst p2) (snd p2))
       (fst p1) (snd p1).

(** The length of the time axis of a grid with a batch row and a
    codebook. *)
Definition time_axis (z : grid) : nat := length (hd [] (hd [] z)).

Definition count_tokens (v : Z) (z : grid) : nat :=
  length (filter (fun x => (x =? v)%Z) (concat (concat z))).

(** [(i + 1) / sampling_steps], as the value it denotes; the tensor [r]
    holds this one ratio for every batch row. *)
Definition schedule_ratio (i : nat) (sampling_steps : Z) : Q :=
  Qred (inject_Z (Z.of_nat i + 1) / inject_Z sampling_steps).

(** [z = start_tokens], or the all-mask grid of one batch row. *)
Definition resolve_z (self : VampNet) (time_steps : nat)
           (start_tokens : option grid) : grid :=
  match start_tokens with
  | Some z => z
  | None => [repeat (repeat (mask_token self) time_steps) (n_codebooks self)]
  end.

(** The mask the loop reads off a grid: the flattened predicted codebooks
    of each batch row, compared with the mask token. *)
Definition flat_mask (self : VampNet) (z_masked : grid) : list (list bool) :=
  map (fun row =>
         map (fun x => (x =? mask_token self)%Z)
             (codebook_flatten 0%Z
                (skipn (n_conditioning_codebooks self) row)))
      z_masked.


Section Generate.
Variable ln : Q -> Q.
Variable fl_exp : fl -> fl.
Variable softmax : list fl -> list fl.
Variable log_softmax : list fl -> list fl.

(** The schedule [_gamma] of [vampnet/mask.py], which is not among the
    sources. *)
Variable _gamma : Q -> Q.

(** The scoring network on the embedded grid, already permuted to
    (batch, positions, vocabulary):
    [self.forward(self.embedding.from_codes(z_masked, codec)).permute(0, 2, 1)].
    It is taken as a total function; what it raises on a grid it does
    not accept is outside the model. *)
Variable score : grid -> list (list (list fl)).

(** [multinomial i b s p]: the index [torch.multinomial] draws at step
    [i] for batch row [b], position [s], from the distribution [p]. *)
Variable multinomial : nat -> nat -> nat -> list fl -> Z.

(** [uniform i b j]: the uniform draw behind the Gumbel noise of step
    [i], batch row [b], position [j]. *)
Variable uniform : nat -> nat -> nat -> Q.

Variable self : VampNet.

Let n_cond := n_conditioning_codebooks self.
Let n_infer_codebooks : Z :=
  (Z.of_nat (n_codebooks self) - Z.of_nat n_cond)%Z.

(** [torch.cat((z[:, :n_cond, :], x), dim=1)]: the batch and time axes
    of the two must agree. *)
Definition cat_conditioning (z : grid) (x : grid) : result grid :=
  if time_axis z =? time_axis x
  then zip_with (fun zrow xrow => firstn n_cond zrow ++ xrow) z x
  else Err ShapeError.

(** The body of [for i in range(sampling_steps)]. *)
Definition sampling_step
           (sampling_steps : Z) (temperature : fl)
           (typical_filtering : bool) (typical_mass : fl)
           (typical_min_tokens : Z)
           (z : grid) (num_mask_tokens_at_start : nat)
           (i : nat) (z_masked : grid) : result step :=
  let r := schedule_ratio i sampling_steps in
  let logits := score z_masked in
  _ <- (if typical_filtering
        then typical_filter fl_exp softmax log_softmax
                            logits typical_mass typical_min_tokens
        else Ok logits) ;;
  let probs := map (map softmax) logits in
  let sampled_z :=
    mapi (fun b rows => mapi (fun s p => multinomial i b s p) rows) probs in
  selected_probs <- zipM (zipM (fun p s => take_along p s)) probs sampled_z ;;
  let z_masked :=
    map (fun row => codebook_flatten 0%Z (skipn n_cond row)) z_masked in
  let mask := map (map (fun x => (x =? mask_token self)%Z)) z_masked in
  sampled_z <- zipM3 where_ mask sampled_z z_masked ;;
  selected_probs <-
    zipM (fun m p => where_scalar_r m p PInf) mask selected_probs ;;
  let num_to_mask :=
    Qfloor (_gamma r * inject_Z (Z.of_nat num_mask_tokens_at_start)) in
  let num_to_mask :=
    map (fun mrow =>
           if negb (Z.of_nat i =? sampling_steps - 1)%Z
           then Z.max 1 (Z.min (Z.of_nat (count_true mrow) - 1) num_to_mask)
           else num_to_mask) mask in
  (* [temperature * (1 - r)] has shape (batch,); its product with the
     (batch, positions) noise broadcasts only for a batch of one, or of
     as many rows as positions. *)
  _ <- (if (length selected_probs =? 1)
           || (length selected_probs =? length (hd [] selected_probs))
        then Ok tt else Err ShapeError) ;;
  new_mask <- mask_by_random_topk ln num_to_mask selected_probs
                (fl_mul temperature (Fin (1 - r))) (uniform i) ;;
  z_masked <- zipM (fun m s => where_scalar_l m (mask_token self) s)
                   new_mask sampled_z ;;
  z_masked <- mapM (fun f => codebook_unflatten 0%Z f n_infer_codebooks)
                   z_masked ;;
  _ <- mapM (fun f => codebook_unflatten false f n_infer_codebooks)
            new_mask ;;
  z_masked <- cat_conditioning z z_masked ;;
  Ok {| st_probs := probs;
        st_mask := mask;
        st_selected_probs := selected_probs;
        st_num_to_mask := num_to_mask;
        st_new_mask := new_mask;
        st_sampled_z := sampled_z;
        st_z_masked := z_masked |}.

(** What follows the loop: [sampled_z] is bound only if the body ran. *)
Definition finish (z : grid) (sampled_z : option (list (list Z)))
  : result grid :=
  match sampled_z with
  | None => Err UnboundLocalError
  | Some s =>
      s <- mapM (fun f => codebook_unflatten 0%Z f n_infer_codebooks) s ;;
      cat_conditioning z s
  end.

(** [n] iterations of the loop from index [i] on: the completed steps
    and the outcome. *)
Fixpoint sampling_loop
         (sampling_steps : Z) (temperature : fl)
         (typical_filtering : bool) (typical_mass : fl)
         (typical_min_tokens : Z)
         (z : grid) (num_mask_tokens_at_start : nat)
         (n i : nat) (z_masked : grid) (sampled_z : option (list (list Z)))
  : list step * result grid :=
  match n with
  | 0 => ([], finish z sampled_z)
  | S n' =>
      match sampling_step sampling_steps temperature typical_filtering
                          typical_mass typical_min_tokens
                          z num_mask_tokens_at_start i z_masked with
      | Err e => ([], Err e)
      | Ok st =>
          let rest :=
            sampling_loop sampling_steps temperature typical_filtering
                          typical_mass typical_min_tokens
                          z num_mask_tokens_at_start
                          n' (S i) (st_z_masked st)
                          (Some (st_sampled_z st)) in
          (st :: fst rest, snd rest)
      end
  end.

(** [generate] with [return_signal=False]: the steps it completed and
    the token grid it returns, or the exception it raises. *)
Definition generate
           (time_steps : nat) (sampling_steps : Z)
           (start_tokens : option grid) (mask : mask_arg)
           (temperature : temperature_arg)
           (typical_filtering : bool) (typical_mass : fl)
           (typical_min_tokens : Z)
  : list step * result grid :=
  match temperature with
  | PyFloat temperature =>
      let z := resolve_z self time_steps start_tokens in
      let mask := resolve_mask n_cond z mask in
      match masked_fill z mask (mask_token self) with
      | Err e => ([], Err e)
      | Ok z_masked =>
          let num_mask_tokens_at_start :=
            count_tokens (mask_token self) z_masked in
          sampling_loop sampling_steps temperature typical_filtering
                        typical_mass typical_min_tokens
                        z num_mask_tokens_at_start
                        (Z.to_nat sampling_steps) 0 z_masked None
      end
  | _ => ([], Err AssertionError)
  end.

End Generate.

(** ** A concrete model of the numeric primitives

    Base-2 arithmetic on the rationals, exact on integer logits whose
    weights sum to a power of two, and a strictly increasing stand-in for
    the logarithm that is exact at 1.  It runs the definitions on
    examples. *)
Module Dyadic.

Definition ln (q : Q) : Q := q - 1.

Definition weight (a : fl) : option Q :=
  match a with
  | Fin q => Some (Qpower 2 (Qfloor q))
  | NInf => Some 0%Q
  | _ => None
  end.

Definition exp (a : fl) : fl :=
  match a with
  | NaN => NaN
  | PInf => PInf
  | NInf => Fin 0
  | Fin q => Fin (Qpower 2 (Qfloor q))
  end.

Fixpoint weights (x : list fl) : option (list Q) :=
  match x with
  | [] => Some []
  | a :: x' =>
      match weight a, weights x' with
      | Some w, Some ws => Some (w :: ws)
      | _, _ => None
      end
  end.

Definition total (ws : list Q) : Q := Qred (fold_right Qplus 0%Q ws).

Definition softmax (x : list fl) : list fl :=
  match weights x with
  | Some ws =>
      if Qeqb0 (total ws) then map (fun _ => NaN) x
      else map (fun w => Fin (Qred (w / total ws))) ws
  | None => map (fun _ => NaN) x
  end.

(** The base-2 logarithm of a positive rational, exact on powers of
    two. *)
Definition log2 (q : Q) : Z :=
  (Z.log2 (Qnum q) - Z.log2 (Zpos (Qden q)))%Z.

Definition log_softmax (x : list fl) : list fl :=
  match weights x with
  | Some ws =>
      if Qeqb0 (total ws) then map (fun _ => NaN) x
      else map (fun a => match a with
                         | Fin q => Fin (inject_Z (Qfloor q - log2 (total ws)))
                         | _ => NInf
                         end) x
  | None => map (fun _ => NaN) x
  end.

End Dyadic.


(** ** Vocabulary of the statements *)




(** A row of a given length. *)
Definition has_length {A : Type} (n : nat) (l : list A) : Prop := length l = n.

(** A tensor of shape (b, c, t). *)
Definition has_shape (b c t : nat) (z : grid) : Prop :=
  length z = b /\ Forall (fun row => length row = c /\ Forall (has_length t) row) z.

(** The steps of a run: each is the loop body at its index, started from
    the grid the step before left. *)
Fixpoint steps_from (body : nat -> grid -> result step)
         (i : nat) (z_masked : grid) (steps : list step) : Prop :=
  match steps with
  | [] => True
  | st :: steps' =>
      body i z_masked = Ok st /\ steps_from body (S i) (st_z_masked st) steps'
  end.

(** The grid a run holds after its last completed step. *)
Fixpoint last_sampled (sampled_z : option (list (list Z))) (steps : list step)
  : option (list (list Z)) :=
  match steps with
  | [] => sampled_z
  | st :: steps' => last_sampled (Some (st_sampled_z st)) steps'
  end.

(** The grid step [i] of a run started from, given the grid the loop was
    entered with and the steps completed. *)
Definition grid_before (z_masked : grid) (steps : list step) (i : nat) : grid :=
  match i with
  | 0 => z_masked
  | S j => match nth_error steps j with
           | Some st => st_z_masked st
           | None => z_masked
           end
  end.

(** ** A small model to run

    Two codebooks, the first one conditioning, a vocabulary of four tokens
    and the mask token 4.  The scoring function gives every position the
    distribution (1/2, 1/4, 1/8, 1/8) (logits in units of ln 2), the
    sampler draws token [s mod 4] at position [s], the schedule is
    linear. *)
Module Demo.

Definition model : VampNet :=
  {| n_codebooks := 2; n_conditioning_codebooks := 1; mask_token := 4%Z |}.

Definition gamma (r : Q) : Q := 1 - r.

Definition logits_row : list fl := [Fin (-1); Fin (-2); Fin (-3); Fin (-3)].

Definition score (z_masked : grid) : list (list (list fl)) :=
  map (fun row =>
         map (fun _ => logits_row)
             (codebook_flatten 0%Z (skipn 1 row))) z_masked.

Definition multinomial (i b s : nat) (p : list fl) : Z :=
  Z.of_nat (s mod 4).

Definition uniform (i b j : nat) : Q := 1 # 2.

Definition generate :=
  generate Dyadic.ln Dyadic.exp Dyadic.softmax Dyadic.log_softmax
           gamma score multinomial uniform model.

End Demo.

(** The sum of a row of rationals, and its running sums. *)
Definition Qsum (l : list Q) : Q := fold_right Qplus 0%Q l.

Fixpoint Qcumsum_from (acc : Q) (l : list Q) : list Q :=
  match l with
  | [] => []
  | x :: l' => (acc + x)%Q :: Qcumsum_from (acc + x)%Q l'
  end.

Definition Qcumsum (l : list Q) : list Q :=
  match l with
  | [] => []
  | x :: l' => x :: Qcumsum_from x l'
  end.

(** A row of probabilities taken in the order [idx]. *)
Definition in_order (ps : list Q) (idx : list nat) : list Q :=
  map (fun i => nth i ps 0%Q) idx.

(** The probability mass of the entries a removal mask keeps. *)
Definition retained_mass (ps : list Q) (indices_to_remove : list bool) : Q :=
  Qsum (map (fun v => if nth v indices_to_remove false then 0%Q
                      else nth v ps 0%Q)
            (seq 0 (length ps))).

(** ** Gumbel-max sampling *)

(** IEEE division.  Zeros carry no sign in this model: a zero divisor
    counts as +0. *)
Definition fl_div (a b : fl) : fl :=
  match a, b with
  | NaN, _ | _, NaN => NaN
  | Fin x, Fin y =>
      if Qeqb0 y
      then (if Qeqb0 x then NaN else if Qltb 0 x then PInf else NInf)
      else Fin (x / y)
  | Fin _, PInf | Fin _, NInf => Fin 0
  | PInf, Fin y => if Qltb y 0 then NInf else PInf
  | NInf, Fin y => if Qltb y 0 then PInf else NInf
  | _, _ => NaN
  end.

(** Python's [max(a, b)] on two floats: [b] only if [b > a]. *)
Definition py_max (a b : fl) : fl := if fl_gtb b a then b else a.

(** Whether [x] replaces the running maximum [best] of an arg-max: NaN
    counts as the greatest value and the first maximal entry is kept. *)
Definition fl_better (x best : fl) : bool :=
  match best, x with
  | NaN, _ => false
  | _, NaN => true
  | _, _ => fl_gtb x best
  end.

Fixpoint argmax_from (best : nat) (best_value : fl) (i : nat) (l : list fl)
  : nat :=
  match l with
  | [] => best
  | x :: l' =>
      if fl_better x best_value then argmax_from i x (S i) l'
      else argmax_from best best_value (S i) l'
  end.

(** [tensor.argmax(dim=-1)] on one row; an empty row is an error. *)
Definition argmax (l : list fl) : result nat :=
  match l with
  | [] => Err IndexError
  | x :: l' => Ok (argmax_from 0 x 1 l')
  end.

Section GumbelSample.
Variable ln : Q -> Q.

(** The scores [gumbel_sample] takes the arg-max of:
    [t / max(temperature, 1e-10) + gumbel_noise_like(t)]. *)
Definition gumbel_scores (t : list fl) (temperature : fl) (u : nat -> Q)
  : list fl :=
  map (fun xg =>
         fl_add (fl_div (fst xg) (py_max temperature (Fin (1 # 10000000000))))
                (snd xg))
      (combine t (gumbel_noise_like ln t u)).

(** [gumbel_sample(t, temperature, dim=-1)] on one row. *)
Definition gumbel_sample (t : list fl) (temperature : fl) (u : nat -> Q)
  : result nat :=
  argmax (gumbel_scores t temperature u).

End GumbelSample.

(** ** Decoding tokens to audio *)

Section ToSignal.

(** [codec.decode(codec.quantizer.from_latents(self.embedding.from_codes(z, codec))[0])["audio"]]:
    the decoded audio of a token grid, of shape (batch, channels,
    samples). *)
Variable decode : grid -> list (list (list fl)).

(** [codec.hop_length]: the number of samples one time step decodes to. *)
Variable hop_length : nat.

Variable self : VampNet.

(** [torch.any(z[:, :, tstep] == self.mask_token)]. *)
Definition any_mask_at (z : grid) (tstep : nat) : bool :=
  existsb (existsb (fun channel =>
                      match nth_error channel tstep with
                      | Some x => (x =? mask_token self)%Z
                      | None => false
                      end)) z.

(** [samples[sample_idx_0:sample_idx_1] = 0.0] on one channel; a slice
    reaches no further than the channel does. *)
Definition silence (sample_idx_0 sample_idx_1 : nat) (samples : list fl)
  : list fl :=
  mapi (fun j x =>
          if (sample_idx_0 <=? j) && (j <? sample_idx_1) then Fin 0 else x)
       samples.

(** [to_signal]: the samples of the signal it returns. *)
Definition to_signal (z : grid) : list (list (list fl)) :=
  fold_left
    (fun signal tstep =>
       if any_mask_at z tstep
       then let sample_idx_0 := tstep * hop_length in
            let sample_idx_1 := sample_idx_0 + hop_length in
            map (map (silence sample_idx_0 sample_idx_1)) signal
       else signal)
    (seq 0 (time_axis z)) (decode z).

End ToSignal.

(** [generate] with [return_signal=True], the default: the sampled grid
    goes through [to_signal]. *)
Definition generate_signal
           (ln : Q -> Q) (fl_exp : fl -> fl)
           (softmax log_softmax : list fl -> list fl)
           (_gamma : Q -> Q) (score : grid -> list (list (list fl)))
           (multinomial : nat -> nat -> nat -> list fl -> Z)
           (uniform : nat -> nat -> nat -> Q)
           (decode : grid -> list (list (list fl))) (hop_length : nat)
           (self : VampNet)
           (time_steps : nat) (sampling_steps : Z)
           (start_tokens : option grid) (mask : mask_arg)
           (temperature : temperature_arg)
           (typical_filtering : bool) (typical_mass : fl)
           (typical_min_tokens : Z)
  : result (list (list (list fl))) :=
  sampled_z <- snd (generate ln fl_exp softmax log_softmax _gamma score
                             multinomial uniform self time_steps
                             sampling_steps start_tokens mask temperature
                             typical_filtering typical_mass
                             typical_min_tokens) ;;
  Ok (to_signal decode hop_length self sampled_z).

(** A small codec to run [to_signal] with: one audio channel, each token
    of the last codebook decoded to two samples of the token's value plus
    one. *)
Module DemoCodec.

Definition hop_length : nat := 2.

Definition decode (z : grid) : list (list (list fl)) :=
  map (fun row =>
         [flat_map (fun x => repeat (Fin (inject_Z x + 1)) hop_length)
                   (last row [])]) z.

Definition generate_signal :=
  generate_signal Dyadic.ln Dyadic.exp Dyadic.softmax Dyadic.log_softmax
                  Demo.gamma Demo.score Demo.multinomial Demo.uniform
                  decode hop_length Demo.model.

End DemoCodec.

(** ** Top-k accuracy of the training script

    [accuracy] of [scripts/exp/train.py], on predictions of shape (batch,
    classes, positions) and targets of shape (batch, positions) that
    agree. *)

(** The indices [torch.topk(row, k)] returns: those of the [k] greatest
    entries, the greatest first, NaN counting as the greatest.  Equal
    entries come in the order of the stable sort, reversed; the library
    leaves their order open. *)
Definition topk_indices (row : list fl) (k : nat) : list nat :=
  firstn k (rev (snd (sort_with_indices row))).

(** [torch.mean(correct.float())]: the mean of no entry is NaN. *)
Definition mean_of_counts (correct : list nat) : fl :=
  match correct with
  | [] => NaN
  | _ => Fin (inject_Z (Z.of_nat (list_sum correct))
              / inject_Z (Z.of_nat (length correct)))
  end.

Definition accuracy
           (preds : list (list (list fl))) (target : list (list Z))
           (top_k : Z) (ignore_index : option Z) : result fl :=
  (* rearrange(preds, "b p s -> (b s) p"), rearrange(target, "b s -> (b s)") *)
  per_batch <-
    zipM (fun (pb : list (list fl)) (tb : list Z) =>
            if forallb (fun class => length class =? length tb) pb
            then Ok (mapi (fun s t => (map (fun class => nth s class NaN) pb, t))
                          tb)
            else Err ShapeError)
         preds target ;;
  let rows := concat per_batch in
  let rows :=
    match ignore_index with
    | Some ignore_index =>
        filter (fun row => negb (snd row =? ignore_index)%Z) rows
    | None => rows
    end in
  (* torch.topk(preds, k=top_k, dim=-1): k must lie within the class axis *)
  if (top_k <? 0)%Z || (Z.of_nat (length (hd [] preds)) <? top_k)%Z
  then Err IndexError
  else
    let pred_indices :=
      map (fun row => topk_indices (fst row) (Z.to_nat top_k)) rows in
    let correct :=
      map (fun ir => length (filter (fun i => (Z.of_nat i =? snd ir)%Z)
                                    (fst ir)))
          (combine pred_indices (map snd rows)) in
    Ok (mean_of_counts correct).

(** * Properties *)

(** ** The result monad *)

Lemma bind_Ok_inv {A B : Type} (m : result A) (f : A -> result B) (b : B) :
  bind m f = Ok b -> exists a, m = Ok a /\ f a = Ok b.
Proof.
  destruct m as [a|e]; simpl; intros H; [eauto | discriminate].
Qed.

Ltac inv_bind H :=
  let a := fresh "a" in
  let Ha := fresh "Ha" in
  apply bind_Ok_inv in H; destruct H as (a & Ha & H).

(** ** Comparisons *)

Lemma Qltb_true_iff (x y : Q) : Qltb x y = true <-> (x < y)%Q.
Proof.
  unfold Qltb. rewrite Qlt_alt.
  destruct (x ?= y)%Q; split; congruence.
Qed.

Lemma Qltb_false_iff (x y : Q) : Qltb x y = false <-> (y <= x)%Q.
Proof.
  rewrite <- not_true_iff_false, Qltb_true_iff. split.
  - apply Qnot_lt_le.
  - apply Qle_not_lt.
Qed.

Lemma Qeqb0_true_iff (x : Q) : Qeqb0 x = true <-> (x == 0)%Q.
Proof.
  unfold Qeqb0. rewrite Qeq_alt.
  destruct (x ?= 0)%Q; split; congruence.
Qed.

Lemma Qeqb0_false_iff (x : Q) : Qeqb0 x = false <-> ~ (x == 0)%Q.
Proof.
  rewrite <- not_true_iff_false, Qeqb0_true_iff. tauto.
Qed.

Ltac qbool :=
  repeat match goal with
    | H : Qltb _ _ = true |- _ => apply Qltb_true_iff in H
    | H : Qltb _ _ = false |- _ => apply Qltb_false_iff in H
    | H : Qeqb0 _ = true |- _ => apply Qeqb0_true_iff in H
    | H : Qeqb0 _ = false |- _ => apply Qeqb0_false_iff in H
    | |- Qltb _ _ = true => apply Qltb_true_iff
    | |- Qltb _ _ = false => apply Qltb_false_iff
    | |- Qeqb0 _ = true => apply Qeqb0_true_iff
    | |- Qeqb0 _ = false => apply Qeqb0_false_iff
    end.

Lemma fl_ltb_irrefl (a : fl) : fl_ltb a a = false.
Proof.
  destruct a; simpl; auto. qbool. lra.
Qed.



Lemma fl_sort_leb_total (a b : fl) :
  fl_sort_leb a b = true \/ fl_sort_leb b a = true.
Proof.
  destruct a, b; simpl; auto.
  destruct (Qltb q0 q) eqn:E; simpl; auto.
  right. apply negb_true_iff. qbool. lra.
Qed.

Lemma fl_sort_leb_trans (a b c : fl) :
  fl_sort_leb a b = true -> fl_sort_leb b c = true -> fl_sort_leb a c = true.
Proof.
  destruct a, b, c; simpl; intros H1 H2; try discriminate; auto.
  apply negb_true_iff in H1, H2. apply negb_true_iff. qbool. lra.
Qed.

(** An entry that sorts no later than [b] is not above it. *)
Lemma fl_sort_leb_not_gtb (a b : fl) :
  fl_sort_leb a b = true -> fl_gtb a b = false.
Proof.
  unfold fl_gtb. destruct a, b; simpl; intros H; try discriminate; auto.
  apply negb_true_iff in H. exact H.
Qed.

(** Nothing is below an entry that sorts first. *)
Lemma fl_sort_leb_not_ltb (a b : fl) :
  fl_sort_leb a b = true -> fl_ltb b a = false.
Proof.
  destruct a, b; simpl; intros H; try discriminate; auto.
  apply negb_true_iff in H. exact H.
Qed.

(** ** Sorting *)

Section SortFacts.
Context {A : Type} (leb : A -> A -> bool).
Hypothesis leb_total : forall a b, leb a b = true \/ leb b a = true.
Hypothesis leb_trans :
  forall a b c, leb a b = true -> leb b c = true -> leb a c = true.

Let le (a b : A) : Prop := leb a b = true.

Lemma insert_perm (x : A) (l : list A) : Permutation (insert leb x l) (x :: l).
Proof.
  induction l as [|y l IH]; simpl; auto.
  destruct (leb x y); auto.
  rewrite IH. apply perm_swap.
Qed.

Lemma isort_perm (l : list A) : Permutation (isort leb l) l.
Proof.
  induction l as [|x l IH]; simpl; auto.
  rewrite insert_perm. auto.
Qed.

Lemma isort_length (l : list A) : length (isort leb l) = length l.
Proof. apply Permutation_length, isort_perm. Qed.

Lemma insert_sorted (x : A) (l : list A) :
  StronglySorted le l -> StronglySorted le (insert leb x l).
Proof.
  induction 1 as [|y l Hs IH Hy]; simpl.
  - repeat constructor.
  - destruct (leb x y) eqn:E.
    + constructor; [constructor; auto|].
      constructor; [exact E|].
      eapply Forall_impl; [|exact Hy]. intros z Hz.
      unfold le in *. eauto.
    + constructor; [exact IH|].
      eapply Permutation_Forall; [symmetry; apply insert_perm|].
      constructor; [|exact Hy].
      destruct (leb_total x y) as [H|H]; [congruence | exact H].
Qed.

Lemma isort_sorted (l : list A) : StronglySorted le (isort leb l).
Proof.
  induction l as [|x l IH]; simpl; [constructor | apply insert_sorted, IH].
Qed.
End SortFacts.

Lemma sort_values_perm (l : list fl) : Permutation (sort_values l) l.
Proof. apply isort_perm. Qed.

Lemma sort_values_sorted (l : list fl) :
  StronglySorted (fun a b => fl_sort_leb a b = true) (sort_values l).
Proof.
  apply isort_sorted; [apply fl_sort_leb_total | apply fl_sort_leb_trans].
Qed.

Lemma sort_values_length (l : list fl) : length (sort_values l) = length l.
Proof. apply isort_length. Qed.

(** ** Lists *)

Lemma count_true_map {A : Type} (f : A -> bool) (l : list A) :
  count_true (map f l) = length (filter f l).
Proof.
  unfold count_true. induction l as [|x l IH]; simpl; auto.
  destruct (f x); simpl; auto.
Qed.

Lemma filter_length_perm {A : Type} (f : A -> bool) (l l' : list A) :
  Permutation l l' -> length (filter f l) = length (filter f l').
Proof.
  induction 1 as [|x l l' _ IH|x y l|l l' l'' _ IH1 _ IH2]; simpl; auto.
  - destruct (f x); simpl; auto.
  - destruct (f x), (f y); reflexivity.
  - congruence.
Qed.

Lemma filter_none {A : Type} (f : A -> bool) (l : list A) :
  Forall (fun x => f x = false) l -> filter f l = [].
Proof.
  induction 1 as [|x l Hx _ IH]; simpl; auto. rewrite Hx. exact IH.
Qed.

Lemma take_along_Ok_iff {A : Type} (l : list A) (k : Z) (x : A) :
  take_along l k = Ok x <->
  (0 <= k)%Z /\ nth_error l (Z.to_nat k) = Some x.
Proof.
  unfold take_along. destruct (k <? 0)%Z eqn:E.
  - apply Z.ltb_lt in E. split; [discriminate | lia].
  - apply Z.ltb_ge in E.
    destruct (nth_error l (Z.to_nat k)); split; intros H;
      try discriminate; try (destruct H; discriminate).
    + inversion H; auto.
    + destruct H as [_ H]. inversion H; auto.
Qed.

Lemma take_along_in_range {A : Type} (l : list A) (k : Z) :
  (0 <= k < Z.of_nat (length l))%Z ->
  exists x, nth_error l (Z.to_nat k) = Some x /\ take_along l k = Ok x.
Proof.
  intros Hk. destruct (nth_error l (Z.to_nat k)) as [x|] eqn:E.
  - exists x. split; auto. apply take_along_Ok_iff. split; [lia | exact E].
  - apply nth_error_None in E. lia.
Qed.

Lemma take_along_out_of_range {A : Type} (l : list A) (k : Z) :
  (k < 0 \/ Z.of_nat (length l) <= k)%Z -> take_along l k = Err IndexError.
Proof.
  intros Hk. unfold take_along. destruct (k <? 0)%Z eqn:E; auto.
  apply Z.ltb_ge in E.
  destruct (nth_error l (Z.to_nat k)) eqn:E'; auto.
  assert (nth_error l (Z.to_nat k) <> None) as H by congruence.
  apply nth_error_Some in H. lia.
Qed.

(** ** Confidence-based remasking *)

Lemma gumbel_noise_like_length {T : Type} ln (t : list T) (u : nat -> Q) :
  length (gumbel_noise_like ln t u) = length t.
Proof. unfold gumbel_noise_like. rewrite length_map, length_seq. reflexivity. Qed.

Lemma perturbed_confidence_length ln probs temperature u :
  length (perturbed_confidence ln probs temperature u) = length probs.
Proof.
  unfold perturbed_confidence.
  rewrite length_map, length_combine, gumbel_noise_like_length.
  apply Nat.min_id.
Qed.

(** C2, as the code has it: the cutoff is the perturbed value at rank
    [num_to_mask] (0-indexed, not [num_to_mask - 1]) of the ascending sort
    of the perturbed confidences, for a count inside the row, and exactly
    the positions whose perturbed value is strictly below it are
    re-masked. *)
Theorem mask_by_random_topk_cutoff_rank :
  forall ln (num_to_mask : Z) probs temperature u,
    (0 <= num_to_mask < Z.of_nat (length probs))%Z ->
    exists sorted_confidence cut_off,
      Permutation sorted_confidence
                  (perturbed_confidence ln probs temperature u) /\
      StronglySorted (fun a b => fl_sort_leb a b = true) sorted_confidence /\
      nth_error sorted_confidence (Z.to_nat num_to_mask) = Some cut_off /\
      mask_by_random_topk_row ln num_to_mask probs temperature u =
        Ok (map (fun c => fl_ltb c cut_off)
                (perturbed_confidence ln probs temperature u)).
Proof.
  intros ln k probs t u Hk.
  set (confidence := perturbed_confidence ln probs t u).
  destruct (take_along_in_range (sort_values confidence) k) as (x & Hx & Ht).
  { rewrite sort_values_length. unfold confidence.
    rewrite perturbed_confidence_length. exact Hk. }
  exists (sort_values confidence), x.
  split; [apply sort_values_perm|].
  split; [apply sort_values_sorted|].
  split; [exact Hx|].
  unfold mask_by_random_topk_row. fold confidence. rewrite Ht. reflexivity.
Qed.

Lemma mask_by_random_topk_cutoff_rank_witness :
  (0 <= 1 < Z.of_nat (length [Fin 0; Fin 1; PInf]))%Z /\
  exists sorted_confidence cut_off,
    Permutation sorted_confidence
      (perturbed_confidence Dyadic.ln [Fin 0; Fin 1; PInf] (Fin 0)
                            (fun _ => 1 # 2)) /\
    StronglySorted (fun a b => fl_sort_leb a b = true) sorted_confidence /\
    nth_error sorted_confidence (Z.to_nat 1) = Some cut_off /\
    mask_by_random_topk_row Dyadic.ln 1 [Fin 0; Fin 1; PInf] (Fin 0)
                            (fun _ => 1 # 2) =
      Ok (map (fun c => fl_ltb c cut_off)
              (perturbed_confidence Dyadic.ln [Fin 0; Fin 1; PInf] (Fin 0)
                                    (fun _ => 1 # 2))).
Proof.
  split; [simpl; lia|].
  apply (mask_by_random_topk_cutoff_rank
           Dyadic.ln 1 [Fin 0; Fin 1; PInf] (Fin 0) (fun _ => 1 # 2)).
  simpl. lia.
Defined.

(** C2, as the specification words it, fails: on the confidences
    [0, 1, +inf] with no noise and [num_to_mask = 1] the code masks the
    first position (cutoff at rank 1), a cutoff at rank 0 masks none. *)
Lemma mask_by_random_topk_cutoff_rank_counterexample :
  mask_by_random_topk_row Dyadic.ln 1 [Fin 0; Fin 1; PInf] (Fin 0)
                          (fun _ => 1 # 2) = Ok [true; false; false] /\
  spec_mask_by_rank Dyadic.ln 1 [Fin 0; Fin 1; PInf] (Fin 0)
                    (fun _ => 1 # 2) = Ok [false; false; false].
Proof. split; reflexivity. Qed.


(** *** Remasking without noise *)


Section StrictSort.





End StrictSort.



Section ZeroTemperature.
Variable ln : Q -> Q.
Hypothesis ln_increasing :
  forall a b : Q, (0 < a)%Q -> (a < b)%Q -> (ln a < ln b)%Q.



Lemma gumbel_finite (x : Q) :
  (0 < x)%Q -> (ln x < 0)%Q ->
  exists g, fl_neg (fl_log ln (fl_neg (fl_log ln (Fin x)))) = Fin g.
Proof.
  intros Hx Hl. simpl.
  destruct (Qltb x 0) eqn:E1; [qbool; lra|].
  destruct (Qeqb0 x) eqn:E2; [qbool; lra|]. simpl.
  destruct (Qltb (- ln x) 0) eqn:E3; [qbool; lra|].
  destruct (Qeqb0 (- ln x)) eqn:E4; [qbool; lra|]. simpl. eauto.
Qed.





End ZeroTemperature.




(** *** Positions of infinite confidence and the first rank *)

Lemma perturbed_confidence_from ln (probs : list fl) temperature (u : nat -> Q) :
  forall s,
    Forall2 (fun p c => exists g, c = fl_add (fl_log ln p) (fl_mul temperature g))
      probs
      (map (fun pg => fl_add (fl_log ln (fst pg)) (fl_mul temperature (snd pg)))
           (combine probs
              (map (fun j => fl_neg (fl_log ln (fl_neg (fl_log ln (Fin (u j))))))
                   (seq s (length probs))))).
Proof.
  induction probs as [|p probs IH]; intros s;
    cbn [map combine seq length fst snd]; constructor; eauto.
Qed.

Lemma perturbed_confidence_nth ln probs temperature u :
  Forall2 (fun p c => exists g, c = fl_add (fl_log ln p) (fl_mul temperature g))
          probs (perturbed_confidence ln probs temperature u).
Proof. apply (perturbed_confidence_from ln probs temperature u 0). Qed.

Lemma fl_add_PInf_not_below (x c : fl) : fl_ltb (fl_add PInf x) c = false.
Proof. destruct x, c; reflexivity. Qed.


(** ** Row-wise combinators *)

Section Lifting.
Context {A B C D : Type}.

Lemma mapM_Forall2 (f : A -> result B) (R : A -> B -> Prop) :
  (forall x y, f x = Ok y -> R x y) ->
  forall l r, mapM f l = Ok r -> Forall2 R l r.
Proof.
  intros Hf. induction l as [|x l IH]; simpl; intros r H.
  - injection H as <-. constructor.
  - inv_bind H. inv_bind H. injection H as <-. constructor; auto.
Qed.

Lemma zipM_Forall2_l (f : A -> B -> result C) (R : A -> C -> Prop) :
  (forall x y z, f x y = Ok z -> R x z) ->
  forall l1 l2 r, zipM f l1 l2 = Ok r -> Forall2 R l1 r.
Proof.
  intros Hf. induction l1 as [|x l1 IH]; intros [|y l2] r H; simpl in H;
    try discriminate.
  - injection H as <-. constructor.
  - inv_bind H. inv_bind H. injection H as <-. constructor; eauto.
Qed.

Lemma rows_from_Forall2 (f : nat -> A -> B -> result C) (R : B -> C -> Prop) :
  (forall b x y z, f b x y = Ok z -> R y z) ->
  forall l1 l2 b r, rows_from f b l1 l2 = Ok r -> Forall2 R l2 r.
Proof.
  intros Hf. induction l1 as [|x l1 IH]; intros [|y l2] b r H; simpl in H;
    try discriminate.
  - injection H as <-. constructor.
  - inv_bind H. inv_bind H. injection H as <-. constructor; eauto.
Qed.

End Lifting.

Lemma Forall2_compose {A B C : Type} (R : A -> B -> Prop) (S : B -> C -> Prop)
      (T : A -> C -> Prop) :
  (forall a b c, R a b -> S b c -> T a c) ->
  forall l1 l2 l3, Forall2 R l1 l2 -> Forall2 S l2 l3 -> Forall2 T l1 l3.
Proof.
  intros H l1 l2 l3 H1. revert l3.
  induction H1; intros l3 H2; inversion H2; subst; constructor; eauto.
Qed.

Lemma Forall2_map_eq {A B : Type} (g : B -> A) (l1 : list A) (l2 : list B) :
  Forall2 (fun a b => g b = a) l1 l2 -> map g l2 = l1.
Proof. induction 1; simpl; congruence. Qed.

Lemma Forall2_map_eq2 {A B C : Type} (f : A -> C) (g : B -> C) l1 l2 :
  Forall2 (fun a b => g b = f a) l1 l2 -> map f l1 = map g l2.
Proof. induction 1; simpl; congruence. Qed.




(** ** Codebook layout *)

Section Layout.
Context {A : Type} (d : A).

Lemma map_nth_firstn (f : list A) :
  forall c, c <= length f ->
            map (fun k => nth k f d) (seq 0 c) = firstn c f.
Proof.
  induction f as [|x f IH]; intros [|c] Hc; simpl in *; try lia; auto.
  f_equal. rewrite <- seq_shift, map_map. apply IH. lia.
Qed.

Lemma nth_add_skipn (c : nat) :
  forall (f : list A) m, nth (c + m) f d = nth m (skipn c f) d.
Proof.
  induction c as [|c IH]; intros [|x f] m; simpl; auto.
  destruct m; reflexivity.
Qed.

(** A sequence cut into time steps of [c] codebooks and laid out again
    is the sequence. *)
Lemma chunks_concat (c : nat) :
  forall T (f : list A),
    length f = T * c ->
    concat (map (fun t => map (fun k => nth (t * c + k) f d) (seq 0 c))
                (seq 0 T)) = f.
Proof.
  induction T as [|T IH]; intros f Hlen.
  - destruct f; [reflexivity | discriminate].
  - cbn [seq map concat]. rewrite <- seq_shift, map_map.
    transitivity (firstn c f ++ skipn c f); [|apply firstn_skipn].
    f_equal.
    + apply map_nth_firstn. simpl in Hlen. lia.
    + transitivity
        (concat (map (fun t => map (fun k => nth (t * c + k) (skipn c f) d)
                                   (seq 0 c)) (seq 0 T))).
      * f_equal. apply map_ext. intros t. apply map_ext. intros k.
        rewrite <- nth_add_skipn. f_equal. simpl. lia.
      * apply IH. rewrite length_skipn. simpl in Hlen. lia.
Qed.

(** [codebook_flatten] inverts [codebook_unflatten]. *)
Lemma codebook_flatten_unflatten (f : list A) (n_c : Z) (g : list (list A)) :
  codebook_unflatten d f n_c = Ok g -> codebook_flatten d g = f.
Proof.
  unfold codebook_unflatten.
  destruct (n_c <=? 0)%Z eqn:En; [discriminate|].
  apply Z.leb_gt in En.
  set (c := Z.to_nat n_c).
  assert (0 < c) as Hc by (unfold c; lia).
  destruct (length f mod c =? 0) eqn:Em; [|discriminate].
  apply Nat.eqb_eq in Em.
  intros H. injection H as <-.
  set (T := length f / c).
  assert (length f = T * c) as Hlen.
  { unfold T. rewrite Nat.mul_comm. apply Nat.Div0.div_exact. exact Em. }
  unfold codebook_flatten.
  assert (length (hd [] (map (fun k => map (fun t => nth (t * c + k) f d)
                                           (seq 0 T)) (seq 0 c))) = T) as Hhd.
  { destruct c as [|c']; [lia|]. cbn [seq map hd].
    rewrite length_map, length_seq. reflexivity. }
  rewrite Hhd, flat_map_concat_map.
  transitivity
    (concat (map (fun t => map (fun k => nth (t * c + k) f d) (seq 0 c))
                 (seq 0 T)));
    [|apply chunks_concat; exact Hlen].
  f_equal. apply map_ext_in. intros t Ht. apply in_seq in Ht.
  rewrite map_map. apply map_ext. intros k.
  rewrite (nth_indep _ d (nth (0 * c + k) f d))
    by (rewrite length_map, length_seq; lia).
  rewrite (map_nth (fun t0 => nth (t0 * c + k) f d) (seq 0 T) 0 t).
  rewrite seq_nth by lia. reflexivity.
Qed.

(** Every cell of the unflattened grid is a cell of the sequence. *)
Lemma codebook_unflatten_In (f : list A) (n_c : Z) (g : list (list A)) :
  codebook_unflatten d f n_c = Ok g ->
  Forall (Forall (fun x => In x f)) g.
Proof.
  unfold codebook_unflatten.
  destruct (n_c <=? 0)%Z eqn:En; [discriminate|].
  apply Z.leb_gt in En.
  set (c := Z.to_nat n_c).
  assert (0 < c) as Hc by (unfold c; lia).
  destruct (length f mod c =? 0) eqn:Em; [|discriminate].
  apply Nat.eqb_eq in Em.
  intros H. injection H as <-.
  assert (length f = (length f / c) * c) as Hlen.
  { rewrite Nat.mul_comm. apply Nat.Div0.div_exact. exact Em. }
  apply Forall_forall. intros row Hrow. apply in_map_iff in Hrow.
  destruct Hrow as (k & <- & Hk). apply in_seq in Hk.
  apply Forall_forall. intros x Hx. apply in_map_iff in Hx.
  destruct Hx as (t & <- & Ht). apply in_seq in Ht.
  apply nth_In. nia.
Qed.
End Layout.

(** ** Pieces of the loop body *)

Lemma where_scalar_r_unmasked {A : Type} (m : list bool) (p : list A) (v : A)
      (c : list A) :
  where_scalar_r m p v = Ok c ->
  Forall2 (fun (mj : bool) cj => mj = false -> cj = v) m c.
Proof.
  unfold where_scalar_r, zip_with.
  apply zipM_Forall2_l. intros x y w H. injection H as <-.
  intros ->. reflexivity.
Qed.

Lemma mask_by_random_topk_row_unmasked ln k probs temperature u mask :
  mask_by_random_topk_row ln k probs temperature u = Ok mask ->
  Forall2 (fun c (n : bool) => c = PInf -> n = false) probs mask.
Proof.
  unfold mask_by_random_topk_row. intros H. inv_bind H. injection H as <-.
  pose proof (perturbed_confidence_nth ln probs temperature u) as Hc.
  clear Ha. revert Hc.
  generalize (perturbed_confidence ln probs temperature u). intros cs Hc.
  induction Hc as [|p c ps cs (g & ->) _ IH]; simpl; constructor; auto.
  intros ->. apply fl_add_PInf_not_below.
Qed.


Lemma where_no_token (tok : Z) (flat sampled out : list Z) :
  where_ (map (fun x => (x =? tok)%Z) flat) sampled flat = Ok out ->
  Forall (fun x => x <> tok) sampled ->
  Forall (fun x => x <> tok) out.
Proof.
  revert sampled out.
  induction flat as [|x flat IH]; intros [|s sampled] out H Hs;
    simpl in H; try discriminate.
  - injection H as <-. constructor.
  - inversion Hs; subst. inv_bind H. injection H as <-.
    constructor; [|eapply IH; eauto].
    destruct (x =? tok)%Z eqn:E; auto. apply Z.eqb_neq in E. exact E.
Qed.


Lemma mapi_Forall {A B : Type} (f : nat -> A -> B) (P : B -> Prop) (l : list A) :
  (forall i x, P (f i x)) -> Forall P (mapi f l).
Proof.
  intros H. unfold mapi. apply Forall_forall. intros y Hy.
  apply in_map_iff in Hy. destruct Hy as (p & <- & _). apply H.
Qed.

Lemma schedule_ratio_last (i : nat) (sampling_steps : Z) :
  (Z.of_nat i = sampling_steps - 1)%Z -> schedule_ratio i sampling_steps = 1%Q.
Proof.
  intros H. unfold schedule_ratio.
  replace (Z.of_nat i + 1)%Z with sampling_steps by lia.
  change 1%Q with (Qred 1). apply Qred_complete.
  assert (~ inject_Z sampling_steps == 0)%Q as Hnz.
  { intros E. assert (sampling_steps = 0)%Z; [|lia].
    unfold Qeq in E. simpl in E. lia. }
  field. exact Hnz.
Qed.

Lemma cat_conditioning_rows (self : VampNet) (z x out : grid) :
  cat_conditioning self z x = Ok out ->
  Forall (fun row => n_conditioning_codebooks self <= length row) z ->
  Forall2 (fun zrow orow =>
             firstn (n_conditioning_codebooks self) orow
             = firstn (n_conditioning_codebooks self) zrow) z out /\
  Forall2 (fun xrow orow => skipn (n_conditioning_codebooks self) orow = xrow)
          x out.
Proof.
  unfold cat_conditioning, zip_with.
  destruct (time_axis z =? time_axis x); [|discriminate].
  set (n_cond := n_conditioning_codebooks self). revert x out.
  induction z as [|zrow z' IH]; intros [|xrow x] out H Hz; simpl in H;
    try discriminate.
  - injection H as <-. split; constructor.
  - inversion Hz as [|? ? Hrow Hz']; subst.
    inv_bind H. injection H as <-.
    destruct (IH _ _ Ha Hz') as [H1 H2].
    split; constructor; auto.
    + rewrite firstn_app, firstn_firstn, Nat.min_id.
      rewrite length_firstn, Nat.min_l by exact Hrow.
      rewrite Nat.sub_diag. simpl. apply app_nil_r.
    + rewrite skipn_app, length_firstn, Nat.min_l by exact Hrow.
      rewrite Nat.sub_diag. simpl.
      rewrite skipn_all2; [reflexivity|].
      rewrite length_firstn. lia.
Qed.

(** ** The sampling loop *)

Section GenerateFacts.
Variable ln : Q -> Q.
Variable fl_exp : fl -> fl.
Variable softmax : list fl -> list fl.
Variable log_softmax : list fl -> list fl.
Variable _gamma : Q -> Q.
Variable score : grid -> list (list (list fl)).
Variable multinomial : nat -> nat -> nat -> list fl -> Z.
Variable uniform : nat -> nat -> nat -> Q.
Variable self : VampNet.

Variable sampling_steps : Z.
Variable temperature : fl.
Variable typical_filtering : bool.
Variable typical_mass : fl.
Variable typical_min_tokens : Z.
Variable z : grid.
Variable num_mask_tokens_at_start : nat.

Let n_cond := n_conditioning_codebooks self.
Let n_infer : Z := (Z.of_nat (n_codebooks self) - Z.of_nat n_cond)%Z.

Let body :=
  sampling_step ln fl_exp softmax log_softmax _gamma score multinomial
                uniform self sampling_steps temperature typical_filtering
                typical_mass typical_min_tokens z num_mask_tokens_at_start.

Let loop :=
  sampling_loop ln fl_exp softmax log_softmax _gamma score multinomial
                uniform self sampling_steps temperature typical_filtering
                typical_mass typical_min_tokens z num_mask_tokens_at_start.

(** What a completed step computed, equation by equation. *)
Lemma sampling_step_inv (i : nat) (z_masked : grid) (st : step) :
  body i z_masked = Ok st ->
  let r := schedule_ratio i sampling_steps in
  let probs := map (map softmax) (score z_masked) in
  let flat :=
    map (fun row => codebook_flatten 0%Z (skipn n_cond row)) z_masked in
  exists selected_probs flat_masked unflat,
    st_probs st = probs /\
    st_mask st = flat_mask self z_masked /\
    zipM3 where_ (st_mask st)
          (mapi (fun b rows => mapi (fun s p => multinomial i b s p) rows)
                probs)
          flat = Ok (st_sampled_z st) /\
    zipM (fun m p => where_scalar_r m p PInf) (st_mask st) selected_probs
      = Ok (st_selected_probs st) /\
    st_num_to_mask st =
      map (fun mrow =>
             if negb (Z.of_nat i =? sampling_steps - 1)%Z
             then Z.max 1
                    (Z.min (Z.of_nat (count_true mrow) - 1)
                       (Qfloor (_gamma r *
                                inject_Z (Z.of_nat num_mask_tokens_at_start))))
             else Qfloor (_gamma r *
                          inject_Z (Z.of_nat num_mask_tokens_at_start)))
          (st_mask st) /\
    mask_by_random_topk ln (st_num_to_mask st) (st_selected_probs st)
                        (fl_mul temperature (Fin (1 - r))) (uniform i)
      = Ok (st_new_mask st) /\
    zipM (fun m s => where_scalar_l m (mask_token self) s)
         (st_new_mask st) (st_sampled_z st) = Ok flat_masked /\
    mapM (fun f => codebook_unflatten 0%Z f n_infer) flat_masked
      = Ok unflat /\
    cat_conditioning self z unflat = Ok (st_z_masked st).
Proof.
  unfold body, sampling_step. intros H.
  repeat inv_bind H. injection H as <-.
  cbn [st_probs st_mask st_selected_probs st_num_to_mask st_new_mask
       st_sampled_z st_z_masked].
  exists a0, a5, a6. repeat split; auto.
  unfold flat_mask. rewrite map_map. reflexivity.
Qed.

Lemma loop_steps_from :
  forall n i z_masked sampled_z,
    steps_from body i z_masked (fst (loop n i z_masked sampled_z)).
Proof.
  induction n as [|n IH]; intros i z_masked sampled_z; simpl; auto.
  unfold loop in *. simpl. fold body.
  destruct (body i z_masked) as [st|e] eqn:E; simpl; auto.
Qed.

Lemma loop_Ok :
  forall n i z_masked sampled_z out,
    snd (loop n i z_masked sampled_z) = Ok out ->
    length (fst (loop n i z_masked sampled_z)) = n /\
    finish self z (last_sampled sampled_z (fst (loop n i z_masked sampled_z)))
      = Ok out.
Proof.
  induction n as [|n IH]; intros i z_masked sampled_z out; simpl.
  - auto.
  - unfold loop in *. simpl. fold body.
    destruct (body i z_masked) as [st|e] eqn:E; simpl; [|discriminate].
    intros H. destruct (IH _ _ _ _ H) as [H1 H2]. split; [lia | exact H2].
Qed.

Lemma steps_from_nth :
  forall tr i z_masked j st,
    steps_from body i z_masked tr ->
    nth_error tr j = Some st ->
    exists z_masked', body (i + j) z_masked' = Ok st.
Proof.
  induction tr as [|st0 tr IH]; intros i z_masked j st Hs Hj.
  - destruct j; discriminate.
  - destruct Hs as [H0 Hs]. destruct j as [|j]; simpl in Hj.
    + injection Hj as <-. rewrite Nat.add_0_r. eauto.
    + destruct (IH _ _ _ _ Hs Hj) as [z' Hz'].
      exists z'. rewrite <- Hz'. f_equal. lia.
Qed.

Lemma steps_from_nth_grid :
  forall tr i z_masked j st,
    steps_from body i z_masked tr ->
    nth_error tr j = Some st ->
    body (i + j) (grid_before z_masked tr j) = Ok st.
Proof.
  induction tr as [|st0 tr IH]; intros i z_masked j st Hs Hj.
  - destruct j; discriminate.
  - destruct Hs as [H0 Hs]. destruct j as [|j]; simpl in Hj.
    + injection Hj as <-. rewrite Nat.add_0_r. exact H0.
    + pose proof (IH _ _ _ _ Hs Hj) as H.
      replace (i + S j) with (S i + j) by lia.
      replace (grid_before z_masked (st0 :: tr) (S j))
        with (grid_before (st_z_masked st0) tr j); [exact H|].
      destruct j as [|j]; simpl; auto.
      destruct (nth_error tr j) eqn:E; auto.
      apply nth_error_None in E.
      assert (nth_error tr (S j) = None) as E'
          by (apply nth_error_None; lia).
      congruence.
Qed.

(** Within a step a position that is not masked gets confidence
    +infinity and stays unmasked. *)
Lemma sampling_step_unmasked (i : nat) (z_masked : grid) (st : step) :
  body i z_masked = Ok st ->
  Forall2 (Forall2 (fun (m : bool) c => m = false -> c = PInf))
          (st_mask st) (st_selected_probs st) /\
  Forall2 (Forall2 (fun (m n : bool) => m = false -> n = false))
          (st_mask st) (st_new_mask st).
Proof.
  intros H. destruct (sampling_step_inv i z_masked st H)
    as (sel & fm & unf & _ & _ & _ & Hsel & _ & Htopk & _).
  assert (Forall2 (Forall2 (fun (m : bool) c => m = false -> c = PInf))
                  (st_mask st) (st_selected_probs st)) as H1.
  { revert Hsel. apply zipM_Forall2_l.
    intros m p c. apply where_scalar_r_unmasked. }
  split; [exact H1|].
  assert (Forall2 (Forall2 (fun c (n : bool) => c = PInf -> n = false))
                  (st_selected_probs st) (st_new_mask st)) as H2.
  { revert Htopk. unfold mask_by_random_topk. apply rows_from_Forall2.
    intros b k row m. apply mask_by_random_topk_row_unmasked. }
  revert H1 H2. apply Forall2_compose. intros m c n.
  apply Forall2_compose. auto.
Qed.

Hypothesis sample_not_mask :
  forall i b s p, multinomial i b s p <> mask_token self.

Lemma sampling_step_sampled (i : nat) (z_masked : grid) (st : step) :
  body i z_masked = Ok st ->
  Forall (Forall (fun x => x <> mask_token self)) (st_sampled_z st).
Proof.
  intros H. destruct (sampling_step_inv i z_masked st H)
    as (sel & fm & unf & _ & Hmask & Hwhere & _).
  rewrite Hmask in Hwhere. unfold flat_mask in Hwhere.
  rewrite <- map_map
    with (g := map (fun x => (x =? mask_token self)%Z)) in Hwhere.
  unfold n_cond in Hwhere. revert Hwhere.
  set (flat := map (fun row => codebook_flatten 0%Z
                      (skipn (n_conditioning_codebooks self) row)) z_masked).
  set (sampled := mapi _ _).
  assert (Forall (Forall (fun x => x <> mask_token self)) sampled) as Hs.
  { apply mapi_Forall. intros b rows. apply mapi_Forall. intros s p.
    apply sample_not_mask. }
  clearbody flat sampled. generalize (st_sampled_z st). revert sampled Hs.
  clear. induction flat as [|f flat IH]; intros [|s sampled] Hs out Hw;
    simpl in Hw; try discriminate.
  - injection Hw as <-. constructor.
  - inversion Hs; subst. inv_bind Hw. inv_bind Hw. injection Hw as <-.
    constructor; [eapply where_no_token; eauto | eapply IH; eauto].
Qed.

Hypothesis z_channels : Forall (fun row => n_cond <= length row) z.



Hypothesis gamma_1 : (_gamma 1 == 0)%Q.




Lemma steps_from_In :
  forall tr i z_masked st,
    steps_from body i z_masked tr -> In st tr ->
    exists i' z_masked', body i' z_masked' = Ok st.
Proof.
  intros tr i z_masked st Hs Hin.
  destruct (In_nth_error _ _ Hin) as [j Hj].
  destruct (steps_from_nth tr i z_masked j st Hs Hj) as [z' Hz'].
  eauto.
Qed.

Lemma last_sampled_In :
  forall tr sampled_z s,
    last_sampled sampled_z tr = Some s ->
    sampled_z = Some s \/ exists st, In st tr /\ st_sampled_z st = s.
Proof.
  induction tr as [|st tr IH]; intros sampled_z s H; simpl in H; auto.
  destruct (IH _ _ H) as [E|(st' & Hin & E)].
  - injection E as <-. right. exists st. simpl. auto.
  - right. exists st'. simpl. auto.
Qed.

(** The predicted codebooks of the returned grid hold no mask token. *)
Lemma finish_no_mask :
  forall tr i z_masked out,
    steps_from body i z_masked tr ->
    finish self z (last_sampled None tr) = Ok out ->
    Forall (fun row =>
              Forall (Forall (fun x => x <> mask_token self))
                     (skipn n_cond row)) out.
Proof.
  intros tr i z_masked out Hs Hf. unfold finish in Hf.
  destruct (last_sampled None tr) as [s|] eqn:El; [|discriminate].
  destruct (last_sampled_In _ _ _ El) as [E|(st & Hin & <-)];
    [discriminate|].
  destruct (steps_from_In _ _ _ _ Hs Hin) as (i' & z' & Hst).
  pose proof (sampling_step_sampled _ _ _ Hst) as Hsz.
  inv_bind Hf. rename a into unf.
  destruct (cat_conditioning_rows self z unf out Hf z_channels) as [_ H3].
  assert (Forall2 (fun (f : list Z) (g : list (list Z)) =>
                     Forall (Forall (fun x => In x f)) g)
                  (st_sampled_z st) unf) as H2.
  { revert Ha. apply mapM_Forall2. intros f g.
    apply codebook_unflatten_In. }
  clear Hf Ha El Hst Hin Hs. revert unf out H2 H3.
  induction Hsz as [|f fs Hf _ IH]; intros unf out H2 H3;
    inversion H2; subst; inversion H3; subst; constructor; eauto.
  rewrite Forall_forall in Hf.
  eapply Forall_impl; [|eassumption]. intros chan Hchan.
  eapply Forall_impl; [|exact Hchan]. intros x Hx. apply Hf, Hx.
Qed.

(** Every step leaves the conditioning codebooks as [z] has them. *)
Lemma steps_from_conditioning :
  forall tr i z_masked,
    steps_from body i z_masked tr ->
    Forall (fun st => map (firstn n_cond) (st_z_masked st)
                      = map (firstn n_cond) z) tr.
Proof.
  induction tr as [|st tr IH]; intros i z_masked Hs; constructor.
  - destruct Hs as [H0 _].
    destruct (sampling_step_inv i z_masked st H0)
      as (sel & fm & unf & _ & _ & _ & _ & _ & _ & _ & _ & Hcat).
    destruct (cat_conditioning_rows self z unf (st_z_masked st) Hcat z_channels)
      as [H1 _].
    symmetry. apply (Forall2_map_eq2 _ _ _ _ H1).
  - destruct Hs as [_ Hs]. eapply IH; eauto.
Qed.

End GenerateFacts.

(** ** The default mask *)

Lemma broadcast_same {A B : Type} (l1 : list A) (l2 : list B) :
  length l1 = length l2 -> broadcast l1 l2 = Ok (l1, l2).
Proof.
  intros H. unfold broadcast. rewrite H, Nat.eqb_refl. reflexivity.
Qed.

Lemma zip_with_zero_mask (v : Z) (zchan : list Z) (out : list Z) :
  zip_with (fun x (m : Z) => if (m =? 0)%Z then x else v)
           zchan (map (fun _ => 0%Z) zchan) = Ok out ->
  out = zchan.
Proof.
  unfold zip_with. revert out.
  induction zchan as [|x zchan IH]; intros out H; simpl in H.
  - injection H as <-. reflexivity.
  - inv_bind H. injection H as <-. f_equal. apply IH, Ha.
Qed.

Lemma default_mask_row_from (n : nat) (v : Z) (zrow : list (list Z)) :
  forall s orow,
    zipM (fun zchan mchan =>
            p3 <- broadcast zchan mchan ;;
            zip_with (fun x (m : Z) => if (m =? 0)%Z then x else v)
                     (fst p3) (snd p3))
         zrow
         (map (fun p => map (fun _ => if fst p <? n then 0%Z else 1%Z) (snd p))
              (combine (seq s (length zrow)) zrow)) = Ok orow ->
    firstn (n - s) orow = firstn (n - s) zrow.
Proof.
  induction zrow as [|zchan zrow IH]; intros s orow H;
    cbn [length seq combine map zipM] in H.
  - injection H as <-. reflexivity.
  - inv_bind H. inv_bind H. injection H as <-.
    destruct (n - s) as [|k] eqn:E; [reflexivity|].
    cbn [firstn]. cbn [fst snd] in Ha.
    assert ((s <? n) = true) as Hlt by (apply Nat.ltb_lt; lia).
    rewrite Hlt in Ha. rewrite broadcast_same in Ha
      by (rewrite length_map; reflexivity).
    simpl in Ha. apply zip_with_zero_mask in Ha. subst a.
    f_equal. replace k with (n - S s) by lia. apply IH, Ha0.
Qed.

Lemma default_mask_row_zero_from (n : nat) (zrow : list (list Z)) :
  forall s,
    Forall (Forall (fun m => m = 0%Z))
      (firstn (n - s)
         (map (fun p => map (fun _ => if fst p <? n then 0%Z else 1%Z) (snd p))
              (combine (seq s (length zrow)) zrow))).
Proof.
  induction zrow as [|zchan zrow IH]; intros s;
    cbn [length seq combine map].
  - rewrite firstn_nil. constructor.
  - destruct (n - s) as [|k] eqn:E; [constructor|].
    cbn [firstn fst snd].
    assert ((s <? n) = true) as Hlt by (apply Nat.ltb_lt; lia).
    rewrite Hlt. constructor.
    + apply Forall_forall. intros m Hm. apply in_map_iff in Hm.
      destruct Hm as (x & <- & _). reflexivity.
    + replace k with (n - S s) by lia. apply IH.
Qed.

(** The default mask is 0 on the conditioning codebooks. *)
Lemma default_mask_conditioning (n : nat) (z : grid) :
  Forall (Forall (Forall (fun m => m = 0%Z)))
         (map (firstn n) (default_mask n z)).
Proof.
  unfold default_mask. rewrite map_map. apply Forall_forall.
  intros row Hrow. apply in_map_iff in Hrow. destruct Hrow as (zrow & <- & _).
  unfold mapi. pose proof (default_mask_row_zero_from n zrow 0) as H.
  rewrite Nat.sub_0_r in H. exact H.
Qed.

(** Filling with the default mask leaves the conditioning codebooks as
    they were. *)
Lemma masked_fill_default_conditioning (n : nat) (v : Z) (z z_masked : grid) :
  masked_fill z (default_mask n z) v = Ok z_masked ->
  map (firstn n) z_masked = map (firstn n) z.
Proof.
  unfold masked_fill, default_mask.
  rewrite broadcast_same by (rewrite length_map; reflexivity).
  cbn [bind fst snd]. revert z_masked.
  induction z as [|zrow z IH]; intros z_masked H; cbn [map zipM] in H.
  - injection H as <-. reflexivity.
  - inv_bind H. inv_bind H. injection H as <-. cbn [map].
    f_equal; [|apply IH, Ha0].
    inv_bind Ha. unfold mapi in Ha1.
    rewrite broadcast_same in Ha1
      by (rewrite length_map, length_combine, length_seq, Nat.min_id;
          reflexivity).
    injection Ha1 as <-. cbn [fst snd] in Ha. unfold mapi in Ha.
    pose proof (default_mask_row_from n v zrow 0 a Ha) as H.
    rewrite Nat.sub_0_r in H. exact H.
Qed.

(** ** Masks that do not broadcast *)





(** ** Runs of [generate] *)

Section GenerateClaims.
Variable ln : Q -> Q.
Variable fl_exp : fl -> fl.
Variable softmax : list fl -> list fl.
Variable log_softmax : list fl -> list fl.
Variable _gamma : Q -> Q.
Variable score : grid -> list (list (list fl)).
Variable multinomial : nat -> nat -> nat -> list fl -> Z.
Variable uniform : nat -> nat -> nat -> Q.
Variable self : VampNet.

Variable time_steps : nat.
Variable sampling_steps : Z.
Variable mask : mask_arg.
Variable typical_mass : fl.
Variable typical_min_tokens : Z.

Let n_cond := n_conditioning_codebooks self.

Let run (start_tokens : option grid) :=
  generate ln fl_exp softmax log_softmax _gamma score multinomial uniform
           self time_steps sampling_steps start_tokens mask.

Let loop (start_tokens : option grid) (temperature : fl)
    (typical_filtering : bool) (z_masked : grid) :=
  sampling_loop ln fl_exp softmax log_softmax _gamma score multinomial
                uniform self sampling_steps temperature typical_filtering
                typical_mass typical_min_tokens
                (resolve_z self time_steps start_tokens)
                (count_tokens (mask_token self) z_masked)
                (Z.to_nat sampling_steps) 0 z_masked None.

Let body (start_tokens : option grid) (temperature : fl)
    (typical_filtering : bool) (z_masked : grid) :=
  sampling_step ln fl_exp softmax log_softmax _gamma score multinomial
                uniform self sampling_steps temperature typical_filtering
                typical_mass typical_min_tokens
                (resolve_z self time_steps start_tokens)
                (count_tokens (mask_token self) z_masked).

Let initial (start_tokens : option grid) : result grid :=
  masked_fill (resolve_z self time_steps start_tokens)
              (resolve_mask n_cond (resolve_z self time_steps start_tokens)
                            mask)
              (mask_token self).

(** Either [generate] raises before the loop, or it is the loop entered
    with the masked grid. *)
Lemma generate_cases start_tokens temperature typical_filtering :
  (exists e, run start_tokens temperature typical_filtering
                 typical_mass typical_min_tokens = ([], Err e)) \/
  (exists t z_masked,
      temperature = PyFloat t /\
      initial start_tokens = Ok z_masked /\
      run start_tokens temperature typical_filtering
          typical_mass typical_min_tokens
      = loop start_tokens t typical_filtering z_masked).
Proof.
  unfold run, generate, initial, loop, n_cond.
  destruct temperature as [t| |]; [|left; eauto|left; eauto].
  destruct (masked_fill _ _ _) as [z_masked|e]; [|left; eauto].
  right. exists t, z_masked. auto.
Qed.

Lemma generate_steps start_tokens temperature typical_filtering tr res :
  run start_tokens temperature typical_filtering
      typical_mass typical_min_tokens = (tr, res) ->
  tr = [] \/
  exists t z_masked,
    temperature = PyFloat t /\
    initial start_tokens = Ok z_masked /\
    loop start_tokens t typical_filtering z_masked = (tr, res) /\
    steps_from (body start_tokens t typical_filtering z_masked)
               0 z_masked tr.
Proof.
  intros H.
  destruct (generate_cases start_tokens temperature typical_filtering)
    as [(e & He)|(t & z_masked & Ht & Hz & Hl)].
  - left. rewrite He in H. injection H as <- _. reflexivity.
  - right. exists t, z_masked. rewrite Hl in H.
    repeat split; auto.
    pose proof (loop_steps_from ln fl_exp softmax log_softmax _gamma score
                  multinomial uniform self sampling_steps t
                  typical_filtering typical_mass typical_min_tokens
                  (resolve_z self time_steps start_tokens)
                  (count_tokens (mask_token self) z_masked)
                  (Z.to_nat sampling_steps) 0 z_masked None) as Hs.
    unfold loop in H. rewrite H in Hs. exact Hs.
Qed.



(** C10: a [temperature] that is not a Python float (an int, or the
    tuple of the annotation) makes [generate] raise an assertion error
    before anything else happens. *)
Theorem generate_temperature_not_float :
  forall start_tokens temperature typical_filtering,
    (forall x, temperature <> PyFloat x) ->
    run start_tokens temperature typical_filtering
        typical_mass typical_min_tokens = ([], Err AssertionError).
Proof.
  intros start_tokens temperature tf H. unfold run, generate.
  destruct temperature as [x| |]; auto. destruct (H x eq_refl).
Qed.

Lemma sampling_step_filter_unused z N temperature i z_masked st :
  sampling_step ln fl_exp softmax log_softmax _gamma score multinomial
                uniform self sampling_steps temperature true
                typical_mass typical_min_tokens z N i z_masked = Ok st ->
  sampling_step ln fl_exp softmax log_softmax _gamma score multinomial
                uniform self sampling_steps temperature false
                typical_mass typical_min_tokens z N i z_masked = Ok st.
Proof.
  unfold sampling_step.
  destruct (typical_filter _ _ _ _ _ _) as [a|e]; simpl; auto. discriminate.
Qed.

(** Whatever a run with [typical_filtering] returns, the run without it
    returns too, step by step: the filtered logits are never used. *)
Lemma sampling_loop_filter_unused z N temperature :
  forall n i z_masked sampled_z out,
    snd (sampling_loop ln fl_exp softmax log_softmax _gamma score
           multinomial uniform self sampling_steps temperature true
           typical_mass typical_min_tokens z N n i z_masked sampled_z)
    = Ok out ->
    sampling_loop ln fl_exp softmax log_softmax _gamma score
      multinomial uniform self sampling_steps temperature false
      typical_mass typical_min_tokens z N n i z_masked sampled_z
    = sampling_loop ln fl_exp softmax log_softmax _gamma score
        multinomial uniform self sampling_steps temperature true
        typical_mass typical_min_tokens z N n i z_masked sampled_z.
Proof.
  induction n as [|n IH]; intros i z_masked sampled_z out; simpl; auto.
  destruct (sampling_step _ _ _ _ _ _ _ _ _ _ _ true _ _ _ _ _ _)
    as [st|e] eqn:E; simpl; [|discriminate].
  apply sampling_step_filter_unused in E. rewrite E. intros H.
  rewrite (IH _ _ _ _ H). reflexivity.
Qed.

(** X7: whatever a run of [generate] with [typical_filtering] returns,
    the run without it returns too, with the same steps: the logits
    [typical_filter] returns are dropped, and softmax and sampling read
    the unfiltered ones. *)
Lemma generate_filter_unused start_tokens temperature tr out :
  run start_tokens temperature true typical_mass typical_min_tokens
    = (tr, Ok out) ->
  run start_tokens temperature false typical_mass typical_min_tokens
    = (tr, Ok out).
Proof.
  unfold run, generate. destruct temperature as [t| |]; auto.
  destruct (masked_fill _ _ _) as [z_masked|e]; auto.
  intros H. erewrite sampling_loop_filter_unused; [exact H|].
  rewrite H. reflexivity.
Qed.

(** C6: with caller-provided [start_tokens], the conditioning codebooks
    of the returned grid are those of [start_tokens], every step leaves
    them so, and the default mask is 0 on them and fills none of
    them. *)
Theorem generate_conditioning_invariant :
  forall start_tokens temperature typical_filtering tr out,
    Forall (fun row => n_cond <= length row) start_tokens ->
    run (Some start_tokens) temperature typical_filtering
        typical_mass typical_min_tokens = (tr, Ok out) ->
    map (firstn n_cond) out = map (firstn n_cond) start_tokens /\
    Forall (fun st => map (firstn n_cond) (st_z_masked st)
                      = map (firstn n_cond) start_tokens) tr /\
    (mask = MaskNone ->
     Forall (Forall (Forall (fun m => m = 0%Z)))
            (map (firstn n_cond) (default_mask n_cond start_tokens)) /\
     exists z_masked0,
       initial (Some start_tokens) = Ok z_masked0 /\
       map (firstn n_cond) z_masked0 = map (firstn n_cond) start_tokens).
Proof.
  intros start_tokens temperature tf tr out Hch H.
  destruct (generate_cases (Some start_tokens) temperature tf)
    as [(e & He)|(t & z_masked & _ & Hz & Hl)].
  { unfold run in *. rewrite He in H. discriminate. }
  unfold run in *. rewrite Hl in H.
  pose proof (loop_steps_from ln fl_exp softmax log_softmax _gamma score
                multinomial uniform self sampling_steps t
                tf typical_mass typical_min_tokens start_tokens
                (count_tokens (mask_token self) z_masked)
                (Z.to_nat sampling_steps) 0 z_masked None) as Hs.
  pose proof (loop_Ok ln fl_exp softmax log_softmax _gamma score
                multinomial uniform self sampling_steps t
                tf typical_mass typical_min_tokens start_tokens
                (count_tokens (mask_token self) z_masked)
                (Z.to_nat sampling_steps) 0 z_masked None out) as Ho.
  unfold loop in H. cbn [resolve_z] in H. rewrite H in Hs, Ho.
  cbn [fst snd] in Hs, Ho. destruct (Ho eq_refl) as [_ Hf]. clear Ho.
  split; [|split].
  - unfold finish in Hf.
    destruct (last_sampled None tr) as [sz|]; [|discriminate].
    inv_bind Hf.
    destruct (cat_conditioning_rows self start_tokens a out Hf Hch)
      as [H1 _].
    symmetry. apply (Forall2_map_eq2 _ _ _ _ H1).
  - eapply steps_from_conditioning; eauto.
  - intros Hm. split; [apply default_mask_conditioning|].
    exists z_masked. split; [exact Hz|].
    unfold initial in Hz. rewrite Hm in Hz. cbn [resolve_z resolve_mask] in Hz.
    eapply masked_fill_default_conditioning; eauto.
Qed.


End GenerateClaims.

(** ** The claims on the small model *)



Lemma generate_temperature_not_float_witness :
  Demo.generate 3 2 None MaskNone (PyInt 8) false (Fin (2 # 10)) 1
  = ([], Err AssertionError).
Proof.
  apply (generate_temperature_not_float
           Dyadic.ln Dyadic.exp Dyadic.softmax Dyadic.log_softmax
           Demo.gamma Demo.score Demo.multinomial Demo.uniform Demo.model
           3 2 MaskNone (Fin (2 # 10)) 1 None (PyInt 8) false).
  intros x H. discriminate H.
Defined.

Lemma generate_conditioning_invariant_witness :
  map (firstn 1) [[[1; 2; 3]; [0; 1; 2]]]%Z
  = map (firstn 1) [[[1; 2; 3]; [4; 2; 4]]]%Z /\
  Forall (fun st => map (firstn 1) (st_z_masked st)
                    = map (firstn 1) [[[1; 2; 3]; [4; 2; 4]]]%Z)
         (fst (Demo.generate 3 2 (Some [[[1; 2; 3]; [4; 2; 4]]]%Z) MaskNone
                             (PyFloat (Fin 8)) false (Fin (2 # 10)) 1)).
Proof.
  destruct (generate_conditioning_invariant
              Dyadic.ln Dyadic.exp Dyadic.softmax Dyadic.log_softmax
              Demo.gamma Demo.score Demo.multinomial Demo.uniform Demo.model
              3 2 MaskNone (Fin (2 # 10)) 1 [[[1; 2; 3]; [4; 2; 4]]]%Z
              (PyFloat (Fin 8)) false
              (fst (Demo.generate 3 2 (Some [[[1; 2; 3]; [4; 2; 4]]]%Z)
                                  MaskNone (PyFloat (Fin 8)) false
                                  (Fin (2 # 10)) 1))
              [[[1; 2; 3]; [0; 1; 2]]]%Z) as (H1 & H2 & _).
  - repeat constructor.
  - vm_compute. reflexivity.
  - split; [exact H1 | exact H2].
Defined.

Lemma Demo_multinomial_in_vocabulary (i b s : nat) (p : list fl) :
  Demo.multinomial i b s p <> mask_token Demo.model.
Proof.
  unfold Demo.multinomial, Demo.model. cbn [mask_token].
  pose proof (Nat.mod_upper_bound s 4). lia.
Qed.






(** C1 on the small model: [typical_filter] removes tokens 0, 2 and 3 at
    the one predicted position, yet the run with [typical_filtering] is
    the run without it, samples from the unfiltered distribution and
    returns token 0. *)
Lemma generate_typical_filtering_ignored :
  typical_filter Dyadic.exp Dyadic.softmax Dyadic.log_softmax
                 [[Demo.logits_row]] (Fin (2 # 10)) 1
  = Ok [[[NInf; Fin (-2); NInf; NInf]]] /\
  Demo.generate 1 1 None MaskNone (PyFloat (Fin 8)) true (Fin (2 # 10)) 1
  = Demo.generate 1 1 None MaskNone (PyFloat (Fin 8)) false (Fin (2 # 10)) 1 /\
  map st_probs
      (fst (Demo.generate 1 1 None MaskNone (PyFloat (Fin 8)) true
                          (Fin (2 # 10)) 1))
  = [[[[Fin (1 # 2); Fin (1 # 4); Fin (1 # 8); Fin (1 # 8)]]]] /\
  snd (Demo.generate 1 1 None MaskNone (PyFloat (Fin 8)) true
                     (Fin (2 # 10)) 1)
  = Ok [[[4]; [0]]]%Z.
Proof. repeat split; reflexivity. Qed.

(** ** Sorting with indices, gathering and scattering *)

Lemma map_snd_combine {A B : Type} (l1 : list A) (l2 : list B) :
  length l1 = length l2 -> map snd (combine l1 l2) = l2.
Proof.
  revert l2. induction l1 as [|x l1 IH]; intros [|y l2] H; simpl in *;
    try discriminate; auto.
  f_equal. apply IH. lia.
Qed.

Lemma combine_seq_nth {A : Type} (c : list A) :
  forall pre,
    Forall (fun p => nth_error (pre ++ c) (snd p) = Some (fst p))
           (combine c (seq (length pre) (length c))).
Proof.
  induction c as [|a c IH]; intros pre; simpl; constructor.
  - simpl. rewrite nth_error_app2 by lia. rewrite Nat.sub_diag. reflexivity.
  - specialize (IH (pre ++ [a])).
    rewrite length_app, Nat.add_1_r, <- app_assoc in IH. exact IH.
Qed.

Lemma StronglySorted_map {A B : Type} (f : A -> B) (R : B -> B -> Prop)
      (l : list A) :
  StronglySorted (fun a b => R (f a) (f b)) l -> StronglySorted R (map f l).
Proof.
  induction 1 as [|a l _ IH Ha]; simpl; constructor; auto.
  apply Forall_map. exact Ha.
Qed.

Lemma StronglySorted_nth {A : Type} (R : A -> A -> Prop) (l : list A) :
  StronglySorted R l ->
  forall j k a b, j < k -> nth_error l j = Some a -> nth_error l k = Some b ->
                  R a b.
Proof.
  induction 1 as [|x l _ IH Hx]; intros j k a b Hjk Hj Hk.
  - destruct j; discriminate.
  - destruct k as [|k]; [lia|]. simpl in Hk.
    rewrite Forall_forall in Hx. destruct j as [|j]; simpl in Hj.
    + injection Hj as <-. apply Hx. eapply nth_error_In; eauto.
    + eapply IH; [|eauto|eauto]. lia.
Qed.

Lemma sort_with_indices_perm (c : list fl) :
  Permutation (snd (sort_with_indices c)) (seq 0 (length c)).
Proof.
  unfold sort_with_indices. cbn [snd].
  rewrite (Permutation_map snd (isort_perm key_leb _)).
  rewrite map_snd_combine by (rewrite length_seq; reflexivity).
  reflexivity.
Qed.

Lemma sort_with_indices_values (c : list fl) :
  Forall2 (fun v i => nth_error c i = Some v)
          (fst (sort_with_indices c)) (snd (sort_with_indices c)).
Proof.
  unfold sort_with_indices. cbn [fst snd].
  assert (Forall (fun p => nth_error c (snd p) = Some (fst p))
                 (isort key_leb (combine c (seq 0 (length c))))) as H.
  { eapply Permutation_Forall; [symmetry; apply isort_perm|].
    apply (combine_seq_nth c []). }
  induction H; simpl; constructor; auto.
Qed.

Lemma sort_with_indices_sorted (c : list fl) :
  StronglySorted (fun a b => fl_sort_leb a b = true)
                 (fst (sort_with_indices c)).
Proof.
  unfold sort_with_indices. cbn [fst]. apply StronglySorted_map.
  apply (isort_sorted key_leb).
  - intros a b. apply fl_sort_leb_total.
  - intros a b d. apply fl_sort_leb_trans.
Qed.

Lemma sort_with_indices_length (c : list fl) :
  length (fst (sort_with_indices c)) = length c /\
  length (snd (sort_with_indices c)) = length c.
Proof.
  unfold sort_with_indices. cbn [fst snd].
  rewrite !length_map, isort_length, length_combine, length_seq, Nat.min_id.
  auto.
Qed.

Lemma gather_Ok {A : Type} (d : A) (x : list A) (idx : list nat) :
  Forall (fun i => i < length x) idx ->
  gather x idx = Ok (map (fun i => nth i x d) idx).
Proof.
  unfold gather. induction 1 as [|i idx Hi _ IH]; simpl; auto.
  rewrite IH. destruct (nth_error x i) as [v|] eqn:E.
  - simpl. rewrite (nth_error_nth _ _ _ E). reflexivity.
  - apply nth_error_None in E. lia.
Qed.

Lemma set_nth_length {A : Type} (i : nat) (v : A) (l : list A) :
  length (set_nth i v l) = length l.
Proof.
  revert i. induction l as [|x l IH]; intros [|i]; simpl; auto.
Qed.

Lemma nth_error_set_nth_eq {A : Type} (i : nat) (v : A) (l : list A) :
  i < length l -> nth_error (set_nth i v l) i = Some v.
Proof.
  revert i. induction l as [|x l IH]; intros [|i] H; simpl in *;
    try lia; auto. apply IH. lia.
Qed.

Lemma nth_error_set_nth_neq {A : Type} (i k : nat) (v : A) (l : list A) :
  i <> k -> nth_error (set_nth i v l) k = nth_error l k.
Proof.
  revert i k. induction l as [|x l IH]; intros [|i] [|k] H; simpl;
    try congruence; auto.
Qed.

Lemma scatter_not_in {A : Type} (idx : list nat) :
  forall (base src : list A) i,
    ~ In i idx -> nth_error (scatter base idx src) i = nth_error base i.
Proof.
  induction idx as [|i0 idx IH]; intros base [|v src] i H; simpl; auto.
  rewrite IH by (simpl in H; tauto).
  apply nth_error_set_nth_neq. simpl in H. tauto.
Qed.

Lemma scatter_length {A : Type} (idx : list nat) :
  forall base src : list A, length (scatter base idx src) = length base.
Proof.
  induction idx as [|i0 idx IH]; intros base [|v src]; simpl; auto.
  rewrite IH. apply set_nth_length.
Qed.

(** [scatter] along distinct in-range indices puts [src[j]] at
    [idx[j]]. *)
Lemma scatter_nth {A : Type} (idx : list nat) :
  forall (base src : list A) j i v,
    NoDup idx -> Forall (fun i => i < length base) idx ->
    nth_error idx j = Some i -> nth_error src j = Some v ->
    nth_error (scatter base idx src) i = Some v.
Proof.
  induction idx as [|i0 idx IH]; intros base src j i v Hnd Hr Hi Hv.
  - destruct j; discriminate.
  - inversion Hnd as [|? ? Hnot Hnd']; subst.
    inversion Hr as [|? ? Hi0 Hr']; subst.
    destruct src as [|v0 src]; [destruct j; discriminate|].
    destruct j as [|j]; simpl in Hi, Hv |- *.
    + injection Hi as <-. injection Hv as <-.
      rewrite scatter_not_in by exact Hnot.
      apply nth_error_set_nth_eq. exact Hi0.
    + eapply IH; eauto.
      eapply Forall_impl; [|exact Hr']. intros k Hk.
      rewrite set_nth_length. exact Hk.
Qed.

(** ** Running sums *)

Lemma Qsum_perm (l l' : list Q) : Permutation l l' -> (Qsum l == Qsum l')%Q.
Proof.
  unfold Qsum.
  induction 1 as [|x l l' _ IH|x y l|l l' l'' _ IH1 _ IH2]; simpl.
  - reflexivity.
  - rewrite IH. reflexivity.
  - ring.
  - rewrite IH1. exact IH2.
Qed.

Lemma Qsum_nonneg (l : list Q) :
  Forall (fun q => 0 <= q)%Q l -> (0 <= Qsum l)%Q.
Proof.
  unfold Qsum. induction 1 as [|x l Hx _ IH]; simpl; lra.
Qed.

Lemma Qsum_firstn_le (l : list Q) :
  Forall (fun q => 0 <= q)%Q l ->
  forall k, (Qsum (firstn k l) <= Qsum l)%Q.
Proof.
  induction 1 as [|x l Hx Hl IH]; intros [|k]; simpl.
  - lra.
  - lra.
  - pose proof (Qsum_nonneg l Hl). unfold Qsum in *. simpl. lra.
  - specialize (IH k). unfold Qsum in *. simpl. lra.
Qed.

Lemma fl_cumsum_from_Fin (acc : Q) (l : list Q) :
  fl_cumsum_from (Fin acc) (map Fin l) = map Fin (Qcumsum_from acc l).
Proof.
  revert acc. induction l as [|x l IH]; intros acc; simpl; auto.
  rewrite IH. reflexivity.
Qed.

Lemma fl_cumsum_Fin (l : list Q) :
  fl_cumsum (map Fin l) = map Fin (Qcumsum l).
Proof.
  destruct l as [|x l]; simpl; auto. rewrite fl_cumsum_from_Fin. reflexivity.
Qed.

Lemma Qcumsum_from_nth (l : list Q) :
  forall acc j v,
    nth_error (Qcumsum_from acc l) j = Some v ->
    (v == acc + Qsum (firstn (S j) l))%Q.
Proof.
  induction l as [|x l IH]; intros acc j v H.
  - destruct j; discriminate.
  - destruct j as [|j]; simpl in H.
    + injection H as <-. unfold Qsum. simpl. ring.
    + rewrite (IH _ _ _ H). unfold Qsum. simpl. ring.
Qed.

Lemma Qcumsum_nth (l : list Q) (j : nat) (v : Q) :
  nth_error (Qcumsum l) j = Some v -> (v == Qsum (firstn (S j) l))%Q.
Proof.
  destruct l as [|x l]; [destruct j; discriminate|].
  destruct j as [|j]; simpl; intros H.
  - injection H as <-. unfold Qsum. simpl. ring.
  - rewrite (Qcumsum_from_nth _ _ _ _ H). unfold Qsum. simpl. ring.
Qed.

Lemma Qcumsum_from_length (l : list Q) :
  forall acc, length (Qcumsum_from acc l) = length l.
Proof. induction l as [|x l IH]; intros acc; simpl; auto. Qed.

Lemma Qcumsum_length (l : list Q) : length (Qcumsum l) = length l.
Proof.
  destruct l as [|x l]; simpl; auto. rewrite Qcumsum_from_length. reflexivity.
Qed.

Lemma Qcumsum_from_sorted (l : list Q) :
  Forall (fun q => 0 <= q)%Q l ->
  forall acc,
    StronglySorted Qle (Qcumsum_from acc l) /\
    Forall (fun v => acc <= v)%Q (Qcumsum_from acc l).
Proof.
  induction 1 as [|x l Hx _ IH]; intros acc; simpl.
  - split; constructor.
  - destruct (IH (acc + x)%Q) as [H1 H2]. split.
    + constructor; auto.
    + constructor; [lra|]. eapply Forall_impl; [|exact H2].
      intros v Hv. simpl in Hv. lra.
Qed.

Lemma Qcumsum_sorted (l : list Q) :
  Forall (fun q => 0 <= q)%Q l -> StronglySorted Qle (Qcumsum l).
Proof.
  intros H. destruct l as [|x l]; simpl; [constructor|].
  inversion H as [|? ? Hx Hl]; subst.
  destruct (Qcumsum_from_sorted l Hl x) as [Hs Hb].
  constructor; auto.
Qed.

(** In an ascending row the entries below [m] are a prefix. *)
Lemma filter_below_prefix (m : Q) (l : list Q) :
  StronglySorted Qle l ->
  forall j v, nth_error l j = Some v ->
              (j < length (filter (fun q => Qltb q m) l) <-> (v < m)%Q).
Proof.
  induction 1 as [|a l Hs IH Ha]; intros j v Hj.
  - destruct j; discriminate.
  - simpl. destruct (Qltb a m) eqn:E.
    + qbool. destruct j as [|j]; simpl in Hj |- *.
      * injection Hj as <-. split; [auto | lia].
      * rewrite <- (IH _ _ Hj). lia.
    + qbool. rewrite filter_none.
      2:{ eapply Forall_impl; [|exact Ha]. intros q Hq. simpl in Hq.
          qbool. lra. }
      simpl. split; [lia|]. intros Hv. exfalso.
      destruct j as [|j]; simpl in Hj.
      * injection Hj as <-. lra.
      * rewrite Forall_forall in Ha.
        pose proof (Ha v (nth_error_In _ _ Hj)). lra.
Qed.

Lemma filter_map_Fin_length (m : Q) (l : list Q) :
  length (filter (fun v => fl_ltb v (Fin m)) (map Fin l))
  = length (filter (fun q => Qltb q m) l).
Proof.
  induction l as [|x l IH]; simpl; auto.
  destruct (Qltb x m); simpl; auto.
Qed.

(** ** Typical-mass filtering *)

Lemma Forall2_nth_error_r {A B : Type} (R : A -> B -> Prop) l1 l2 :
  Forall2 R l1 l2 ->
  forall i b, nth_error l2 i = Some b ->
              exists a, nth_error l1 i = Some a /\ R a b.
Proof.
  induction 1 as [|x y l1 l2 Hxy _ IH]; intros i b Hi.
  - destruct i; discriminate.
  - destruct i as [|i]; simpl in *.
    + injection Hi as <-. eauto.
    + eauto.
Qed.

Lemma In_firstn_nth {A : Type} (l : list A) :
  forall k x, In x (firstn k l) -> exists j, j < k /\ nth_error l j = Some x.
Proof.
  induction l as [|a l IH]; intros [|k] x H; simpl in H; try contradiction.
  destruct H as [<-|H].
  - exists 0. split; [lia | reflexivity].
  - destruct (IH _ _ H) as (j & Hj & Hn). exists (S j). split; [lia | exact Hn].
Qed.

Lemma nth_nonneg (ps : list Q) (i : nat) :
  Forall (fun p => 0 <= p)%Q ps -> (0 <= nth i ps 0)%Q.
Proof.
  intros H. destruct (nth_in_or_default i ps 0%Q) as [Hin|Heq];
    [|rewrite Heq; lra].
  rewrite Forall_forall in H. apply H, Hin.
Qed.

Lemma in_order_identity (ps : list Q) : in_order ps (seq 0 (length ps)) = ps.
Proof.
  unfold in_order. rewrite map_nth_firstn by lia. apply firstn_all.
Qed.

Section TypicalFilter.
Variable fl_exp : fl -> fl.
Variable softmax : list fl -> list fl.
Variable log_softmax : list fl -> list fl.

Let deviation := c_flat_shifted fl_exp log_softmax.
Let typical_order (x : list fl) := snd (sort_with_indices (deviation x)).

(** C8, as the code has it: with [typical_min_tokens = 1] the filter
    keeps every entry whose deviation is not above that of the boundary
    entry, the first entry of the typical order at which the running
    original mass reaches [typical_mass].  The kept set holds the minimal
    prefix of the typical order reaching that mass, and any later entry
    tied with the boundary, and its original probability mass is at least
    [typical_mass]. *)
Theorem typical_filter_retains_mass :
  forall (x : list fl) (typical_mass : Q) (ps : list Q),
    x <> [] ->
    length (log_softmax x) = length x ->
    softmax x = map Fin ps ->
    length ps = length x ->
    Forall (fun p => 0 <= p)%Q ps ->
    (forall x_gathered,
        gather x (typical_order x) = Ok x_gathered ->
        softmax x_gathered = map Fin (in_order ps (typical_order x))) ->
    (typical_mass <= Qsum ps)%Q ->
    exists indices_to_remove last_ind boundary,
      typical_indices_to_remove fl_exp softmax log_softmax
                                x (Fin typical_mass) 1
        = Ok indices_to_remove /\
      typical_filter_row fl_exp softmax log_softmax x (Fin typical_mass) 1
        = where_scalar_l indices_to_remove NInf x /\
      length indices_to_remove = length x /\
      nth_error (typical_order x) last_ind = Some boundary /\
      (typical_mass
       <= Qsum (firstn (S last_ind) (in_order ps (typical_order x))))%Q /\
      (forall j, j < last_ind ->
                 (Qsum (firstn (S j) (in_order ps (typical_order x)))
                  < typical_mass)%Q) /\
      (forall v, v < length x ->
                 nth_error indices_to_remove v
                 = Some (fl_gtb (nth v (deviation x) NaN)
                                (nth boundary (deviation x) NaN))) /\
      (forall j i, j <= last_ind ->
                   nth_error (typical_order x) j = Some i ->
                   nth_error indices_to_remove i = Some false) /\
      (typical_mass <= retained_mass ps indices_to_remove)%Q.
Proof.
  intros x m ps Hne Hlen Hps Hpl Hpos Hcompat Hmass.
  set (c := deviation x). set (idx := typical_order x).
  set (cs := fst (sort_with_indices c)).
  set (n := length x).
  assert (length c = n) as Hc.
  { unfold c, deviation, c_flat_shifted. rewrite length_map. exact Hlen. }
  assert (0 < n) as Hn by (unfold n; destruct x; [congruence | simpl; lia]).
  destruct (sort_with_indices_length c) as [Hcsl Hidxl].
  fold cs in Hcsl. fold deviation in Hidxl.
  change (snd (sort_with_indices c)) with idx in Hidxl.
  rewrite Hc in Hcsl, Hidxl.
  pose proof (sort_with_indices_perm c) as Hperm.
  change (snd (sort_with_indices c)) with idx in Hperm. rewrite Hc in Hperm.
  pose proof (sort_with_indices_values c) as Hval.
  change (snd (sort_with_indices c)) with idx in Hval. fold cs in Hval.
  pose proof (sort_with_indices_sorted c) as Hsorted. fold cs in Hsorted.
  assert (Forall (fun i => i < n) idx) as Hrange.
  { apply Forall_forall. intros i Hi.
    apply (Permutation_in _ Hperm) in Hi. apply in_seq in Hi. lia. }
  assert (NoDup idx) as Hnd.
  { eapply Permutation_NoDup; [symmetry; exact Hperm | apply seq_NoDup]. }
  set (qs := in_order ps idx).
  assert (Forall (fun q => 0 <= q)%Q qs) as Hqpos.
  { apply Forall_forall. intros q Hq. apply in_map_iff in Hq.
    destruct Hq as (i & <- & _). apply nth_nonneg, Hpos. }
  assert (length qs = n) as Hql by (unfold qs, in_order; rewrite length_map; exact Hidxl).
  assert (Qsum qs == Qsum ps)%Q as Hsum.
  { assert (in_order ps (seq 0 n) = ps) as Hid
        by (unfold n; rewrite <- Hpl; apply in_order_identity).
    transitivity (Qsum (in_order ps (seq 0 n)));
      [|rewrite Hid; reflexivity].
    apply Qsum_perm. unfold qs, in_order. apply Permutation_map. exact Hperm. }
  (* the running mass *)
  assert (x_flat_cumsum softmax x idx = Ok (map Fin (Qcumsum qs))) as Hcum.
  { unfold x_flat_cumsum. rewrite (gather_Ok NaN) by exact Hrange.
    cbn [bind]. rewrite Hcompat by (apply (gather_Ok NaN); exact Hrange).
    fold idx qs. rewrite fl_cumsum_Fin. reflexivity. }
  set (cum := Qcumsum qs).
  set (last_ind := length (filter (fun q => Qltb q m) cum)).
  pose proof (Qcumsum_sorted qs Hqpos) as Hcs. fold cum in Hcs.
  assert (length cum = n) as Hcl by (unfold cum; rewrite Qcumsum_length; exact Hql).
  assert (last_ind < n) as Hlast.
  { destruct (Nat.lt_ge_cases last_ind n) as [H|H]; [exact H|exfalso].
    destruct (nth_error cum (n - 1)) as [v|] eqn:E.
    2:{ apply nth_error_None in E. lia. }
    assert (v < m)%Q as Hv.
    { apply (filter_below_prefix m cum Hcs (n - 1) v E). fold last_ind. lia. }
    apply Qcumsum_nth in E. replace (S (n - 1)) with n in E by lia.
    rewrite firstn_all2 in E by lia. lra. }
  destruct (nth_error cs last_ind) as [threshold|] eqn:Ethr.
  2:{ apply nth_error_None in Ethr. lia. }
  destruct (nth_error idx last_ind) as [boundary|] eqn:Eb.
  2:{ apply nth_error_None in Eb. lia. }
  destruct (Forall2_nth_error_r _ _ _ Hval _ _ Eb) as (t' & Ht' & Hcb).
  rewrite Ethr in Ht'. injection Ht' as <-.
  set (rs := map (fun v => fl_gtb v threshold) cs).
  set (rem := scatter rs idx rs).
  assert (typical_indices_to_remove fl_exp softmax log_softmax x (Fin m) 1
          = Ok rem) as Hrun.
  { unfold typical_indices_to_remove.
    change (snd (sort_with_indices (c_flat_shifted fl_exp log_softmax x)))
      with idx.
    change (fst (sort_with_indices (c_flat_shifted fl_exp log_softmax x)))
      with cs.
    rewrite Hcum. cbn [bind]. rewrite filter_map_Fin_length.
    fold cum last_ind.
    assert (take_along cs (Z.of_nat last_ind) = Ok threshold) as Ht.
    { apply take_along_Ok_iff. rewrite Nat2Z.id. split; [lia | exact Ethr]. }
    rewrite Ht. reflexivity. }
  assert (length rs = n) as Hrl by (unfold rs; rewrite length_map; exact Hcsl).
  assert (forall j i, nth_error idx j = Some i ->
                      exists cj, nth_error cs j = Some cj /\
                                 nth_error c i = Some cj /\
                                 nth_error rem i = Some (fl_gtb cj threshold))
    as Hrem.
  { intros j i Hj.
    destruct (Forall2_nth_error_r _ _ _ Hval _ _ Hj) as (cj & Hcj & Hci).
    exists cj. repeat split; auto.
    unfold rem. eapply scatter_nth; eauto.
    - rewrite Hrl. exact Hrange.
    - unfold rs. rewrite nth_error_map, Hcj. reflexivity. }
  assert (forall j i, j <= last_ind -> nth_error idx j = Some i ->
                      nth_error rem i = Some false) as Hprefix.
  { intros j i Hj Hi. destruct (Hrem j i Hi) as (cj & Hcj & _ & Hr).
    rewrite Hr. f_equal.
    destruct (Nat.eq_dec j last_ind) as [->|Hneq].
    - rewrite Ethr in Hcj. injection Hcj as <-. apply fl_ltb_irrefl.
    - apply fl_sort_leb_not_gtb.
      apply (StronglySorted_nth _ _ Hsorted j last_ind); auto. lia. }
  exists rem, last_ind, boundary.
  split; [exact Hrun|].
  split; [unfold typical_filter_row; rewrite Hrun; reflexivity|].
  split; [unfold rem; rewrite scatter_length; exact Hrl|].
  split; [exact Eb|].
  assert (m <= Qsum (firstn (S last_ind) qs))%Q as Hreach.
  { destruct (nth_error cum last_ind) as [v|] eqn:E.
    2:{ apply nth_error_None in E. lia. }
    pose proof (filter_below_prefix m cum Hcs last_ind v E) as Hv.
    fold last_ind in Hv. apply Qcumsum_nth in E.
    destruct (Qlt_le_dec v m) as [Hlt|Hle]; [apply Hv in Hlt; lia | lra]. }
  split; [exact Hreach|].
  split.
  { intros j Hj. destruct (nth_error cum j) as [v|] eqn:E.
    2:{ apply nth_error_None in E. lia. }
    pose proof (filter_below_prefix m cum Hcs j v E) as Hv.
    fold last_ind in Hv. apply Qcumsum_nth in E.
    apply Hv in Hj. lra. }
  split.
  { intros v Hv.
    assert (In v idx) as Hin.
    { apply (Permutation_in _ (Permutation_sym Hperm)). apply in_seq.
      fold n in Hv. lia. }
    destruct (In_nth_error _ _ Hin) as [j Hj].
    destruct (Hrem j v Hj) as (cj & _ & Hcv & Hr).
    rewrite Hr. fold c. rewrite (nth_error_nth _ _ _ Hcv).
    rewrite (nth_error_nth _ _ _ Hcb). reflexivity. }
  split; [exact Hprefix|].
  (* the retained mass, summed in the typical order *)
  unfold retained_mass. rewrite Hpl. fold n.
  set (g := fun v => if nth v rem false then 0%Q else nth v ps 0%Q).
  assert (Qsum (map g (seq 0 n)) == Qsum (map g idx))%Q as Hg.
  { apply Qsum_perm, Permutation_map, Permutation_sym, Hperm. }
  rewrite Hg.
  assert (Forall (fun q => 0 <= q)%Q (map g idx)) as Hgpos.
  { apply Forall_forall. intros q Hq. apply in_map_iff in Hq.
    destruct Hq as (i & <- & _). unfold g.
    destruct (nth i rem false); [lra | apply nth_nonneg, Hpos]. }
  pose proof (Qsum_firstn_le _ Hgpos (S last_ind)) as Hle.
  assert (firstn (S last_ind) (map g idx) = firstn (S last_ind) qs) as Heq.
  { unfold qs, in_order. rewrite !firstn_map. apply map_ext_in.
    intros i Hi. apply In_firstn_nth in Hi. destruct Hi as (j & Hj & Hi).
    unfold g. rewrite (nth_error_nth _ _ _ (Hprefix j i ltac:(lia) Hi)).
    reflexivity. }
  rewrite Heq in Hle. lra.
Qed.
End TypicalFilter.

Lemma typical_filter_retains_mass_witness :
  exists indices_to_remove,
    typical_indices_to_remove Dyadic.exp Dyadic.softmax Dyadic.log_softmax
                              Demo.logits_row (Fin (8 # 10)) 1
      = Ok indices_to_remove /\
    ((8 # 10) <= retained_mass [1 # 2; 1 # 4; 1 # 8; 1 # 8] indices_to_remove)%Q.
Proof.
  destruct (typical_filter_retains_mass
              Dyadic.exp Dyadic.softmax Dyadic.log_softmax
              Demo.logits_row (8 # 10) [1 # 2; 1 # 4; 1 # 8; 1 # 8])
    as (rem & last_ind & boundary & H1 & _ & _ & _ & _ & _ & _ & _ & H2).
  - discriminate.
  - reflexivity.
  - reflexivity.
  - reflexivity.
  - repeat constructor; unfold Qle; simpl; lia.
  - intros x_gathered H. vm_compute in H. injection H as <-. reflexivity.
  - unfold Qsum, Qle. simpl. lia.
  - exists rem. split; [exact H1 | exact H2].
Defined.

(** C8, as the specification words it, fails on ties: on two equal
    logits both deviations are 0, the running mass reaches 1/2 at the
    first entry, and the filter keeps both entries where the minimal
    prefix is the first alone. *)
Lemma typical_filter_retains_mass_counterexample :
  typical_indices_to_remove Dyadic.exp Dyadic.softmax Dyadic.log_softmax
                            [Fin 0; Fin 0] (Fin (1 # 2)) 1
  = Ok [false; false] /\
  spec_indices_to_remove Dyadic.exp Dyadic.softmax Dyadic.log_softmax
                         [Fin 0; Fin 0] (Fin (1 # 2))
  = Ok [false; true].
Proof. split; reflexivity. Qed.

(** ** Runs that return *)

Lemma zipM_take_along_ok (F : nat -> list fl -> Z) (rows : list (list fl)) :
  (forall s p, In p rows -> (0 <= F s p < Z.of_nat (length p))%Z) ->
  forall s0,
  exists sel,
    zipM (fun p s => take_along p s) rows
         (map (fun q => F (fst q) (snd q))
              (combine (seq s0 (length rows)) rows)) = Ok sel /\
    length sel = length rows.
Proof.
  induction rows as [|p rows IH]; intros HF s0; cbn [length seq combine map zipM].
  - exists []. auto.
  - destruct (take_along_in_range p (F s0 p)) as (x & _ & Hx);
      [apply HF; simpl; auto|].
    destruct (IH (fun s q Hq => HF s q (or_intror Hq)) (S s0))
      as (sel & Hsel & Hlen).
    cbn [fst snd]. rewrite Hx, Hsel. cbn [bind].
    exists (x :: sel). simpl. auto.
Qed.

Lemma where_ok {A : Type} (c : list bool) :
  forall a b : list A,
    length c = length a -> length a = length b ->
    exists r, where_ c a b = Ok r /\ length r = length a.
Proof.
  induction c as [|x c IH]; intros [|y a] [|z b] H1 H2; simpl in *;
    try discriminate.
  - exists []. auto.
  - destruct (IH a b) as (r & Hr & Hl); [lia | lia |].
    rewrite Hr. cbn [bind]. eexists. split; [reflexivity|]. simpl. lia.
Qed.

Lemma zip_with_ok {A B C : Type} (f : A -> B -> C) (l1 : list A) :
  forall l2 : list B,
    length l1 = length l2 ->
    exists r, zip_with f l1 l2 = Ok r /\ length r = length l1.
Proof.
  unfold zip_with.
  induction l1 as [|x l1 IH]; intros [|y l2] H; simpl in *; try discriminate.
  - exists []. auto.
  - destruct (IH l2) as (r & Hr & Hl); [lia|].
    rewrite Hr. cbn [bind]. eexists. split; [reflexivity|]. simpl. lia.
Qed.

Lemma codebook_unflatten_ok {A : Type} (d : A) (f : list A) (c T : nat) :
  0 < c -> length f = T * c ->
  exists g, codebook_unflatten d f (Z.of_nat c) = Ok g /\
            length g = c /\ Forall (has_length T) g.
Proof.
  intros Hc Hlen. unfold codebook_unflatten.
  destruct (Z.of_nat c <=? 0)%Z eqn:E; [apply Z.leb_le in E; lia|].
  rewrite Nat2Z.id, Hlen, Nat.Div0.mod_mul, Nat.div_mul by lia.
  cbn [Nat.eqb]. eexists. split; [reflexivity|].
  split; [rewrite length_map, length_seq; reflexivity|].
  apply Forall_forall. intros row Hrow. apply in_map_iff in Hrow.
  destruct Hrow as (k & <- & _). unfold has_length.
  rewrite length_map, length_seq. reflexivity.
Qed.

Lemma flat_map_length_const {A B : Type} (f : A -> list B) (k : nat) (l : list A) :
  (forall x, length (f x) = k) -> length (flat_map f l) = length l * k.
Proof.
  intros H. induction l as [|x l IH]; simpl; auto.
  rewrite length_app, H, IH. reflexivity.
Qed.

Lemma codebook_flatten_length {A : Type} (d : A) (T : nat) (chans : list (list A)) :
  Forall (has_length T) chans -> chans <> [] ->
  length (codebook_flatten d chans) = T * length chans.
Proof.
  intros H Hne. unfold codebook_flatten.
  rewrite (flat_map_length_const _ (length chans))
    by (intros t; apply length_map).
  rewrite length_seq. destruct chans as [|ch chans]; [congruence|].
  inversion H as [|? ? Hch _]; subst. unfold has_length in Hch.
  simpl hd. rewrite Hch. reflexivity.
Qed.

Lemma mask_by_random_topk_row_ok ln k probs temperature u :
  (0 <= k < Z.of_nat (length probs))%Z ->
  exists m, mask_by_random_topk_row ln k probs temperature u = Ok m /\
            length m = length probs.
Proof.
  intros Hk. unfold mask_by_random_topk_row.
  destruct (take_along_in_range
              (sort_values (perturbed_confidence ln probs temperature u)) k)
    as (c & _ & Hc).
  { rewrite sort_values_length, perturbed_confidence_length. exact Hk. }
  rewrite Hc. cbn [bind]. eexists. split; [reflexivity|].
  rewrite length_map. apply perturbed_confidence_length.
Qed.

Lemma count_true_le_length (l : list bool) : count_true l <= length l.
Proof. unfold count_true. apply filter_length_le. Qed.

Lemma cat_conditioning_ok (self : VampNet) (T : nat) (zrow g : list (list Z)) :
  n_conditioning_codebooks self < n_codebooks self ->
  length zrow = n_codebooks self -> Forall (has_length T) zrow ->
  length g = n_codebooks self - n_conditioning_codebooks self ->
  Forall (has_length T) g ->
  cat_conditioning self [zrow] [g]
  = Ok [firstn (n_conditioning_codebooks self) zrow ++ g] /\
  has_shape 1 (n_codebooks self) T
            [firstn (n_conditioning_codebooks self) zrow ++ g].
Proof.
  intros Hc Hzl Hzt Hgl Hgt. split.
  - unfold cat_conditioning, time_axis. cbn [hd].
    destruct zrow as [|zc zrow]; [simpl in Hzl; lia|].
    destruct g as [|gc g]; [simpl in Hgl; lia|].
    apply Forall_inv in Hzt, Hgt. unfold has_length in Hzt, Hgt.
    cbn [hd]. rewrite Hzt, Hgt, Nat.eqb_refl. reflexivity.
  - split; [reflexivity|]. constructor; [|constructor]. split.
    + rewrite length_app, length_firstn, Hgl, Hzl. lia.
    + apply Forall_app. split; [|exact Hgt].
      apply Forall_forall. intros ch Hch.
      apply (proj1 (Forall_forall _ _) Hzt).
      rewrite <- (firstn_skipn (n_conditioning_codebooks self) zrow).
      apply in_or_app. left. exact Hch.
Qed.

Lemma masked_fill_row_ok (g : nat -> Z) (v : Z) (T : nat)
      (zrow : list (list Z)) :
  Forall (has_length T) zrow ->
  forall s0,
  exists r,
    zipM (fun zchan mchan =>
            p3 <- broadcast zchan mchan ;;
            zip_with (fun x (m : Z) => if (m =? 0)%Z then x else v)
                     (fst p3) (snd p3))
         zrow
         (map (fun p => map (fun _ : Z => g (fst p)) (snd p))
              (combine (seq s0 (length zrow)) zrow)) = Ok r /\
    length r = length zrow /\ Forall (has_length T) r.
Proof.
  induction zrow as [|ch zrow IH]; intros Hz s0;
    cbn [length seq combine map zipM fst snd].
  - exists []. auto.
  - inversion Hz as [|? ? Hch Hrest]; subst.
    rewrite broadcast_same by (rewrite length_map; reflexivity).
    cbn [bind fst snd].
    destruct (zip_with_ok (fun x (m : Z) => if (m =? 0)%Z then x else v)
                          ch (map (fun _ : Z => g s0) ch))
      as (c & Hc & Hcl); [rewrite length_map; reflexivity|].
    rewrite Hc. cbn [bind].
    destruct (IH Hrest (S s0)) as (r & Hr & Hrl & Hrt).
    rewrite Hr. cbn [bind]. exists (c :: r).
    split; [reflexivity|]. split; [simpl; lia|].
    constructor; [|exact Hrt]. unfold has_length in *. lia.
Qed.

Lemma masked_fill_default_ok (n : nat) (v : Z) (C T : nat) (z : grid) :
  has_shape 1 C T z ->
  exists z_masked,
    masked_fill z (default_mask n z) v = Ok z_masked /\
    has_shape 1 C T z_masked.
Proof.
  intros [Hzl Hz]. destruct z as [|zrow [|? ?]]; try discriminate.
  apply Forall_inv in Hz. destruct Hz as [Hzc Hzt].
  unfold masked_fill, default_mask.
  rewrite broadcast_same by reflexivity.
  cbn [bind fst snd map zipM]. unfold mapi.
  rewrite broadcast_same
    by (rewrite length_map, length_combine, length_seq, Nat.min_id;
        reflexivity).
  cbn [bind fst snd].
  destruct (masked_fill_row_ok (fun c => if c <? n then 0%Z else 1%Z) v T
                               zrow Hzt 0) as (r & Hr & Hrl & Hrt).
  rewrite Hr. cbn [bind]. eexists. split; [reflexivity|].
  split; [reflexivity|]. constructor; [|constructor].
  split; [lia | exact Hrt].
Qed.

Section Returns.
Variable ln : Q -> Q.
Variable fl_exp : fl -> fl.
Variable softmax : list fl -> list fl.
Variable log_softmax : list fl -> list fl.
Variable _gamma : Q -> Q.
Variable score : grid -> list (list (list fl)).
Variable multinomial : nat -> nat -> nat -> list fl -> Z.
Variable uniform : nat -> nat -> nat -> Q.
Variable self : VampNet.
Variable sampling_steps : Z.
Variable temperature : fl.
Variable typical_mass : fl.
Variable typical_min_tokens : Z.
Variable T : nat.

Let C := n_codebooks self.
Let n_cond := n_conditioning_codebooks self.
Let n_infer := C - n_cond.

Hypothesis conditioning_proper : n_cond < C.
Hypothesis score_shape :
  forall z_masked, has_shape 1 C T z_masked ->
    exists rows, score z_masked = [rows] /\ length rows = T * n_infer.
Hypothesis draw_in_range :
  forall z_masked i s p, In p (concat (score z_masked)) ->
    (0 <= multinomial i 0 s (softmax p) < Z.of_nat (length (softmax p)))%Z.
Hypothesis gamma_1 : (_gamma 1 == 0)%Q.

(** One iteration succeeds and keeps the shape of the grid. *)
Lemma sampling_step_returns (z : grid) (N i : nat) (z_masked : grid) :
  has_shape 1 C T z -> has_shape 1 C T z_masked ->
  ((Z.of_nat i = sampling_steps - 1)%Z /\ 1 <= T * n_infer) \/
  2 <= T * n_infer ->
  exists st,
    sampling_step ln fl_exp softmax log_softmax _gamma score multinomial
                  uniform self sampling_steps temperature false typical_mass
                  typical_min_tokens z N i z_masked = Ok st /\
    has_shape 1 C T (st_z_masked st) /\
    exists s, st_sampled_z st = [s] /\ length s = T * n_infer.
Proof.
  intros Hz Hzm Hk.
  destruct (score_shape z_masked Hzm) as (rows & Hscore & Hrows).
  assert (forall s p, In p (map softmax rows) ->
            (0 <= multinomial i 0 s p < Z.of_nat (length p))%Z) as Hdraw.
  { intros s p Hp. apply in_map_iff in Hp. destruct Hp as (q & <- & Hq).
    apply (draw_in_range z_masked). rewrite Hscore. simpl.
    rewrite app_nil_r. exact Hq. }
  destruct Hz as [Hzl Hz], Hzm as [Hzml Hzm].
  destruct z as [|zrow [|? ?]]; try discriminate.
  destruct z_masked as [|mrow [|? ?]]; try discriminate.
  apply Forall_inv in Hz, Hzm.
  destruct Hz as [Hzc Hzt], Hzm as [Hmc Hmt].
  unfold sampling_step. rewrite Hscore.
  cbn [bind mapi map combine seq length fst snd zipM].
  destruct (zipM_take_along_ok (multinomial i 0) (map softmax rows) Hdraw 0)
    as (sel & Hsel & Hsell).
  rewrite Hsel.
  cbn [bind zipM3 zipM].
  set (fm := codebook_flatten 0%Z (skipn (n_conditioning_codebooks self) mrow)).
  set (mk := map (fun x : Z => (x =? mask_token self)%Z) fm).
  set (draws := map _ (combine (seq 0 (length (map softmax rows))) _)).
  set (k := if negb (Z.of_nat i =? sampling_steps - 1)%Z then _ else _).
  assert (n_infer_pos : 0 < n_infer) by (unfold n_infer; lia).
  assert (Hfm : length fm = T * n_infer).
  { unfold fm. rewrite (codebook_flatten_length 0%Z T).
    - rewrite length_skipn. fold n_cond. unfold n_infer. rewrite Hmc.
      reflexivity.
    - apply Forall_forall. intros ch Hch.
      apply (proj1 (Forall_forall _ _) Hmt).
      rewrite <- (firstn_skipn (n_conditioning_codebooks self) mrow).
      apply in_or_app. right. exact Hch.
    - intros E. apply (f_equal (@length _)) in E.
      rewrite length_skipn in E. fold n_cond in E. simpl in E. lia. }
  assert (Hmk : length mk = T * n_infer)
    by (unfold mk; rewrite length_map; exact Hfm).
  assert (Hdraws : length draws = T * n_infer).
  { unfold draws. rewrite length_map, length_combine, length_seq,
      Nat.min_id, length_map. exact Hrows. }
  rewrite length_map, Hrows in Hsell.
  destruct (where_ok mk draws fm) as (sampled & Hsampled & Hsampledl);
    [lia | lia |].
  rewrite Hsampled. cbn [bind].
  unfold where_scalar_r.
  destruct (zip_with_ok (fun (c : bool) (x : fl) => if c then x else PInf)
                        mk sel) as (selp & Hselp & Hselpl); [lia|].
  rewrite Hselp. cbn [bind length Nat.eqb orb].
  unfold mask_by_random_topk. cbn [rows_from].
  assert (Hkr : (0 <= k < Z.of_nat (length selp))%Z).
  { rewrite Hselpl, Hmk. unfold k.
    destruct Hk as [[Hi Hone]|Htwo].
    - apply Z.eqb_eq in Hi. rewrite Hi. cbn [negb].
      apply Z.eqb_eq in Hi. rewrite schedule_ratio_last by exact Hi.
      rewrite (Qfloor_comp _ 0) by (rewrite gamma_1; ring).
      change (Qfloor 0) with 0%Z. lia.
    - destruct (negb (Z.of_nat i =? sampling_steps - 1)%Z) eqn:E.
      + pose proof (count_true_le_length mk). lia.
      + apply negb_false_iff, Z.eqb_eq in E.
        rewrite schedule_ratio_last by exact E.
        rewrite (Qfloor_comp _ 0) by (rewrite gamma_1; ring).
        change (Qfloor 0) with 0%Z. lia. }
  destruct (mask_by_random_topk_row_ok ln k selp
              (fl_mul temperature (Fin (1 - schedule_ratio i sampling_steps)))
              (uniform i 0) Hkr) as (nm & Hnm & Hnml).
  rewrite Hnm. cbn [bind].
  unfold where_scalar_l.
  destruct (zip_with_ok (fun (c : bool) (y : Z) =>
                           if c then mask_token self else y) nm sampled)
    as (zf & Hzf & Hzfl); [lia|].
  cbn [zipM]. rewrite Hzf. cbn [bind mapM].
  replace (Z.of_nat (n_codebooks self) -
           Z.of_nat (n_conditioning_codebooks self))%Z
    with (Z.of_nat n_infer) by (unfold n_infer, C, n_cond; lia).
  destruct (codebook_unflatten_ok 0%Z zf n_infer T n_infer_pos)
    as (g & Hg & Hgl & Hgt); [lia|].
  destruct (codebook_unflatten_ok false nm n_infer T n_infer_pos)
    as (g' & Hg' & _); [lia|].
  rewrite Hg, Hg'. cbn [bind].
  destruct (cat_conditioning_ok self T zrow g conditioning_proper Hzc Hzt
              Hgl Hgt) as [Hcat Hshape].
  rewrite Hcat. cbn [bind].
  eexists. split; [reflexivity|]. cbn [st_z_masked st_sampled_z].
  split; [exact Hshape|].
  exists sampled. split; [reflexivity | lia].
Qed.

Lemma finish_returns (z : grid) (s : list Z) :
  has_shape 1 C T z -> length s = T * n_infer ->
  exists out, finish self z (Some [s]) = Ok out /\ has_shape 1 C T out.
Proof.
  intros [Hzl Hz] Hs.
  destruct z as [|zrow [|? ?]]; try discriminate.
  apply Forall_inv in Hz. destruct Hz as [Hzc Hzt].
  assert (n_infer_pos : 0 < n_infer) by (unfold n_infer; lia).
  unfold finish. cbn [mapM].
  replace (Z.of_nat (n_codebooks self) -
           Z.of_nat (n_conditioning_codebooks self))%Z
    with (Z.of_nat n_infer) by (unfold n_infer, C, n_cond; lia).
  destruct (codebook_unflatten_ok 0%Z s n_infer T n_infer_pos Hs)
    as (g & Hg & Hgl & Hgt).
  rewrite Hg. cbn [bind].
  destruct (cat_conditioning_ok self T zrow g conditioning_proper Hzc Hzt
              Hgl Hgt) as [Hcat Hshape].
  eexists. split; [exact Hcat | exact Hshape].
Qed.

Lemma sampling_loop_returns (z : grid) (N : nat) :
  has_shape 1 C T z ->
  1 <= T * n_infer ->
  (sampling_steps = 1%Z \/ 2 <= T * n_infer) ->
  forall (n i : nat) (z_masked : grid) (sampled_z : option (list (list Z))),
    (Z.of_nat (i + n) = sampling_steps)%Z ->
    has_shape 1 C T z_masked ->
    (n = 0 -> exists s, sampled_z = Some [s] /\ length s = T * n_infer) ->
    exists out,
      snd (sampling_loop ln fl_exp softmax log_softmax _gamma score
                         multinomial uniform self sampling_steps temperature
                         false typical_mass typical_min_tokens z N
                         n i z_masked sampled_z) = Ok out /\
      has_shape 1 C T out.
Proof.
  intros Hz Hone Hsize. induction n as [|n IH]; intros i z_masked sampled_z Hi Hzm Hs.
  - destruct (Hs eq_refl) as (s & -> & Hl). cbn [sampling_loop snd].
    apply finish_returns; assumption.
  - cbn [sampling_loop].
    destruct (sampling_step_returns z N i z_masked Hz Hzm)
      as (st & Hst & Hshape & s & Hsz & Hsl).
    { destruct Hsize as [Hsteps|Htwo]; [left | right; exact Htwo].
      split; [lia | exact Hone]. }
    rewrite Hst. cbn [snd].
    apply IH; [lia | exact Hshape |].
    intros _. exists s. split; [congruence | exact Hsl].
Qed.

(** X4: a run on one batch row returns: with the default mask, no typical
    filtering, at least one step, a scoring network that gives one
    distribution per predicted position and a sampler that draws inside
    the vocabulary, [generate] returns a grid of the shape of its input.
    More than one step needs at least two predicted positions, since every
    step but the last remasks at rank 1 or above. *)
Theorem generate_returns (start_tokens : option grid) :
  (1 <= sampling_steps)%Z ->
  1 <= T * n_infer ->
  (sampling_steps = 1%Z \/ 2 <= T * n_infer) ->
  match start_tokens with
  | Some z => has_shape 1 C T z
  | None => True
  end ->
  exists out,
    snd (generate ln fl_exp softmax log_softmax _gamma score multinomial
                  uniform self T sampling_steps start_tokens MaskNone
                  (PyFloat temperature) false typical_mass
                  typical_min_tokens) = Ok out /\
    has_shape 1 C T out.
Proof.
  intros Hsteps Hone Hsize Hstart.
  assert (has_shape 1 C T (resolve_z self T start_tokens)) as Hz.
  { destruct start_tokens as [z|]; [exact Hstart|]. unfold resolve_z.
    split; [reflexivity|]. constructor; [|constructor].
    split; [apply repeat_length|].
    apply Forall_forall. intros ch Hch. apply repeat_spec in Hch. subst ch.
    apply repeat_length. }
  unfold generate. cbn [resolve_mask].
  destruct (masked_fill_default_ok (n_conditioning_codebooks self)
              (mask_token self) C T _ Hz) as (z_masked & Hfill & Hzm).
  rewrite Hfill.
  apply sampling_loop_returns; try assumption.
  - lia.
  - intros E. lia.
Qed.

End Returns.

(** The small model meets the conditions of [generate_returns]: a run of
    two steps over two time steps from the all-mask grid returns a grid
    of shape (1, 2, 2). *)
Lemma generate_returns_witness :
  exists out,
    snd (Demo.generate 2 2%Z None MaskNone (PyFloat (Fin 1)) false
                       (Fin (1 # 5)) 1%Z) = Ok out /\
    has_shape 1 2 2 out.
Proof.
  apply (generate_returns Dyadic.ln Dyadic.exp Dyadic.softmax
           Dyadic.log_softmax Demo.gamma Demo.score Demo.multinomial
           Demo.uniform Demo.model 2%Z (Fin 1) (Fin (1 # 5)) 1%Z 2).
  - simpl. lia.
  - intros z_masked [Hl Hz].
    destruct z_masked as [|row [|? ?]]; try discriminate.
    apply Forall_inv in Hz. destruct Hz as [Hc Ht].
    eexists. split; [reflexivity|].
    rewrite length_map, (codebook_flatten_length 0%Z 2).
    + rewrite length_skipn, Hc. reflexivity.
    + apply Forall_forall. intros ch Hch.
      apply (proj1 (Forall_forall _ _) Ht).
      rewrite <- (firstn_skipn 1 row). apply in_or_app. right. exact Hch.
    + intros E. apply (f_equal (@length _)) in E.
      rewrite length_skipn, Hc in E. discriminate.
  - intros z_masked i s p Hp.
    assert (p = Demo.logits_row) as ->.
    { apply in_concat in Hp. destruct Hp as (rows & Hrows & Hp).
      unfold Demo.score in Hrows. apply in_map_iff in Hrows.
      destruct Hrows as (row & <- & _). apply in_map_iff in Hp.
      destruct Hp as (x & <- & _). reflexivity. }
    unfold Demo.multinomial.
    change (length (Dyadic.softmax Demo.logits_row)) with 4.
    pose proof (Nat.mod_upper_bound s 4). lia.
  - reflexivity.
  - lia.
  - simpl. lia.
  - right. simpl. lia.
  - exact I.
Defined.

(** ** Bounds of the remasking *)

Lemma sorted_below_rank (s : list fl) :
  StronglySorted (fun a b => fl_sort_leb a b = true) s ->
  forall k c, nth_error s k = Some c ->
              length (filter (fun x => fl_ltb x c) s) <= k.
Proof.
  induction 1 as [|a s Hs IH Ha]; intros k c Hk.
  - destruct k; discriminate.
  - destruct k as [|k]; simpl in Hk.
    + injection Hk as <-. simpl. rewrite fl_ltb_irrefl.
      rewrite filter_none; [simpl; lia|].
      eapply Forall_impl; [|exact Ha]. intros x Hx.
      apply fl_sort_leb_not_ltb, Hx.
    + specialize (IH k c Hk). simpl.
      destruct (fl_ltb a c); simpl; lia.
Qed.




(** ** Gumbel-max sampling *)

Lemma fl_better_sort_leb (x best : fl) :
  fl_better x best = negb (fl_sort_leb x best).
Proof.
  destruct x, best; simpl; try reflexivity;
    unfold fl_gtb; simpl; rewrite ?negb_involutive; reflexivity.
Qed.

Lemma argmax_from_spec (l : list fl) :
  forall (pre : list fl) (best : nat) (bv : fl),
    nth_error pre best = Some bv ->
    (forall j v, nth_error pre j = Some v -> fl_sort_leb v bv = true) ->
    (forall j v, j < best -> nth_error pre j = Some v ->
                 fl_sort_leb bv v = false) ->
    exists rv,
      nth_error (pre ++ l) (argmax_from best bv (length pre) l) = Some rv /\
      (forall j v, nth_error (pre ++ l) j = Some v ->
                   fl_sort_leb v rv = true) /\
      (forall j v, j < argmax_from best bv (length pre) l ->
                   nth_error (pre ++ l) j = Some v ->
                   fl_sort_leb rv v = false).
Proof.
  induction l as [|x l IH]; intros pre best bv Hb Hmax Hfirst.
  - simpl. rewrite app_nil_r. exists bv. auto.
  - cbn [argmax_from]. rewrite fl_better_sort_leb.
    replace (pre ++ x :: l) with ((pre ++ [x]) ++ l)
      by (rewrite <- app_assoc; reflexivity).
    replace (S (length pre)) with (length (pre ++ [x]))
      by (rewrite length_app; simpl; lia).
    destruct (fl_sort_leb x bv) eqn:E; cbn [negb].
    + apply IH.
      * rewrite nth_error_app1; [exact Hb|].
        apply nth_error_Some. congruence.
      * intros j v Hj.
        destruct (Nat.lt_ge_cases j (length pre)) as [Hlt|Hge].
        -- rewrite nth_error_app1 in Hj by exact Hlt. eauto.
        -- rewrite nth_error_app2 in Hj by exact Hge.
           destruct (j - length pre) as [|[|n]]; simpl in Hj;
             try discriminate.
           injection Hj as <-. exact E.
      * intros j v Hlt Hj.
        assert (best < length pre) by (apply nth_error_Some; congruence).
        rewrite nth_error_app1 in Hj by lia. eauto.
    + assert (fl_sort_leb bv x = true) as Hle.
      { destruct (fl_sort_leb_total x bv); congruence. }
      apply IH.
      * rewrite nth_error_app2 by lia. rewrite Nat.sub_diag. reflexivity.
      * intros j v Hj.
        destruct (Nat.lt_ge_cases j (length pre)) as [Hlt|Hge].
        -- rewrite nth_error_app1 in Hj by exact Hlt.
           eapply fl_sort_leb_trans; eauto.
        -- rewrite nth_error_app2 in Hj by exact Hge.
           destruct (j - length pre) as [|[|n]]; simpl in Hj;
             try discriminate.
           injection Hj as <-.
           destruct (fl_sort_leb_total x x); assumption.
      * intros j v Hlt Hj.
        rewrite nth_error_app1 in Hj by exact Hlt.
        destruct (fl_sort_leb x v) eqn:E'; [|reflexivity].
        pose proof (fl_sort_leb_trans _ _ _ E' (Hmax _ _ Hj)). congruence.
Qed.

Lemma argmax_spec (l : list fl) :
  l <> [] ->
  exists i best,
    argmax l = Ok i /\
    nth_error l i = Some best /\
    (forall j v, nth_error l j = Some v -> fl_sort_leb v best = true) /\
    (forall j v, j < i -> nth_error l j = Some v ->
                 fl_sort_leb best v = false).
Proof.
  destruct l as [|x l]; [congruence|]. intros _.
  destruct (argmax_from_spec l [x] 0 x eq_refl) as (rv & H1 & H2 & H3).
  - intros [|[|j]] v Hj; simpl in Hj; try discriminate.
    injection Hj as <-. destruct (fl_sort_leb_total x x); assumption.
  - intros j v Hj. lia.
  - exists (argmax_from 0 x 1 l), rv. simpl in *. auto.
Qed.

Lemma gumbel_scores_length ln t temperature u :
  length (gumbel_scores ln t temperature u) = length t.
Proof.
  unfold gumbel_scores.
  rewrite length_map, length_combine, gumbel_noise_like_length.
  apply Nat.min_id.
Qed.

(** X2: on a row that is not empty [gumbel_sample] returns an index of
    the row, the first one at which [t / max(temperature, 1e-10)] plus the
    Gumbel noise is greatest (NaN counting as the greatest value): every
    score is at most the score there, every earlier score is strictly
    smaller. *)
Theorem gumbel_sample_first_maximum :
  forall ln (t : list fl) (temperature : fl) (u : nat -> Q),
    t <> [] ->
    exists i best,
      gumbel_sample ln t temperature u = Ok i /\
      i < length t /\
      nth_error (gumbel_scores ln t temperature u) i = Some best /\
      (forall j v,
          nth_error (gumbel_scores ln t temperature u) j = Some v ->
          fl_sort_leb v best = true) /\
      (forall j v,
          j < i ->
          nth_error (gumbel_scores ln t temperature u) j = Some v ->
          fl_sort_leb best v = false).
Proof.
  intros ln t temperature u Ht.
  destruct (argmax_spec (gumbel_scores ln t temperature u))
    as (i & best & H1 & H2 & H3 & H4).
  { intros E. apply (f_equal (@length _)) in E.
    rewrite gumbel_scores_length in E. destruct t; [congruence|discriminate]. }
  exists i, best. repeat split; auto.
  rewrite <- (gumbel_scores_length ln t temperature u).
  apply nth_error_Some. congruence.
Qed.

Lemma gumbel_sample_first_maximum_witness :
  exists i best,
    gumbel_sample Dyadic.ln [Fin 1; Fin 3; Fin 3; Fin 2] (Fin 1)
                  (fun _ => 1 # 2) = Ok i /\
    i < 4 /\
    nth_error (gumbel_scores Dyadic.ln [Fin 1; Fin 3; Fin 3; Fin 2] (Fin 1)
                             (fun _ => 1 # 2)) i = Some best /\
    (forall j v,
        nth_error (gumbel_scores Dyadic.ln [Fin 1; Fin 3; Fin 3; Fin 2]
                                 (Fin 1) (fun _ => 1 # 2)) j = Some v ->
        fl_sort_leb v best = true) /\
    (forall j v,
        j < i ->
        nth_error (gumbel_scores Dyadic.ln [Fin 1; Fin 3; Fin 3; Fin 2]
                                 (Fin 1) (fun _ => 1 # 2)) j = Some v ->
        fl_sort_leb best v = false).
Proof.
  apply (gumbel_sample_first_maximum
           Dyadic.ln [Fin 1; Fin 3; Fin 3; Fin 2] (Fin 1) (fun _ => 1 # 2)).
  discriminate.
Defined.

(** X1: [gumbel_noise_like] returns one noise value per entry of [t],
    and each is finite when the uniform draws lie strictly between 0 and
    1, where the logarithm is negative. *)
Theorem gumbel_noise_like_finite :
  forall (T : Type) ln (t : list T) (u : nat -> Q),
    (forall j, j < length t -> (0 < u j)%Q /\ (ln (u j) < 0)%Q) ->
    length (gumbel_noise_like ln t u) = length t /\
    Forall (fun g => exists q : Q, g = Fin q) (gumbel_noise_like ln t u).
Proof.
  intros T ln t u Hu. split; [apply gumbel_noise_like_length|].
  unfold gumbel_noise_like. apply Forall_forall. intros g Hg.
  apply in_map_iff in Hg. destruct Hg as (j & <- & Hj).
  apply in_seq in Hj. destruct (Hu j) as [H0 H1]; [lia|].
  apply gumbel_finite; assumption.
Qed.

Lemma gumbel_noise_like_finite_witness :
  length (gumbel_noise_like Dyadic.ln [Fin 1; Fin 2] (fun _ => 1 # 2)) = 2 /\
  Forall (fun g => exists q : Q, g = Fin q)
         (gumbel_noise_like Dyadic.ln [Fin 1; Fin 2] (fun _ => 1 # 2)).
Proof.
  apply (gumbel_noise_like_finite fl Dyadic.ln [Fin 1; Fin 2]
                                  (fun _ => 1 # 2)).
  intros j _. unfold Dyadic.ln. split; lra.
Defined.


(** ** Decoding tokens to audio *)

Lemma nth_error_mapi_from {A B : Type} (f : nat -> A -> B) (l : list A) :
  forall s j,
    nth_error (map (fun p => f (fst p) (snd p))
                   (combine (seq s (length l)) l)) j
    = option_map (f (s + j)) (nth_error l j).
Proof.
  induction l as [|x l IH]; intros s j; simpl.
  - destruct j; reflexivity.
  - destruct j as [|j]; simpl.
    + rewrite Nat.add_0_r. reflexivity.
    + rewrite IH. f_equal. f_equal. lia.
Qed.

Lemma nth_error_mapi {A B : Type} (f : nat -> A -> B) (l : list A) (j : nat) :
  nth_error (mapi f l) j = option_map (f j) (nth_error l j).
Proof. unfold mapi. apply (nth_error_mapi_from f l 0 j). Qed.

Lemma mapi_ext {A B : Type} (f g : nat -> A -> B) (l : list A) :
  (forall j x, f j x = g j x) -> mapi f l = mapi g l.
Proof.
  intros H. apply nth_error_ext. intros j. rewrite !nth_error_mapi.
  destruct (nth_error l j); simpl; [rewrite H|]; reflexivity.
Qed.

Lemma mapi_mapi {A B C : Type} (f : nat -> A -> B) (g : nat -> B -> C)
      (l : list A) :
  mapi g (mapi f l) = mapi (fun j x => g j (f j x)) l.
Proof.
  apply nth_error_ext. intros j. rewrite !nth_error_mapi.
  destruct (nth_error l j); reflexivity.
Qed.

Lemma mapi_id {A : Type} (l : list A) : mapi (fun _ x => x) l = l.
Proof.
  apply nth_error_ext. intros j. rewrite nth_error_mapi.
  destruct (nth_error l j); reflexivity.
Qed.

Section ToSignalFacts.
Variable decode : grid -> list (list (list fl)).
Variable hop_length : nat.
Variable self : VampNet.

Let silence_step (z : grid) :=
  fun (signal : list (list (list fl))) (tstep : nat) =>
    if any_mask_at self z tstep
    then map (map (silence (tstep * hop_length)
                           (tstep * hop_length + hop_length))) signal
    else signal.

Lemma to_signal_fold (z : grid) (ts : list nat) :
  forall signal,
    fold_left (silence_step z) ts signal
    = map (map (mapi (fun j x =>
                        if existsb (fun t =>
                                      any_mask_at self z t
                                      && ((t * hop_length <=? j)
                                          && (j <? t * hop_length + hop_length)))
                                   ts
                        then Fin 0 else x))) signal.
Proof.
  induction ts as [|t ts IH]; intros signal; cbn [fold_left existsb].
  - symmetry. rewrite <- (map_id signal) at 2. apply map_ext. intros row.
    rewrite <- (map_id row) at 2. apply map_ext. intros samples.
    apply mapi_id.
  - rewrite IH. unfold silence_step at 1.
    destruct (any_mask_at self z t); cbn [andb orb]; [|reflexivity].
    rewrite map_map. apply map_ext. intros row.
    rewrite map_map. apply map_ext. intros samples.
    unfold silence. rewrite mapi_mapi. apply mapi_ext. intros j x.
    destruct ((t * hop_length <=? j) && (j <? t * hop_length + hop_length));
      cbn [orb]; [|reflexivity].
    destruct (existsb _ ts); reflexivity.
Qed.

Lemma hop_of_sample (T j : nat) (f : nat -> bool) :
  existsb (fun t => f t && ((t * hop_length <=? j)
                            && (j <? t * hop_length + hop_length)))
          (seq 0 T)
  = (0 <? hop_length) && (j / hop_length <? T) && f (j / hop_length).
Proof.
  apply eq_true_iff_eq. rewrite existsb_exists.
  rewrite !andb_true_iff, Nat.ltb_lt, Nat.ltb_lt. split.
  - intros (t & Hin & H). apply in_seq in Hin.
    rewrite !andb_true_iff, Nat.leb_le, Nat.ltb_lt in H.
    destruct H as (Hf & H1 & H2).
    assert (0 < hop_length) as Hpos by lia.
    assert (t = j / hop_length) as <-.
    { apply (Nat.div_unique j hop_length t (j - t * hop_length)); lia. }
    repeat split; [exact Hpos | lia | exact Hf].
  - intros ((Hpos & HT) & Hf). exists (j / hop_length).
    split; [apply in_seq; lia|].
    rewrite !andb_true_iff, Nat.leb_le, Nat.ltb_lt.
    split; [exact Hf|].
    pose proof (Nat.div_mod_eq j hop_length) as E.
    pose proof (Nat.mod_upper_bound j hop_length) as Hm.
    split; nia.
Qed.

Lemma to_signal_existsb (z : grid) :
  to_signal decode hop_length self z
  = map (map (mapi (fun j x =>
                      if existsb (fun t =>
                                    any_mask_at self z t
                                    && ((t * hop_length <=? j)
                                        && (j <? t * hop_length + hop_length)))
                                 (seq 0 (time_axis z))
                      then Fin 0 else x)))
        (decode z).
Proof.
  unfold to_signal.
  change (fold_left _ (seq 0 (time_axis z)) (decode z))
    with (fold_left (silence_step z) (seq 0 (time_axis z)) (decode z)).
  apply to_signal_fold.
Qed.

(** X3: [to_signal] returns the decoded audio with sample [j] of every
    batch row and channel set to 0 exactly when [j] lies in the hop of a
    time step of [z] at which some batch row holds the mask token in some
    codebook; every other sample, those past the last time step included,
    is the decoded one. *)
Theorem to_signal_samples :
  forall z : grid,
    to_signal decode hop_length self z
    = map (map (mapi (fun j x =>
                        if (0 <? hop_length)
                           && (j / hop_length <? time_axis z)
                           && any_mask_at self z (j / hop_length)
                        then Fin 0 else x)))
          (decode z).
Proof.
  intros z. rewrite to_signal_existsb.
  apply map_ext. intros row. apply map_ext.
  intros samples. apply mapi_ext. intros j x.
  rewrite (hop_of_sample (time_axis z) j (any_mask_at self z)). reflexivity.
Qed.

Lemma any_mask_at_none (z : grid) (tstep : nat) :
  Forall (Forall (Forall (fun x => x <> mask_token self))) z ->
  any_mask_at self z tstep = false.
Proof.
  intros H. unfold any_mask_at.
  destruct (existsb _ z) eqn:E; [|reflexivity].
  apply existsb_exists in E. destruct E as (row & Hrow & E).
  apply existsb_exists in E. destruct E as (chan & Hchan & E).
  destruct (nth_error chan tstep) as [x|] eqn:Ex; [|discriminate].
  apply Z.eqb_eq in E. apply nth_error_In in Ex.
  rewrite Forall_forall in H. specialize (H _ Hrow).
  rewrite Forall_forall in H. specialize (H _ Hchan).
  rewrite Forall_forall in H. destruct (H _ Ex E).
Qed.

Lemma to_signal_no_mask (z : grid) :
  Forall (Forall (Forall (fun x => x <> mask_token self))) z ->
  to_signal decode hop_length self z = decode z.
Proof.
  intros H. unfold to_signal. generalize (decode z).
  induction (seq 0 (time_axis z)) as [|t ts IH]; intros signal;
    cbn [fold_left]; [reflexivity|].
  rewrite any_mask_at_none by exact H. apply IH.
Qed.

End ToSignalFacts.

Lemma rows_from_Forall2_counts {A B C : Type}
      (f : nat -> A -> B -> result C) (R : A -> C -> Prop) :
  (forall b x y z, f b x y = Ok z -> R x z) ->
  forall l1 l2 b r, rows_from f b l1 l2 = Ok r -> Forall2 R l1 r.
Proof.
  intros Hf. induction l1 as [|x l1 IH]; intros [|y l2] b r H; simpl in H;
    try discriminate.
  - injection H as <-. constructor.
  - inv_bind H. inv_bind H. injection H as <-. constructor; eauto.
Qed.

Lemma Forall2_map_l {A B C : Type} (f : A -> B) (R : B -> C -> Prop)
      (l1 : list A) (l2 : list C) :
  Forall2 R (map f l1) l2 <-> Forall2 (fun a c => R (f a) c) l1 l2.
Proof.
  revert l2. induction l1 as [|a l1 IH]; intros l2; simpl.
  - split; intros H; inversion H; constructor.
  - split; intros H; inversion H; subst; constructor; auto; apply IH; auto.
Qed.


(** ** Tokens a step keeps *)

Lemma where_keeps (tok : Z) (flat : list Z) :
  forall sampled out,
    where_ (map (fun x => (x =? tok)%Z) flat) sampled flat = Ok out ->
    Forall2 (fun x s => x <> tok -> s = x) flat out.
Proof.
  induction flat as [|x flat IH]; intros [|s sampled] out H; simpl in H;
    try discriminate.
  - injection H as <-. constructor.
  - inv_bind H. injection H as <-. constructor; [|eapply IH; eauto].
    intros Hx. apply Z.eqb_neq in Hx. rewrite Hx. reflexivity.
Qed.

Lemma zipM3_where_keeps (tok : Z) (flats : list (list Z)) :
  forall sampled out,
    zipM3 where_ (map (map (fun x => (x =? tok)%Z)) flats) sampled flats
    = Ok out ->
    Forall2 (Forall2 (fun x s => x <> tok -> s = x)) flats out.
Proof.
  induction flats as [|f flats IH]; intros [|s sampled] out H; simpl in H;
    try discriminate.
  - injection H as <-. constructor.
  - inv_bind H. inv_bind H. injection H as <-.
    constructor; [eapply where_keeps; eauto | eapply IH; eauto].
Qed.

Lemma where_scalar_l_keeps (tok : Z) (flat : list Z) :
  forall (new_mask : list bool) (sampled out : list Z),
    Forall2 (fun x s => x <> tok -> s = x) flat sampled ->
    Forall2 (fun (old new : bool) => old = false -> new = false)
            (map (fun x => (x =? tok)%Z) flat) new_mask ->
    where_scalar_l new_mask tok sampled = Ok out ->
    Forall2 (fun x y => x <> tok -> y = x) flat out.
Proof.
  unfold where_scalar_l, zip_with.
  induction flat as [|x flat IH]; intros nm sampled out Hs Hm H;
    inversion Hs; subst; inversion Hm; subst; simpl in H.
  - injection H as <-. constructor.
  - inv_bind H. injection H as <-. constructor; [|eapply IH; eauto].
    intros Hx. pose proof (proj2 (Z.eqb_neq _ _) Hx) as Hx'.
    match goal with Hn : (_ =? _)%Z = false -> _ |- _ => rewrite (Hn Hx') end.
    auto.
Qed.

Lemma zipM_where_scalar_l_keeps (tok : Z) (flats : list (list Z)) :
  forall (new_mask : list (list bool)) (sampled out : list (list Z)),
    Forall2 (Forall2 (fun x s => x <> tok -> s = x)) flats sampled ->
    Forall2 (Forall2 (fun (old new : bool) => old = false -> new = false))
            (map (map (fun x => (x =? tok)%Z)) flats) new_mask ->
    zipM (fun m s => where_scalar_l m tok s) new_mask sampled = Ok out ->
    Forall2 (Forall2 (fun x y => x <> tok -> y = x)) flats out.
Proof.
  induction flats as [|f flats IH]; intros nm sampled out Hs Hm H;
    inversion Hs; subst; inversion Hm; subst; simpl in H.
  - injection H as <-. constructor.
  - inv_bind H. inv_bind H. injection H as <-.
    constructor; [eapply where_scalar_l_keeps; eauto | eapply IH; eauto].
Qed.

Lemma Forall2_keeps_trans (tok : Z) (l1 l2 l3 : list (list Z)) :
  Forall2 (Forall2 (fun x y => x <> tok -> y = x)) l1 l2 ->
  Forall2 (Forall2 (fun x y => x <> tok -> y = x)) l2 l3 ->
  Forall2 (Forall2 (fun x y => x <> tok -> y = x)) l1 l3.
Proof.
  apply Forall2_compose. intros a b c. apply Forall2_compose.
  intros x y w Hxy Hyw Hx. rewrite <- (Hxy Hx). apply Hyw.
  rewrite (Hxy Hx). exact Hx.
Qed.

(** The predicted codebooks of a grid, each batch row flattened. *)
Lemma unflatten_cat_flat (self : VampNet) (z : grid) (flat : list (list Z))
      (unflat out : grid) :
  Forall (fun row => n_conditioning_codebooks self <= length row) z ->
  mapM (fun f => codebook_unflatten 0%Z f
                   (Z.of_nat (n_codebooks self)
                    - Z.of_nat (n_conditioning_codebooks self))%Z) flat
  = Ok unflat ->
  cat_conditioning self z unflat = Ok out ->
  map (fun row => codebook_flatten 0%Z
                    (skipn (n_conditioning_codebooks self) row)) out = flat.
Proof.
  intros Hch Hunf Hcat.
  assert (Forall2 (fun f u => codebook_flatten 0%Z u = f) flat unflat) as H2.
  { revert Hunf. apply mapM_Forall2. intros f g.
    apply codebook_flatten_unflatten. }
  destruct (cat_conditioning_rows self z unflat out Hcat Hch) as [_ H3].
  apply Forall2_map_eq.
  revert H2 H3. apply Forall2_compose. intros a b c <- <-. reflexivity.
Qed.


Lemma masked_fill_default_shape (n : nat) (v : Z) (C T : nat) (z : grid) :
  forall z_masked,
    Forall (fun row => length row = C /\ Forall (has_length T) row) z ->
    masked_fill z (default_mask n z) v = Ok z_masked ->
    length z_masked = length z /\
    Forall (fun row => length row = C /\ Forall (has_length T) row) z_masked.
Proof.
  unfold masked_fill, default_mask.
  rewrite broadcast_same by (rewrite length_map; reflexivity).
  cbn [bind fst snd].
  induction z as [|zrow z IH]; intros z_masked Hz H; cbn [map zipM] in H.
  - injection H as <-. auto.
  - inversion Hz as [|? ? [Hc Ht] Hrest]; subst.
    inv_bind H. inv_bind H. injection H as <-.
    destruct (IH _ Hrest Ha0) as [Hl Hs].
    split; [simpl; lia|]. constructor; [|exact Hs].
    inv_bind Ha. unfold mapi in Ha1.
    rewrite broadcast_same in Ha1
      by (rewrite length_map, length_combine, length_seq, Nat.min_id;
          reflexivity).
    injection Ha1 as <-. cbn [fst snd] in Ha. unfold mapi in Ha.
    destruct (masked_fill_row_ok (fun c => if c <? n then 0%Z else 1%Z) v T
                                 zrow Ht 0) as (r & Hr & Hrl & Hrt).
    rewrite Hr in Ha. injection Ha as <-. auto.
Qed.

Lemma where_scalar_r_length {A : Type} (m : list bool) (p : list A) (v : A)
      (c : list A) :
  where_scalar_r m p v = Ok c -> length c = length m.
Proof.
  intros H. symmetry.
  apply (Forall2_length (where_scalar_r_unmasked m p v c H)).
Qed.


(** ** Tokens a step produces *)

Section TokenPredicate.
Variable tok : Z.
Variable P : Z -> Prop.

Lemma where_pred (flat : list Z) :
  forall sampled out,
    where_ (map (fun x => (x =? tok)%Z) flat) sampled flat = Ok out ->
    Forall P sampled ->
    Forall (fun x => x = tok \/ P x) flat ->
    Forall P out.
Proof.
  induction flat as [|x flat IH]; intros [|s sampled] out H Hs Hf;
    simpl in H; try discriminate.
  - injection H as <-. constructor.
  - inversion Hs; subst. inversion Hf as [|? ? Hx Hrest]; subst.
    inv_bind H. injection H as <-.
    constructor; [|eapply IH; eauto].
    destruct (x =? tok)%Z eqn:E; auto. apply Z.eqb_neq in E.
    destruct Hx; [contradiction | assumption].
Qed.

Lemma zipM3_where_pred (flats : list (list Z)) :
  forall sampled out,
    zipM3 where_ (map (map (fun x => (x =? tok)%Z)) flats) sampled flats
    = Ok out ->
    Forall (Forall P) sampled ->
    Forall (Forall (fun x => x = tok \/ P x)) flats ->
    Forall (Forall P) out.
Proof.
  induction flats as [|f flats IH]; intros [|s sampled] out H Hs Hf;
    simpl in H; try discriminate.
  - injection H as <-. constructor.
  - inversion Hs; subst. inversion Hf; subst.
    inv_bind H. inv_bind H. injection H as <-.
    constructor; [eapply where_pred; eauto | eapply IH; eauto].
Qed.

Lemma where_scalar_l_pred (m : list bool) :
  forall s out,
    where_scalar_l m tok s = Ok out ->
    Forall P s ->
    Forall (fun x => x = tok \/ P x) out.
Proof.
  unfold where_scalar_l, zip_with.
  induction m as [|b m IH]; intros [|x s] out H Hs; simpl in H;
    try discriminate.
  - injection H as <-. constructor.
  - inversion Hs; subst. inv_bind H. injection H as <-.
    constructor; [destruct b; auto | eapply IH; eauto].
Qed.

Lemma zipM_where_scalar_l_pred (ms : list (list bool)) :
  forall ss out,
    zipM (fun m s => where_scalar_l m tok s) ms ss = Ok out ->
    Forall (Forall P) ss ->
    Forall (Forall (fun x => x = tok \/ P x)) out.
Proof.
  induction ms as [|m ms IH]; intros [|s ss] out H Hs; simpl in H;
    try discriminate.
  - injection H as <-. constructor.
  - inversion Hs; subst. inv_bind H. inv_bind H. injection H as <-.
    constructor; [eapply where_scalar_l_pred; eauto | eapply IH; eauto].
Qed.

End TokenPredicate.

Lemma codebook_flatten_pred (Q : Z -> Prop) (g : list (list Z)) :
  Q 0%Z -> Forall (Forall Q) g -> Forall Q (codebook_flatten 0%Z g).
Proof.
  intros H0 Hg. unfold codebook_flatten. apply Forall_forall. intros x Hx.
  apply in_flat_map in Hx. destruct Hx as (t & _ & Hx).
  apply in_map_iff in Hx. destruct Hx as (ch & <- & Hch).
  rewrite Forall_forall in Hg. specialize (Hg _ Hch).
  destruct (nth_in_or_default t ch 0%Z) as [Hin|E]; [|rewrite E; exact H0].
  rewrite Forall_forall in Hg. auto.
Qed.


(** ** The start of a run *)

Lemma zipM_nth {A B C : Type} (f : A -> B -> result C) (l1 : list A) :
  forall (l2 : list B) (r : list C) (i : nat) (v : C),
    zipM f l1 l2 = Ok r ->
    nth_error r i = Some v ->
    exists x y, nth_error l1 i = Some x /\ nth_error l2 i = Some y /\
                f x y = Ok v.
Proof.
  induction l1 as [|x l1 IH]; intros [|y l2] r i v H Hi; simpl in H;
    try discriminate.
  - injection H as <-. destruct i; discriminate.
  - inv_bind H. inv_bind H. injection H as <-.
    destruct i as [|i]; simpl in Hi.
    + injection Hi as <-. exists x, y. auto.
    + destruct (IH _ _ _ _ Ha0 Hi) as (x' & y' & H1 & H2 & H3).
      exists x', y'. auto.
Qed.


(** ** Runs of [generate] that return *)

Section GenerateMore.
Variable ln : Q -> Q.
Variable fl_exp : fl -> fl.
Variable softmax : list fl -> list fl.
Variable log_softmax : list fl -> list fl.
Variable _gamma : Q -> Q.
Variable score : grid -> list (list (list fl)).
Variable multinomial : nat -> nat -> nat -> list fl -> Z.
Variable uniform : nat -> nat -> nat -> Q.
Variable decode : grid -> list (list (list fl)).
Variable hop_length : nat.
Variable self : VampNet.

Variable time_steps : nat.
Variable sampling_steps : Z.
Variable typical_mass : fl.
Variable typical_min_tokens : Z.

Let n_cond := n_conditioning_codebooks self.

Let run (start_tokens : option grid) (mask : mask_arg) :=
  generate ln fl_exp softmax log_softmax _gamma score multinomial uniform
           self time_steps sampling_steps start_tokens mask.

Let run_signal (start_tokens : option grid) (mask : mask_arg) :=
  generate_signal ln fl_exp softmax log_softmax _gamma score multinomial
                  uniform decode hop_length self time_steps sampling_steps
                  start_tokens mask.

Let body (start_tokens : option grid) (temperature : fl)
    (typical_filtering : bool) (z_masked : grid) :=
  sampling_step ln fl_exp softmax log_softmax _gamma score multinomial
                uniform self sampling_steps temperature typical_filtering
                typical_mass typical_min_tokens
                (resolve_z self time_steps start_tokens)
                (count_tokens (mask_token self) z_masked).

Let initial (start_tokens : option grid) (mask : mask_arg) : result grid :=
  masked_fill (resolve_z self time_steps start_tokens)
              (resolve_mask n_cond (resolve_z self time_steps start_tokens)
                            mask)
              (mask_token self).

(** What a run that returns went through. *)
Lemma generate_Ok_inv start_tokens mask temperature typical_filtering tr out :
  run start_tokens mask temperature typical_filtering
      typical_mass typical_min_tokens = (tr, Ok out) ->
  exists t z_masked,
    temperature = PyFloat t /\
    initial start_tokens mask = Ok z_masked /\
    steps_from (body start_tokens t typical_filtering z_masked) 0 z_masked tr /\
    Z.of_nat (length tr) = sampling_steps /\
    tr <> [] /\
    finish self (resolve_z self time_steps start_tokens)
           (last_sampled None tr) = Ok out.
Proof.
  intros H. unfold run in H.
  destruct (generate_cases ln fl_exp softmax log_softmax _gamma score
              multinomial uniform self time_steps sampling_steps mask
              typical_mass typical_min_tokens start_tokens temperature
              typical_filtering)
    as [(e & He)|(t & z_masked & Ht & Hz & Hl)].
  { rewrite He in H. discriminate. }
  rewrite Hl in H.
  pose proof (loop_steps_from ln fl_exp softmax log_softmax _gamma score
                multinomial uniform self sampling_steps t
                typical_filtering typical_mass typical_min_tokens
                (resolve_z self time_steps start_tokens)
                (count_tokens (mask_token self) z_masked)
                (Z.to_nat sampling_steps) 0 z_masked None) as Hs.
  pose proof (loop_Ok ln fl_exp softmax log_softmax _gamma score
                multinomial uniform self sampling_steps t
                typical_filtering typical_mass typical_min_tokens
                (resolve_z self time_steps start_tokens)
                (count_tokens (mask_token self) z_masked)
                (Z.to_nat sampling_steps) 0 z_masked None out) as Ho.
  rewrite H in Hs, Ho. cbn [fst snd] in Hs, Ho.
  destruct (Ho eq_refl) as [Hlen Hf]. clear Ho.
  assert (tr <> []) as Hne by (intros ->; simpl in Hf; discriminate).
  exists t, z_masked. repeat split; auto.
  destruct tr; [congruence|]. cbn [length] in Hlen |- *. lia.
Qed.

(** The conditioning codebooks of the returned grid are those of [z]. *)
Lemma finish_conditioning (z : grid) sampled_z (out : grid) :
  Forall (fun row => n_cond <= length row) z ->
  finish self z sampled_z = Ok out ->
  Forall2 (fun zrow orow => firstn n_cond orow = firstn n_cond zrow) z out.
Proof.
  intros Hch Hf. unfold finish in Hf.
  destruct sampled_z as [s|]; [|discriminate]. inv_bind Hf.
  apply (cat_conditioning_rows self z a out Hf Hch).
Qed.

(** X12: a run from scratch ([start_tokens=None]) on a model with
    conditioning codebooks that returns a signal returns silence over all
    the time steps it generated: the conditioning codebooks of the sampled
    grid are still all mask tokens, so [to_signal] zeroes the hop of every
    time step. *)
Theorem generate_signal_from_scratch_silent :
  forall mask temperature typical_filtering tr sampled_z,
    0 < n_conditioning_codebooks self <= n_codebooks self ->
    run None mask temperature typical_filtering
        typical_mass typical_min_tokens = (tr, Ok sampled_z) ->
    run_signal None mask temperature typical_filtering
               typical_mass typical_min_tokens
    = Ok (map (map (mapi (fun j x =>
                            if (0 <? hop_length)
                               && (j / hop_length <? time_steps)
                            then Fin 0 else x)))
              (decode sampled_z)).
Proof.
  intros mask temperature tf tr sampled_z Hn H.
  unfold run_signal, generate_signal. fold (run None mask).
  rewrite H. cbn [snd bind]. f_equal.
  destruct (generate_Ok_inv _ _ _ _ _ _ H)
    as (t & z_masked & _ & _ & _ & _ & _ & Hf).
  cbn [resolve_z] in Hf.
  apply finish_conditioning in Hf;
    [|repeat constructor; rewrite repeat_length; unfold n_cond; lia].
  inversion Hf as [|zrow orow zs os Hrow Hrest]; subst.
  inversion Hrest; subst. clear Hf Hrest.
  assert (exists rest, orow = repeat (mask_token self) time_steps :: rest)
    as [rest ->].
  { unfold n_cond in Hrow.
    destruct (n_conditioning_codebooks self) as [|n]; [lia|].
    destruct (n_codebooks self) as [|c]; [lia|].
    cbn [repeat firstn] in Hrow.
    destruct orow as [|ch rest]; [discriminate|].
    cbn [firstn] in Hrow. injection Hrow as -> _. eauto. }
  rewrite to_signal_existsb.
  assert (time_axis [repeat (mask_token self) time_steps :: rest]
          = time_steps) as HT by apply repeat_length.
  rewrite HT.
  apply map_ext. intros row. apply map_ext. intros samples.
  apply mapi_ext. intros j x. rewrite hop_of_sample.
  destruct ((0 <? hop_length) && (j / hop_length <? time_steps)) eqn:E;
    cbn [andb]; [|reflexivity].
  apply andb_true_iff in E. destruct E as [_ E]. apply Nat.ltb_lt in E.
  unfold any_mask_at. cbn [existsb].
  rewrite (nth_error_repeat (mask_token self) E), Z.eqb_refl.
  reflexivity.
Qed.

(** X13: when the conditioning codebooks of [start_tokens] hold no mask
    token and the sampler never draws it, a run that returns a signal
    returns the decoded audio of the sampled grid as it is: [to_signal]
    silences nothing. *)
Theorem generate_signal_unsilenced :
  forall z mask temperature typical_filtering tr sampled_z,
    (forall i b s p, multinomial i b s p <> mask_token self) ->
    Forall (fun row => n_conditioning_codebooks self <= length row) z ->
    Forall (fun row =>
              Forall (Forall (fun x => x <> mask_token self))
                     (firstn (n_conditioning_codebooks self) row)) z ->
    run (Some z) mask temperature typical_filtering
        typical_mass typical_min_tokens = (tr, Ok sampled_z) ->
    run_signal (Some z) mask temperature typical_filtering
               typical_mass typical_min_tokens
    = Ok (decode sampled_z).
Proof.
  intros z mask temperature tf tr sampled_z Hdraw Hch Hclean H.
  unfold run_signal, generate_signal. fold (run (Some z) mask).
  rewrite H. cbn [snd bind]. f_equal.
  destruct (generate_Ok_inv _ _ _ _ _ _ H)
    as (t & z_masked & _ & _ & Hs & _ & _ & Hf).
  cbn [resolve_z] in Hf, Hs.
  pose proof (finish_no_mask ln fl_exp softmax log_softmax _gamma score
                multinomial uniform self sampling_steps t tf typical_mass
                typical_min_tokens z
                (count_tokens (mask_token self) z_masked)
                Hdraw Hch tr 0 z_masked sampled_z Hs Hf) as Hpred.
  pose proof (finish_conditioning z _ sampled_z Hch Hf) as Hcond.
  apply to_signal_no_mask.
  clear Hs Hf H. revert Hclean Hpred.
  induction Hcond as [|zrow orow zs os Hrow _ IH]; intros Hclean Hpred;
    constructor.
  - inversion Hclean; subst. inversion Hpred; subst.
    rewrite <- (firstn_skipn n_cond orow). apply Forall_app.
    split; [rewrite Hrow|]; assumption.
  - inversion Hclean; subst. inversion Hpred; subst. inversion Hch; subst.
    apply IH; assumption.
Qed.

(** X8: at every step but the last, each batch row comes out with at
    most [max(1, m - 1)] masked positions, [m] being the number it went in
    with, and none of them is a position that was not masked: a row with
    two or more masked positions has at least one of them committed. *)
Theorem generate_step_commits :
  forall start_tokens mask temperature typical_filtering tr res i st,
    run start_tokens mask temperature typical_filtering
        typical_mass typical_min_tokens = (tr, res) ->
    nth_error tr i = Some st ->
    Z.of_nat i <> (sampling_steps - 1)%Z ->
    Forall2 (fun m n : list bool =>
               count_true n <= Nat.max 1 (count_true m - 1) /\
               Forall2 (fun old new : bool => old = false -> new = false) m n)
            (st_mask st) (st_new_mask st).
Proof.
  intros start_tokens mask temperature tf tr res i st H Hi Hlast.
  destruct (generate_steps ln fl_exp softmax log_softmax _gamma score
              multinomial uniform self time_steps sampling_steps mask
              typical_mass typical_min_tokens start_tokens temperature tf
              tr res H)
    as [->|(t & z_masked & _ & _ & _ & Hs)]; [destruct i; discriminate|].
  pose proof (steps_from_nth_grid _ _ _ _ _ _ _ _ _ _ _ _ _ _ _ _
                tr 0 z_masked i st Hs Hi) as Hst.
  change (0 + i) with i in Hst.
  destruct (sampling_step_unmasked _ _ _ _ _ _ _ _ _ _ _ _ _ _ _ _ _ _ _ Hst)
    as [_ Hsub].
  destruct (sampling_step_inv _ _ _ _ _ _ _ _ _ _ _ _ _ _ _ _ _ _ _ Hst)
    as (sel & fm & unf & _ & _ & _ & _ & Hnum & Htopk & _).
  assert (Forall2 (fun (k : Z) (n : list bool) =>
                     (Z.of_nat (count_true n) <= k)%Z)
                  (st_num_to_mask st) (st_new_mask st)) as Hcount.
  { revert Htopk. unfold mask_by_random_topk.
    apply rows_from_Forall2_counts. intros b k row m Hm.
    unfold mask_by_random_topk_row in Hm. inv_bind Hm. injection Hm as <-.
    apply take_along_Ok_iff in Ha. destruct Ha as [Hk Hc].
    rewrite count_true_map.
    rewrite <- (filter_length_perm _ _ _ (sort_values_perm _)).
    pose proof (sorted_below_rank _ (sort_values_sorted _) _ _ Hc). lia. }
  rewrite Hnum in Hcount. apply Forall2_map_l in Hcount.
  apply Z.eqb_neq in Hlast. rewrite Hlast in Hcount. cbn [negb] in Hcount.
  revert Hcount Hsub. generalize (st_mask st) (st_new_mask st).
  induction 1 as [|m n ms ns Hmn _ IH]; intros Hsub; constructor.
  - inversion Hsub; subst. split; [lia | assumption].
  - inversion Hsub; subst. auto.
Qed.


Let flat (z_masked : grid) : list (list Z) :=
  map (fun row => codebook_flatten 0%Z (skipn n_cond row)) z_masked.

(** Within a step a token that is not the mask token stays where it is,
    in the sampled grid and in the grid handed to the next step. *)
Lemma sampling_step_keeps start_tokens t typical_filtering z_masked0
      (i : nat) (z_masked : grid) (st : step) :
  Forall (fun row => n_cond <= length row)
         (resolve_z self time_steps start_tokens) ->
  body start_tokens t typical_filtering z_masked0 i z_masked = Ok st ->
  Forall2 (Forall2 (fun x s => x <> mask_token self -> s = x))
          (flat z_masked) (st_sampled_z st) /\
  Forall2 (Forall2 (fun x y => x <> mask_token self -> y = x))
          (flat z_masked) (flat (st_z_masked st)).
Proof.
  intros Hch H.
  destruct (sampling_step_unmasked _ _ _ _ _ _ _ _ _ _ _ _ _ _ _ _ _ _ _ H)
    as [_ Hsub].
  destruct (sampling_step_inv _ _ _ _ _ _ _ _ _ _ _ _ _ _ _ _ _ _ _ H)
    as (sel & fm & unf & _ & Hmask & Hwhere & _ & _ & _ & Hfill & Hunf & Hcat).
  assert (st_mask st
          = map (map (fun x => (x =? mask_token self)%Z)) (flat z_masked))
    as Hm.
  { rewrite Hmask. unfold flat_mask, flat. rewrite map_map. reflexivity. }
  rewrite Hm in Hwhere, Hsub.
  assert (Forall2 (Forall2 (fun x s => x <> mask_token self -> s = x))
                  (flat z_masked) (st_sampled_z st)) as H1.
  { eapply zipM3_where_keeps. exact Hwhere. }
  split; [exact H1|].
  unfold flat at 2. unfold n_cond.
  rewrite (unflatten_cat_flat self _ fm unf (st_z_masked st) Hch Hunf Hcat).
  eapply zipM_where_scalar_l_keeps; eauto.
Qed.

Lemma steps_from_keeps start_tokens t typical_filtering z_masked0 :
  Forall (fun row => n_cond <= length row)
         (resolve_z self time_steps start_tokens) ->
  forall tr i z_masked s,
    steps_from (body start_tokens t typical_filtering z_masked0) i z_masked tr ->
    tr <> [] ->
    last_sampled None tr = Some s ->
    Forall2 (Forall2 (fun x y => x <> mask_token self -> y = x))
            (flat z_masked) s.
Proof.
  intros Hch. induction tr as [|st tr IH]; intros i z_masked s Hs Hne Hl;
    [congruence|].
  destruct Hs as [H0 Hs].
  destruct (sampling_step_keeps _ _ _ _ _ _ _ Hch H0) as [H1 H2].
  destruct tr as [|st' tr].
  - simpl in Hl. injection Hl as <-. exact H1.
  - eapply Forall2_keeps_trans; [exact H2|].
    eapply (IH (S i)); [exact Hs | discriminate | exact Hl].
Qed.

(** X9: a run that returns keeps every token it was given: at each
    position of the predicted codebooks where the masked start grid holds
    a token other than the mask token, the returned grid holds that
    token (both grids read in the flattened layout). *)
Theorem generate_keeps_given_tokens :
  forall start_tokens mask temperature typical_filtering tr out z_masked0,
    Forall (fun row => n_conditioning_codebooks self <= length row)
           (resolve_z self time_steps start_tokens) ->
    initial start_tokens mask = Ok z_masked0 ->
    run start_tokens mask temperature typical_filtering
        typical_mass typical_min_tokens = (tr, Ok out) ->
    Forall2 (Forall2 (fun x y => x <> mask_token self -> y = x))
            (map (fun row =>
                    codebook_flatten 0%Z
                      (skipn (n_conditioning_codebooks self) row)) z_masked0)
            (map (fun row =>
                    codebook_flatten 0%Z
                      (skipn (n_conditioning_codebooks self) row)) out).
Proof.
  intros start_tokens mask temperature tf tr out z0 Hch Hz H.
  destruct (generate_Ok_inv _ _ _ _ _ _ H)
    as (t & z_masked & _ & Hz' & Hs & _ & Hne & Hf).
  rewrite Hz in Hz'. injection Hz' as <-.
  unfold finish in Hf.
  destruct (last_sampled None tr) as [s|] eqn:El; [|discriminate].
  inv_bind Hf.
  rewrite (unflatten_cat_flat self _ s a out Hch Ha Hf).
  exact (steps_from_keeps _ _ _ _ Hch tr 0 z0 s Hs Hne El).
Qed.


(** A step that completes went through the product of
    [temperature * (1 - r)], of shape (batch,), with the noise, of shape
    (batch, positions). *)
Lemma sampling_step_batch_guard start_tokens t typical_filtering z_masked0
      (i : nat) (z_masked : grid) (st : step) :
  body start_tokens t typical_filtering z_masked0 i z_masked = Ok st ->
  length (st_selected_probs st) = 1 \/
  length (st_selected_probs st) = length (hd [] (st_selected_probs st)).
Proof.
  unfold body, sampling_step. intros H.
  repeat inv_bind H. injection H as <-. cbn [st_selected_probs].
  match goal with
  | Hg : (if ?c then Ok tt else Err ShapeError) = Ok _ |- _ =>
      destruct c eqn:E; [|discriminate]
  end.
  apply orb_true_iff in E. destruct E as [E|E]; apply Nat.eqb_eq in E; auto.
Qed.

(** X6: with start tokens of two batch rows or more (and not exactly as
    many rows as there are predicted positions), [generate] raises in its
    first iteration at the latest: [temperature * (1 - r)] has one entry
    per batch row and does not broadcast against the (batch, positions)
    noise of [mask_by_random_topk]. *)
Theorem generate_batch_raises :
  forall z B T temperature typical_filtering,
    has_shape B (n_codebooks self) T z ->
    n_conditioning_codebooks self < n_codebooks self ->
    2 <= B ->
    B <> T * (n_codebooks self - n_conditioning_codebooks self) ->
    exists e,
      run (Some z) MaskNone temperature typical_filtering
          typical_mass typical_min_tokens = ([], Err e).
Proof.
  intros z B T temperature tf [HB Hz] Hn H2 Hne.
  destruct (generate_cases ln fl_exp softmax log_softmax _gamma score
              multinomial uniform self time_steps sampling_steps MaskNone
              typical_mass typical_min_tokens (Some z) temperature tf)
    as [He|(t & z_masked & _ & Hfill & Hl)]; [exact He|].
  unfold run. rewrite Hl. cbn [resolve_z resolve_mask] in Hfill |- *.
  destruct (masked_fill_default_shape _ _ _ _ _ _ Hz Hfill) as [Hlen Hshape].
  destruct (Z.to_nat sampling_steps) as [|n]; [simpl; eauto|].
  cbn [sampling_loop].
  destruct (sampling_step _ _ _ _ _ _ _ _ _ _ _ _ _ _ _ _ _ _)
    as [st|e] eqn:Hst; [exfalso | eauto].
  pose proof (sampling_step_batch_guard (Some z) t tf z_masked 0 z_masked st
                Hst) as Hguard.
  destruct (sampling_step_inv _ _ _ _ _ _ _ _ _ _ _ _ _ _ _ _ _ _ _ Hst)
    as (sel & fm & unf & _ & Hmask & _ & Hsel & _).
  assert (Forall2 (fun (m : list bool) (c : list fl) => length c = length m)
                  (st_mask st) (st_selected_probs st)) as Hrows.
  { revert Hsel. apply zipM_Forall2_l. intros m p c.
    apply where_scalar_r_length. }
  rewrite Hmask in Hrows. unfold flat_mask in Hrows.
  destruct z_masked as [|row0 rest]; [simpl in Hlen; lia|].
  inversion Hshape as [|? ? [Hc Ht] _]; subst.
  cbn [map] in Hrows.
  inversion Hrows as [|m0 c0 ms cs Hc0 Hrest E1 E2]; subst.
  rewrite <- E2 in Hguard. cbn [hd length] in Hguard.
  apply Forall2_length in Hrest. rewrite length_map in Hrest.
  rewrite Hc0, length_map in Hguard.
  rewrite (codebook_flatten_length 0%Z T) in Hguard.
  - rewrite length_skipn, Hc in Hguard. simpl in Hlen. lia.
  - apply Forall_forall. intros ch Hch.
    apply (proj1 (Forall_forall _ _) Ht).
    rewrite <- (firstn_skipn (n_conditioning_codebooks self) row0).
    apply in_or_app. right. exact Hch.
  - intros E. apply (f_equal (@length _)) in E.
    rewrite length_skipn, Hc in E. simpl in E. lia.
Qed.


Lemma sampling_step_vocabulary (vocab_size : Z)
      start_tokens t typical_filtering z_masked0
      (i : nat) (z_masked : grid) (st : step) :
  (forall i b s p, (0 <= multinomial i b s p < vocab_size)%Z) ->
  Forall (fun row => n_cond <= length row)
         (resolve_z self time_steps start_tokens) ->
  body start_tokens t typical_filtering z_masked0 i z_masked = Ok st ->
  Forall (Forall (fun x => x = mask_token self \/ (0 <= x < vocab_size)%Z))
         (flat z_masked) ->
  Forall (Forall (fun x => (0 <= x < vocab_size)%Z)) (st_sampled_z st) /\
  Forall (Forall (fun x => x = mask_token self \/ (0 <= x < vocab_size)%Z))
         (flat (st_z_masked st)).
Proof.
  intros Hdraw Hch H Hflat.
  destruct (sampling_step_inv _ _ _ _ _ _ _ _ _ _ _ _ _ _ _ _ _ _ _ H)
    as (sel & fm & unf & _ & Hmask & Hwhere & _ & _ & _ & Hfill & Hunf & Hcat).
  assert (st_mask st
          = map (map (fun x => (x =? mask_token self)%Z)) (flat z_masked))
    as Hm.
  { rewrite Hmask. unfold flat_mask, flat. rewrite map_map. reflexivity. }
  rewrite Hm in Hwhere.
  assert (Forall (Forall (fun x => (0 <= x < vocab_size)%Z))
                 (st_sampled_z st)) as H1.
  { eapply zipM3_where_pred; [exact Hwhere | | exact Hflat].
    apply mapi_Forall. intros b rows. apply mapi_Forall. intros s p.
    apply Hdraw. }
  split; [exact H1|].
  unfold flat at 1. unfold n_cond.
  rewrite (unflatten_cat_flat self _ fm unf (st_z_masked st) Hch Hunf Hcat).
  eapply zipM_where_scalar_l_pred; eauto.
Qed.

Lemma steps_from_vocabulary (vocab_size : Z)
      start_tokens t typical_filtering z_masked0 :
  (forall i b s p, (0 <= multinomial i b s p < vocab_size)%Z) ->
  Forall (fun row => n_cond <= length row)
         (resolve_z self time_steps start_tokens) ->
  forall tr i z_masked s,
    steps_from (body start_tokens t typical_filtering z_masked0) i z_masked tr ->
    Forall (Forall (fun x => x = mask_token self \/ (0 <= x < vocab_size)%Z))
           (flat z_masked) ->
    tr <> [] ->
    last_sampled None tr = Some s ->
    Forall (Forall (fun x => (0 <= x < vocab_size)%Z)) s.
Proof.
  intros Hdraw Hch.
  induction tr as [|st tr IH]; intros i z_masked s Hs Hflat Hne Hl;
    [congruence|].
  destruct Hs as [H0 Hs].
  destruct (sampling_step_vocabulary _ _ _ _ _ _ _ _ Hdraw Hch H0 Hflat)
    as [H1 H2].
  destruct tr as [|st' tr].
  - simpl in Hl. injection Hl as <-. exact H1.
  - eapply (IH (S i)); [exact Hs | exact H2 | discriminate | exact Hl].
Qed.

(** X10: when the sampler draws inside the vocabulary and every token of
    the predicted codebooks of the masked start grid is the mask token or
    inside the vocabulary, every token of the predicted codebooks of the
    returned grid is inside the vocabulary. *)
Theorem generate_tokens_in_vocabulary :
  forall (vocab_size : Z) start_tokens mask temperature typical_filtering
         tr out z_masked0,
    (forall i b s p, (0 <= multinomial i b s p < vocab_size)%Z) ->
    Forall (fun row => n_conditioning_codebooks self <= length row)
           (resolve_z self time_steps start_tokens) ->
    initial start_tokens mask = Ok z_masked0 ->
    Forall (fun row =>
              Forall (Forall (fun x => x = mask_token self
                                       \/ (0 <= x < vocab_size)%Z))
                     (skipn (n_conditioning_codebooks self) row)) z_masked0 ->
    run start_tokens mask temperature typical_filtering
        typical_mass typical_min_tokens = (tr, Ok out) ->
    Forall (fun row =>
              Forall (Forall (fun x => (0 <= x < vocab_size)%Z))
                     (skipn (n_conditioning_codebooks self) row)) out.
Proof.
  intros V start_tokens mask temperature tf tr out z0 Hdraw Hch Hz Hstart H.
  destruct (generate_Ok_inv _ _ _ _ _ _ H)
    as (t & z_masked & _ & Hz' & Hs & _ & Hne & Hf).
  rewrite Hz in Hz'. injection Hz' as <-.
  assert (0 < V)%Z as HV by (specialize (Hdraw 0 0 0 []); lia).
  assert (Forall (Forall (fun x => x = mask_token self \/ (0 <= x < V)%Z))
                 (flat z0)) as Hflat.
  { unfold flat. apply Forall_map.
    eapply Forall_impl; [|exact Hstart]. intros row Hrow.
    apply codebook_flatten_pred; [right; lia | exact Hrow]. }
  unfold finish in Hf.
  destruct (last_sampled None tr) as [s|] eqn:El; [|discriminate].
  pose proof (steps_from_vocabulary V _ _ _ _ Hdraw Hch tr 0 z0 s
                Hs Hflat Hne El) as Hsz.
  inv_bind Hf. rename a into unf.
  destruct (cat_conditioning_rows self _ unf out Hf Hch) as [_ H3].
  assert (Forall2 (fun (f : list Z) (g : list (list Z)) =>
                     Forall (Forall (fun x => In x f)) g) s unf) as H2.
  { revert Ha. apply mapM_Forall2. intros f g.
    apply codebook_unflatten_In. }
  clear Hf Ha El Hs H. revert unf out H2 H3.
  induction Hsz as [|f fs Hf _ IH]; intros unf out H2 H3;
    inversion H2; subst; inversion H3; subst; constructor; eauto.
  rewrite Forall_forall in Hf.
  eapply Forall_impl; [|eassumption]. intros chan Hchan.
  eapply Forall_impl; [|exact Hchan]. intros x Hx. apply Hf, Hx.
Qed.


(** X11: a two-dimensional [mask] is repeated over every codebook, the
    conditioning ones included: in the grid the first iteration scores,
    each time step the mask marks holds the mask token in all codebooks. *)
Theorem generate_mask2_masks_every_codebook :
  forall z m B C T z_masked b c t row channel mrow mk,
    has_shape B C T z ->
    length m = B -> Forall (has_length T) m ->
    initial (Some z) (Mask2 m) = Ok z_masked ->
    nth_error m b = Some mrow -> nth_error mrow t = Some mk -> mk <> 0%Z ->
    nth_error z_masked b = Some row -> nth_error row c = Some channel ->
    nth_error channel t = Some (mask_token self).
Proof.
  intros z m B C T zm b c t row chan mrow mk [HB Hz] Hm Hmt Hinit
         Hmrow Hmk Hne Hrow Hchan.
  unfold initial in Hinit.
  cbn [resolve_z resolve_mask] in Hinit.
  unfold masked_fill, repeat_over_codebooks in Hinit.
  rewrite broadcast_same in Hinit by (rewrite length_map; lia).
  cbn [bind fst snd] in Hinit.
  destruct (zipM_nth _ _ _ _ _ _ Hinit Hrow) as (zrow & mrows & Hz1 & Hm1 & Hf).
  rewrite nth_error_map, Hmrow in Hm1. cbn [option_map] in Hm1.
  injection Hm1 as <-.
  assert (length (hd [] z) = C /\ length zrow = C /\ Forall (has_length T) zrow)
    as (HC & HzC & HzT).
  { rewrite Forall_forall in Hz.
    destruct (Hz zrow (nth_error_In _ _ Hz1)) as [H1 H2].
    destruct z as [|z0 zs]; [destruct b; discriminate|].
    destruct (Hz z0 (or_introl eq_refl)) as [H3 _]. auto. }
  rewrite HC in Hf.
  rewrite broadcast_same in Hf by (rewrite repeat_length; exact HzC).
  cbn [bind fst snd] in Hf.
  destruct (zipM_nth _ _ _ _ _ _ Hf Hchan) as (zchan & mrow' & Hz2 & Hm2 & Hg).
  apply nth_error_In, repeat_spec in Hm2. subst mrow'.
  assert (length zchan = T) as HzchanT.
  { rewrite Forall_forall in HzT. apply HzT. eapply nth_error_In; eauto. }
  assert (length mrow = T) as HmrowT.
  { rewrite Forall_forall in Hmt. apply Hmt. eapply nth_error_In; eauto. }
  rewrite broadcast_same in Hg by lia.
  cbn [bind fst snd] in Hg. unfold zip_with in Hg.
  assert (t < length chan) as Ht.
  { assert (length chan = length mrow) as ->.
    { clear - Hg. revert mrow chan Hg.
      induction zchan as [|x zchan IH]; intros [|y mrow] chan H; simpl in H;
        try discriminate.
      - injection H as <-. reflexivity.
      - inv_bind H. injection H as <-. simpl. f_equal. eauto. }
    apply nth_error_Some. congruence. }
  destruct (nth_error chan t) as [x|] eqn:Ex;
    [|apply nth_error_None in Ex; lia].
  destruct (zipM_nth _ _ _ _ _ _ Hg Ex) as (x0 & mk' & _ & Hmk' & Hx).
  rewrite Hmk in Hmk'. injection Hmk' as <-.
  apply Z.eqb_neq in Hne. rewrite Hne in Hx. injection Hx as <-. reflexivity.
Qed.


End GenerateMore.

(** ** Runs of [generate] that raise *)

Section Raises.
Variable ln : Q -> Q.
Variable fl_exp : fl -> fl.
Variable softmax : list fl -> list fl.
Variable log_softmax : list fl -> list fl.
Variable _gamma : Q -> Q.
Variable score : grid -> list (list (list fl)).
Variable multinomial : nat -> nat -> nat -> list fl -> Z.
Variable uniform : nat -> nat -> nat -> Q.
Variable self : VampNet.
Variable sampling_steps : Z.
Variable temperature : fl.
Variable typical_mass : fl.
Variable typical_min_tokens : Z.
Variable T : nat.

Let C := n_codebooks self.
Let n_cond := n_conditioning_codebooks self.
Let n_infer := C - n_cond.

Hypothesis conditioning_proper : n_cond < C.
Hypothesis score_shape :
  forall z_masked, has_shape 1 C T z_masked ->
    exists rows, score z_masked = [rows] /\ length rows = T * n_infer.
Hypothesis draw_in_range :
  forall z_masked i s p, In p (concat (score z_masked)) ->
    (0 <= multinomial i 0 s (softmax p) < Z.of_nat (length (softmax p)))%Z.



End Raises.

(** ** More on the typical-mass filter *)

Lemma nth_error_fill_prefix {A : Type} (k : nat) (v : A) (l : list A) (j : nat) :
  nth_error (fill_prefix k v l) j
  = if j <? k then (if j <? length l then Some v else None)
    else nth_error l j.
Proof.
  unfold fill_prefix.
  destruct (Nat.ltb_spec j k) as [Hjk|Hjk].
  - destruct (Nat.ltb_spec j (length l)) as [Hjl|Hjl].
    + rewrite nth_error_app1 by (rewrite repeat_length; lia).
      apply nth_error_repeat. lia.
    + apply nth_error_None.
      rewrite length_app, repeat_length, length_skipn. lia.
  - destruct (Nat.le_gt_cases k (length l)) as [Hkl|Hkl].
    + rewrite nth_error_app2 by (rewrite repeat_length; lia).
      rewrite repeat_length, Nat.min_l by lia.
      rewrite nth_error_skipn. f_equal. lia.
    + rewrite nth_error_app2 by (rewrite repeat_length; lia).
      rewrite repeat_length, Nat.min_r by lia.
      rewrite skipn_all2 by lia.
      transitivity (@None A); [destruct (j - length l); reflexivity|].
      symmetry. apply nth_error_None. lia.
Qed.

Lemma fill_prefix_length {A : Type} (k : nat) (v : A) (l : list A) :
  length (fill_prefix k v l) = length l.
Proof.
  unfold fill_prefix. rewrite length_app, repeat_length, length_skipn. lia.
Qed.

Lemma filter_all_length {A : Type} (f : A -> bool) (l : list A) :
  Forall (fun v => f v = true) l -> length (filter f l) = length l.
Proof.
  induction 1 as [|v l Hv _ IH]; [reflexivity|]. simpl. rewrite Hv.
  simpl. f_equal. exact IH.
Qed.

Section TypicalFilterMore.
Variable fl_exp : fl -> fl.
Variable softmax : list fl -> list fl.
Variable log_softmax : list fl -> list fl.

Let deviation := c_flat_shifted fl_exp log_softmax.
Let typical_order (x : list fl) := snd (sort_with_indices (deviation x)).
Let sorted_deviation (x : list fl) := fst (sort_with_indices (deviation x)).

(** What the filter computes on a row before it looks up the threshold. *)
Lemma typical_row_facts (x : list fl) (ps : list Q) :
  length (log_softmax x) = length x ->
  length ps = length x ->
  Forall (fun p => 0 <= p)%Q ps ->
  (forall x_gathered,
      gather x (typical_order x) = Ok x_gathered ->
      softmax x_gathered = map Fin (in_order ps (typical_order x))) ->
  let qs := in_order ps (typical_order x) in
  length (sorted_deviation x) = length x /\
  length (typical_order x) = length x /\
  NoDup (typical_order x) /\
  Forall (fun i => i < length x) (typical_order x) /\
  x_flat_cumsum softmax x (typical_order x) = Ok (map Fin (Qcumsum qs)) /\
  length (Qcumsum qs) = length x /\
  StronglySorted Qle (Qcumsum qs) /\
  Forall (fun q => 0 <= q)%Q qs /\
  (Qsum qs == Qsum ps)%Q.
Proof.
  intros Hlen Hpl Hpos Hcompat qs.
  set (c := deviation x). set (n := length x).
  assert (length c = n) as Hc.
  { unfold c, deviation, c_flat_shifted. rewrite length_map. exact Hlen. }
  destruct (sort_with_indices_length c) as [Hcsl Hidxl].
  rewrite Hc in Hcsl, Hidxl.
  pose proof (sort_with_indices_perm c) as Hperm. rewrite Hc in Hperm.
  assert (Forall (fun i => i < n) (typical_order x)) as Hrange.
  { apply Forall_forall. intros i Hi.
    apply (Permutation_in _ Hperm) in Hi. apply in_seq in Hi. lia. }
  assert (NoDup (typical_order x)) as Hnd.
  { eapply Permutation_NoDup; [symmetry; exact Hperm | apply seq_NoDup]. }
  assert (Forall (fun q => 0 <= q)%Q qs) as Hqpos.
  { apply Forall_forall. intros q Hq. apply in_map_iff in Hq.
    destruct Hq as (i & <- & _). apply nth_nonneg, Hpos. }
  assert (length qs = n) as Hql
      by (unfold qs, in_order; rewrite length_map; exact Hidxl).
  assert (Qsum qs == Qsum ps)%Q as Hsum.
  { assert (in_order ps (seq 0 n) = ps) as Hid
        by (unfold n; rewrite <- Hpl; apply in_order_identity).
    transitivity (Qsum (in_order ps (seq 0 n)));
      [|rewrite Hid; reflexivity].
    apply Qsum_perm. unfold qs, in_order. apply Permutation_map. exact Hperm. }
  repeat split; auto.
  - unfold x_flat_cumsum. rewrite (gather_Ok NaN) by exact Hrange.
    cbn [bind]. rewrite Hcompat by (apply (gather_Ok NaN); exact Hrange).
    fold qs. rewrite fl_cumsum_Fin. reflexivity.
  - rewrite Qcumsum_length. exact Hql.
  - apply Qcumsum_sorted, Hqpos.
Qed.

(** X16: when [typical_mass] is above the whole mass of a row (above 1,
    for a softmax), every running sum is below it, [last_ind] is the
    length of the row and looking up the threshold there raises: the
    filter fails on that row, whatever [typical_min_tokens] is. *)
Theorem typical_filter_mass_out_of_reach :
  forall (x : list fl) (typical_mass : Q) (typical_min_tokens : Z)
         (ps : list Q),
    length (log_softmax x) = length x ->
    length ps = length x ->
    Forall (fun p => 0 <= p)%Q ps ->
    (forall x_gathered,
        gather x (typical_order x) = Ok x_gathered ->
        softmax x_gathered = map Fin (in_order ps (typical_order x))) ->
    (Qsum ps < typical_mass)%Q ->
    typical_filter_row fl_exp softmax log_softmax x (Fin typical_mass)
                       typical_min_tokens = Err IndexError.
Proof.
  intros x m tmt ps Hlen Hpl Hpos Hcompat Hmass.
  destruct (typical_row_facts x ps Hlen Hpl Hpos Hcompat)
    as (Hcsl & Hidxl & Hnd & Hrange & Hcum & Hcl & Hcs & Hqpos & Hsum).
  unfold typical_filter_row, typical_indices_to_remove.
  change (snd (sort_with_indices (c_flat_shifted fl_exp log_softmax x)))
    with (typical_order x).
  change (fst (sort_with_indices (c_flat_shifted fl_exp log_softmax x)))
    with (sorted_deviation x).
  rewrite Hcum. cbn [bind]. rewrite filter_map_Fin_length.
  set (cum := Qcumsum (in_order ps (typical_order x))) in *.
  assert (length (filter (fun q => Qltb q m) cum) = length x) as Hall.
  { rewrite <- Hcl. clear Hcl.
    assert (Forall (fun v => v < m)%Q cum) as Hbelow.
    { apply Forall_forall. intros v Hv.
      destruct (In_nth_error _ _ Hv) as [j Hj]. unfold cum in Hj.
      apply Qcumsum_nth in Hj.
      pose proof (Qsum_firstn_le _ Hqpos (S j)). lra. }
    apply filter_all_length. eapply Forall_impl; [|exact Hbelow].
    intros v Hv. apply Qltb_true_iff, Hv. }
  rewrite Hall, take_along_out_of_range; [reflexivity|]. lia.
Qed.

(** X17: with [typical_min_tokens] above 1 the first
    [typical_min_tokens] entries of the typical order are kept whatever
    their deviation; every later entry is removed exactly when its
    deviation is above that of the boundary entry. *)
Theorem typical_filter_min_tokens :
  forall (x : list fl) (typical_mass : Q) (typical_min_tokens : Z)
         (ps : list Q),
    length (log_softmax x) = length x ->
    length ps = length x ->
    Forall (fun p => 0 <= p)%Q ps ->
    (forall x_gathered,
        gather x (typical_order x) = Ok x_gathered ->
        softmax x_gathered = map Fin (in_order ps (typical_order x))) ->
    (typical_mass <= Qsum ps)%Q ->
    x <> [] ->
    (1 < typical_min_tokens)%Z ->
    exists indices_to_remove threshold,
      typical_indices_to_remove fl_exp softmax log_softmax
                                x (Fin typical_mass) typical_min_tokens
        = Ok indices_to_remove /\
      length indices_to_remove = length x /\
      nth_error (sorted_deviation x)
                (length (filter (fun q => Qltb q typical_mass)
                                (Qcumsum (in_order ps (typical_order x)))))
        = Some threshold /\
      forall j i,
        nth_error (typical_order x) j = Some i ->
        nth_error indices_to_remove i
        = Some (if j <? Z.to_nat typical_min_tokens then false
                else fl_gtb (nth i (deviation x) NaN) threshold).
Proof.
  intros x m tmt ps Hlen Hpl Hpos Hcompat Hmass Hne Htmt.
  destruct (typical_row_facts x ps Hlen Hpl Hpos Hcompat)
    as (Hcsl & Hidxl & Hnd & Hrange & Hcum & Hcl & Hcs & Hqpos & Hsum).
  set (cum := Qcumsum (in_order ps (typical_order x))) in *.
  set (last_ind := length (filter (fun q => Qltb q m) cum)).
  set (n := length x) in *.
  assert (0 < n) as Hn by (unfold n; destruct x; [congruence | simpl; lia]).
  assert (last_ind < n) as Hlast.
  { destruct (Nat.lt_ge_cases last_ind n) as [H|H]; [exact H|exfalso].
    destruct (nth_error cum (n - 1)) as [v|] eqn:E.
    2:{ apply nth_error_None in E. lia. }
    assert (v < m)%Q as Hv.
    { apply (filter_below_prefix m cum Hcs (n - 1) v E). fold last_ind. lia. }
    apply Qcumsum_nth in E. replace (S (n - 1)) with n in E by lia.
    rewrite firstn_all2 in E
      by (unfold in_order; rewrite length_map; lia).
    lra. }
  destruct (nth_error (sorted_deviation x) last_ind) as [threshold|] eqn:Ethr.
  2:{ apply nth_error_None in Ethr. lia. }
  set (rs := map (fun v => fl_gtb v threshold) (sorted_deviation x)).
  set (rs' := fill_prefix (Z.to_nat tmt) false rs).
  exists (scatter rs' (typical_order x) rs'), threshold.
  assert (length rs' = n) as Hrl.
  { unfold rs', rs. rewrite fill_prefix_length, length_map. exact Hcsl. }
  split; [|split; [|split]].
  - unfold typical_indices_to_remove.
    change (snd (sort_with_indices (c_flat_shifted fl_exp log_softmax x)))
      with (typical_order x).
    change (fst (sort_with_indices (c_flat_shifted fl_exp log_softmax x)))
      with (sorted_deviation x).
    rewrite Hcum. cbn [bind]. rewrite filter_map_Fin_length.
    fold cum last_ind.
    assert (take_along (sorted_deviation x) (Z.of_nat last_ind) = Ok threshold)
      as Ht.
    { apply take_along_Ok_iff. rewrite Nat2Z.id. split; [lia | exact Ethr]. }
    rewrite Ht. cbn [bind].
    destruct (tmt >? 1)%Z eqn:E; [reflexivity|].
    rewrite Z.gtb_ltb in E. apply Z.ltb_ge in E. lia.
  - rewrite scatter_length. exact Hrl.
  - reflexivity.
  - intros j i Hj.
    pose proof (sort_with_indices_values (deviation x)) as Hval.
    destruct (Forall2_nth_error_r _ _ _ Hval _ _ Hj) as (cj & Hcj & Hci).
    assert (j < n) as Hjn.
    { rewrite <- Hidxl. apply nth_error_Some. rewrite Hj. discriminate. }
    eapply scatter_nth; eauto.
    + rewrite Hrl. exact Hrange.
    + unfold rs'. rewrite nth_error_fill_prefix.
      assert (length rs = n) as Hrsl
          by (unfold rs; rewrite length_map; exact Hcsl).
      rewrite Hrsl.
      destruct (j <? Z.to_nat tmt).
      * destruct (Nat.ltb_spec j n); [reflexivity | lia].
      * unfold rs. rewrite nth_error_map.
        change (fst (sort_with_indices (deviation x)))
          with (sorted_deviation x) in Hcj.
        rewrite Hcj. cbn [option_map].
        rewrite (nth_error_nth _ _ _ Hci). reflexivity.
Qed.

End TypicalFilterMore.

(** ** Top-k accuracy *)

Lemma topk_indices_NoDup (row : list fl) (k : nat) :
  NoDup (topk_indices row k).
Proof.
  unfold topk_indices.
  assert (NoDup (rev (snd (sort_with_indices row)))) as H.
  { eapply Permutation_NoDup; [apply Permutation_rev|].
    eapply Permutation_NoDup;
      [symmetry; apply sort_with_indices_perm | apply seq_NoDup]. }
  revert H. generalize (rev (snd (sort_with_indices row))). intros l.
  revert k. induction l as [|x l IH]; intros [|k] H; simpl;
    try constructor.
  - inversion H; subst. intros Hin. apply In_firstn_nth in Hin.
    destruct Hin as (j & _ & Hj). apply nth_error_In in Hj. contradiction.
  - inversion H; subst. auto.
Qed.

Lemma count_matches_NoDup (t : Z) (ids : list nat) :
  NoDup ids ->
  length (filter (fun i => (Z.of_nat i =? t)%Z) ids) <= 1.
Proof.
  induction 1 as [|i ids Hin _ IH]; simpl; [lia|].
  destruct (Z.of_nat i =? t)%Z eqn:E; [|exact IH]. simpl.
  rewrite filter_none; [simpl; lia|].
  apply Forall_forall. intros j Hj. apply Z.eqb_neq. intros Ej.
  apply Z.eqb_eq in E. assert (i = j) by lia. subst. contradiction.
Qed.

Lemma list_sum_le_length (l : list nat) :
  Forall (fun c => c <= 1) l -> list_sum l <= length l.
Proof. induction 1; simpl; lia. Qed.

(** X18: an accuracy that [accuracy] returns is NaN, when no position is
    left to score, or lies between 0 and 1. *)
Theorem accuracy_range :
  forall preds target top_k ignore_index a,
    accuracy preds target top_k ignore_index = Ok a ->
    a = NaN \/ exists q : Q, a = Fin q /\ (0 <= q <= 1)%Q.
Proof.
  intros preds target k ig a H. unfold accuracy in H. inv_bind H.
  destruct ((k <? 0)%Z || (Z.of_nat (length (hd [] preds)) <? k)%Z);
    [discriminate|].
  injection H as <-.
  set (rows := match ig with Some _ => _ | None => _ end).
  set (correct := map _ (combine _ (map snd rows))).
  assert (Forall (fun c => c <= 1) correct) as Hc.
  { unfold correct. apply Forall_forall. intros c Hin.
    apply in_map_iff in Hin. destruct Hin as ([ids t] & <- & Hin).
    apply in_combine_l in Hin. apply in_map_iff in Hin.
    destruct Hin as (row & <- & _). cbn [fst snd].
    apply count_matches_NoDup, topk_indices_NoDup. }
  pose proof (list_sum_le_length correct Hc) as Hle.
  unfold mean_of_counts. destruct correct as [|c0 cs] eqn:E; [left; reflexivity|].
  right. eexists. split; [reflexivity|].
  set (n := length (c0 :: cs)) in *. set (s := list_sum (c0 :: cs)) in *.
  assert (0 < n) as Hn by (unfold n; simpl; lia).
  assert (0 < inject_Z (Z.of_nat n))%Q as Hpos.
  { unfold Qlt. simpl. lia. }
  clearbody n s. clear E Hc.
  split.
  - apply Qle_shift_div_l; [exact Hpos|].
    rewrite Qmult_0_l. unfold Qle. simpl. lia.
  - apply Qle_shift_div_r; [exact Hpos|].
    rewrite Qmult_1_l. unfold Qle. simpl. lia.
Qed.

(** X19: when every target is the ignored index, no position is left
    after the selection and the accuracy [accuracy] returns is NaN, the
    mean of an empty tensor. *)
Theorem accuracy_all_ignored :
  forall preds target top_k ignore_index a,
    Forall (Forall (fun t => t = ignore_index)) target ->
    accuracy preds target top_k (Some ignore_index) = Ok a ->
    a = NaN.
Proof.
  intros preds target k ig a Hall H. unfold accuracy in H. inv_bind H.
  destruct ((k <? 0)%Z || (Z.of_nat (length (hd [] preds)) <? k)%Z);
    [discriminate|].
  injection H as <-.
  rewrite filter_none; [reflexivity|].
  apply Forall_forall. intros [scores t] Hin. cbn [snd].
  apply in_concat in Hin. destruct Hin as (rows & Hrows & Hin).
  destruct (In_nth_error _ _ Hrows) as [b Hb].
  destruct (zipM_nth _ _ _ _ _ _ Ha Hb) as (pb & tb & _ & Htb & Hf).
  destruct (forallb _ pb); [|discriminate]. injection Hf as <-.
  destruct (In_nth_error _ _ Hin) as [s Hs].
  rewrite nth_error_mapi in Hs.
  destruct (nth_error tb s) as [t'|] eqn:Et; [|discriminate].
  injection Hs as _ <-.
  rewrite Forall_forall in Hall.
  specialize (Hall tb (nth_error_In _ _ Htb)).
  rewrite Forall_forall in Hall.
  rewrite (Hall t' (nth_error_In _ _ Et)), Z.eqb_refl. reflexivity.
Qed.

Lemma list_sum_all_ones (l : list nat) :
  Forall (fun c => c = 1) l -> list_sum l = length l.
Proof. induction 1; simpl; lia. Qed.

Lemma count_matches_In (t : Z) (ids : list nat) :
  NoDup ids -> (0 <= t)%Z -> In (Z.to_nat t) ids ->
  length (filter (fun i => (Z.of_nat i =? t)%Z) ids) = 1.
Proof.
  intros Hnd Ht Hin.
  pose proof (count_matches_NoDup t ids Hnd) as Hle.
  assert (In (Z.to_nat t) (filter (fun i => (Z.of_nat i =? t)%Z) ids)) as Hf.
  { apply filter_In. split; [exact Hin|]. apply Z.eqb_eq. lia. }
  destruct (filter _ ids); [destruct Hf | simpl in *; lia].
Qed.

Lemma combine_map_same {A B C : Type} (f : A -> B) (g : A -> C) (l : list A) :
  combine (map f l) (map g l) = map (fun x => (f x, g x)) l.
Proof. induction l as [|x l IH]; simpl; [|rewrite IH]; reflexivity. Qed.

(** X20: with [top_k] equal to the number of classes every class is
    among the top-k predictions: when the targets that are not ignored
    are classes and some position is scored, the accuracy is 1. *)
Theorem accuracy_all_classes :
  forall preds target ignore_index a,
    Forall (fun pb => length pb = length (hd [] preds)) preds ->
    Forall (Forall (fun t => t = ignore_index \/
                             (0 <= t < Z.of_nat (length (hd [] preds)))%Z))
           target ->
    accuracy preds target (Z.of_nat (length (hd [] preds)))
             (Some ignore_index) = Ok a ->
    a <> NaN ->
    exists q : Q, a = Fin q /\ (q == 1)%Q.
Proof.
  intros preds target ig a Hrect Hvalid H Hnan.
  set (p := length (hd [] preds)) in *.
  unfold accuracy in H. inv_bind H. fold p in H.
  destruct ((Z.of_nat p <? 0)%Z || (Z.of_nat p <? Z.of_nat p)%Z);
    [discriminate|].
  injection H as <-. rewrite Nat2Z.id in Hnan |- *.
  set (rows := filter _ (concat a0)) in *.
  set (correct := map _ (combine _ (map snd rows))) in *.
  assert (Forall (fun c => c = 1) correct) as Hc.
  { unfold correct. apply Forall_forall. intros c Hin.
    apply in_map_iff in Hin. destruct Hin as ([ids t] & <- & Hin).
    cbn [fst snd].
    rewrite combine_map_same in Hin. apply in_map_iff in Hin.
    destruct Hin as ([scores t'] & Hn & Er).
    cbn [fst snd] in Hn. injection Hn as <- <-.
    unfold rows in Er.
    apply filter_In in Er. destruct Er as [Er Hig]. cbn [snd] in Hig.
    apply negb_true_iff, Z.eqb_neq in Hig.
    apply in_concat in Er. destruct Er as (rb & Hrb & Er).
    destruct (In_nth_error _ _ Hrb) as [b Hb].
    destruct (zipM_nth _ _ _ _ _ _ Ha Hb) as (pb & tb & Hpb & Htb & Hf).
    destruct (forallb _ pb); [|discriminate]. injection Hf as <-.
    destruct (In_nth_error _ _ Er) as [s Hs].
    rewrite nth_error_mapi in Hs.
    destruct (nth_error tb s) as [t0|] eqn:Et; [|discriminate].
    injection Hs as <- <-.
    assert (0 <= t0 < Z.of_nat p)%Z as Ht.
    { rewrite Forall_forall in Hvalid.
      specialize (Hvalid tb (nth_error_In _ _ Htb)).
      rewrite Forall_forall in Hvalid.
      destruct (Hvalid t0 (nth_error_In _ _ Et)); [contradiction | assumption]. }
    assert (length (map (fun class : list fl => nth s class NaN) pb) = p)
      as Hlen.
    { rewrite length_map. rewrite Forall_forall in Hrect.
      apply Hrect. eapply nth_error_In; eauto. }
    set (scores := map (fun class : list fl => nth s class NaN) pb) in *.
    pose proof (sort_with_indices_perm scores) as Hperm. rewrite Hlen in Hperm.
    assert (topk_indices scores p = rev (snd (sort_with_indices scores)))
      as Htop.
    { unfold topk_indices. apply firstn_all2. rewrite length_rev.
      rewrite (Permutation_length Hperm), length_seq. lia. }
    apply count_matches_In; [apply topk_indices_NoDup | lia |].
    rewrite Htop. apply in_rev. rewrite rev_involutive.
    apply (Permutation_in _ (Permutation_sym Hperm)). apply in_seq. lia. }
  pose proof (list_sum_all_ones correct Hc) as Hsum.
  unfold mean_of_counts in *.
  destruct correct as [|c0 cs] eqn:E; [congruence|].
  eexists. split; [reflexivity|]. rewrite Hsum.
  set (n := length (c0 :: cs)).
  assert (0 < n) as Hn by (unfold n; simpl; lia).
  clearbody n. clear - Hn.
  assert (~ inject_Z (Z.of_nat n) == 0)%Q as Hnz.
  { unfold Qeq. simpl. lia. }
  field. exact Hnz.
Qed.

(** ** The further properties on the small model *)

Lemma generate_signal_from_scratch_silent_witness :
  0 < n_conditioning_codebooks Demo.model <= n_codebooks Demo.model /\
  DemoCodec.generate_signal 2 1 None MaskNone (PyFloat (Fin 8)) false
                            (Fin (2 # 10)) 1
  = Ok [[[Fin 0; Fin 0; Fin 0; Fin 0]]].
Proof.
  split; [simpl; lia|].
  etransitivity.
  - apply (generate_signal_from_scratch_silent
             Dyadic.ln Dyadic.exp Dyadic.softmax Dyadic.log_softmax
             Demo.gamma Demo.score Demo.multinomial Demo.uniform
             DemoCodec.decode DemoCodec.hop_length Demo.model
             2 1 (Fin (2 # 10)) 1 MaskNone (PyFloat (Fin 8)) false
             (fst (Demo.generate 2 1 None MaskNone (PyFloat (Fin 8)) false
                                 (Fin (2 # 10)) 1))
             [[[4; 4]; [0; 1]]]%Z).
    + simpl. lia.
    + reflexivity.
  - reflexivity.
Defined.

Lemma generate_signal_unsilenced_witness :
  DemoCodec.generate_signal 3 2 (Some [[[1; 2; 3]; [4; 2; 4]]]%Z) MaskNone
                            (PyFloat (Fin 8)) false (Fin (2 # 10)) 1
  = Ok [[[Fin 1; Fin 1; Fin 2; Fin 2; Fin 3; Fin 3]]].
Proof.
  etransitivity.
  - apply (generate_signal_unsilenced
             Dyadic.ln Dyadic.exp Dyadic.softmax Dyadic.log_softmax
             Demo.gamma Demo.score Demo.multinomial Demo.uniform
             DemoCodec.decode DemoCodec.hop_length Demo.model
             3 2 (Fin (2 # 10)) 1 [[[1; 2; 3]; [4; 2; 4]]]%Z MaskNone
             (PyFloat (Fin 8)) false
             (fst (Demo.generate 3 2 (Some [[[1; 2; 3]; [4; 2; 4]]]%Z)
                                 MaskNone (PyFloat (Fin 8)) false
                                 (Fin (2 # 10)) 1))
             [[[1; 2; 3]; [0; 1; 2]]]%Z).
    + apply Demo_multinomial_in_vocabulary.
    + repeat constructor.
    + repeat constructor; discriminate.
    + reflexivity.
  - reflexivity.
Defined.

Lemma generate_step_commits_witness :
  exists st,
    nth_error (fst (Demo.generate 3 2 None MaskNone (PyFloat (Fin 8)) false
                                  (Fin (2 # 10)) 1)) 0 = Some st /\
    Forall2 (fun m n : list bool =>
               count_true n <= Nat.max 1 (count_true m - 1) /\
               Forall2 (fun old new : bool => old = false -> new = false) m n)
            (st_mask st) (st_new_mask st).
Proof.
  destruct (nth_error (fst (Demo.generate 3 2 None MaskNone (PyFloat (Fin 8))
                                          false (Fin (2 # 10)) 1)) 0)
    as [st|] eqn:E; [|vm_compute in E; discriminate].
  exists st. split; [reflexivity|].
  apply (generate_step_commits
           Dyadic.ln Dyadic.exp Dyadic.softmax Dyadic.log_softmax
           Demo.gamma Demo.score Demo.multinomial Demo.uniform Demo.model
           3 2 (Fin (2 # 10)) 1 None MaskNone (PyFloat (Fin 8)) false
           _ _ 0 st (surjective_pairing _) E).
  simpl. lia.
Defined.

Lemma generate_keeps_given_tokens_witness :
  Forall2 (Forall2 (fun x y => x <> 4%Z -> y = x))
          [[4; 2; 4]]%Z [[0; 2; 2]]%Z.
Proof.
  apply (generate_keeps_given_tokens
           Dyadic.ln Dyadic.exp Dyadic.softmax Dyadic.log_softmax
           Demo.gamma Demo.score Demo.multinomial Demo.uniform Demo.model
           3 2 (Fin (2 # 10)) 1 (Some [[[1; 2; 3]; [7; 2; 7]]]%Z)
           (Mask3 [[[0; 0; 0]; [1; 0; 1]]]%Z) (PyFloat (Fin 8)) false
           (fst (Demo.generate 3 2 (Some [[[1; 2; 3]; [7; 2; 7]]]%Z)
                               (Mask3 [[[0; 0; 0]; [1; 0; 1]]]%Z)
                               (PyFloat (Fin 8)) false (Fin (2 # 10)) 1))
           [[[1; 2; 3]; [0; 2; 2]]]%Z [[[1; 2; 3]; [4; 2; 4]]]%Z).
  - repeat constructor.
  - reflexivity.
  - reflexivity.
Defined.




Lemma generate_batch_raises_witness :
  exists e,
    Demo.generate 3 2 (Some [[[1; 2; 3]; [4; 4; 4]]; [[3; 2; 1]; [4; 4; 4]]]%Z)
                  MaskNone (PyFloat (Fin 8)) false (Fin (2 # 10)) 1
    = ([], Err e).
Proof.
  apply (generate_batch_raises
           Dyadic.ln Dyadic.exp Dyadic.softmax Dyadic.log_softmax
           Demo.gamma Demo.score Demo.multinomial Demo.uniform Demo.model
           3 2 (Fin (2 # 10)) 1
           [[[1; 2; 3]; [4; 4; 4]]; [[3; 2; 1]; [4; 4; 4]]]%Z 2 3).
  - split; [reflexivity|]. repeat constructor.
  - simpl. lia.
  - lia.
  - simpl. lia.
Defined.

Lemma generate_tokens_in_vocabulary_witness :
  Forall (fun row =>
            Forall (Forall (fun x => (0 <= x < 4)%Z)) (skipn 1 row))
         [[[1; 2; 3]; [0; 2; 2]]]%Z.
Proof.
  apply (generate_tokens_in_vocabulary
           Dyadic.ln Dyadic.exp Dyadic.softmax Dyadic.log_softmax
           Demo.gamma Demo.score Demo.multinomial Demo.uniform Demo.model
           3 2 (Fin (2 # 10)) 1 4%Z (Some [[[1; 2; 3]; [7; 2; 7]]]%Z)
           (Mask3 [[[0; 0; 0]; [1; 0; 1]]]%Z) (PyFloat (Fin 8)) false
           (fst (Demo.generate 3 2 (Some [[[1; 2; 3]; [7; 2; 7]]]%Z)
                               (Mask3 [[[0; 0; 0]; [1; 0; 1]]]%Z)
                               (PyFloat (Fin 8)) false (Fin (2 # 10)) 1))
           [[[1; 2; 3]; [0; 2; 2]]]%Z [[[1; 2; 3]; [4; 2; 4]]]%Z).
  - intros i b s p. unfold Demo.multinomial.
    pose proof (Nat.mod_upper_bound s 4). lia.
  - repeat constructor.
  - reflexivity.
  - cbn [n_conditioning_codebooks Demo.model skipn mask_token].
    repeat constructor; lia.
  - reflexivity.
Defined.

Lemma generate_mask2_masks_every_codebook_witness :
  nth_error [4; 2; 4]%Z 0 = Some (mask_token Demo.model).
Proof.
  apply (generate_mask2_masks_every_codebook
           Demo.model 3 [[[1; 2; 3]; [7; 2; 7]]]%Z [[1; 0; 1]]%Z 1 2 3
           [[[4; 2; 4]; [4; 2; 4]]]%Z 0 0 0
           [[4; 2; 4]; [4; 2; 4]]%Z [4; 2; 4]%Z [1; 0; 1]%Z 1%Z).
  - split; [reflexivity|]. repeat constructor.
  - reflexivity.
  - repeat constructor.
  - reflexivity.
  - reflexivity.
  - reflexivity.
  - discriminate.
  - reflexivity.
  - reflexivity.
Defined.

Lemma typical_filter_mass_out_of_reach_witness :
  typical_filter_row Dyadic.exp Dyadic.softmax Dyadic.log_softmax
                     Demo.logits_row (Fin (11 # 10)) 1
  = Err IndexError.
Proof.
  apply (typical_filter_mass_out_of_reach
           Dyadic.exp Dyadic.softmax Dyadic.log_softmax
           Demo.logits_row (11 # 10) 1 [1 # 2; 1 # 4; 1 # 8; 1 # 8]).
  - reflexivity.
  - reflexivity.
  - repeat constructor; unfold Qle; simpl; lia.
  - intros x_gathered H. vm_compute in H. injection H as <-. reflexivity.
  - unfold Qsum, Qlt. simpl. lia.
Defined.

Lemma typical_filter_min_tokens_witness :
  exists indices_to_remove threshold,
    typical_indices_to_remove Dyadic.exp Dyadic.softmax Dyadic.log_softmax
                              Demo.logits_row (Fin (2 # 10)) 3
      = Ok indices_to_remove /\
    length indices_to_remove = 4 /\
    nth_error (fst (sort_with_indices
                      (c_flat_shifted Dyadic.exp Dyadic.log_softmax
                                      Demo.logits_row))) 0
      = Some threshold /\
    forall j i,
      nth_error (snd (sort_with_indices
                        (c_flat_shifted Dyadic.exp Dyadic.log_softmax
                                        Demo.logits_row))) j = Some i ->
      nth_error indices_to_remove i
      = Some (if j <? 3 then false
              else fl_gtb (nth i (c_flat_shifted Dyadic.exp Dyadic.log_softmax
                                                 Demo.logits_row) NaN)
                          threshold).
Proof.
  apply (typical_filter_min_tokens
           Dyadic.exp Dyadic.softmax Dyadic.log_softmax
           Demo.logits_row (2 # 10) 3 [1 # 2; 1 # 4; 1 # 8; 1 # 8]).
  - reflexivity.
  - reflexivity.
  - repeat constructor; unfold Qle; simpl; lia.
  - intros x_gathered H. vm_compute in H. injection H as <-. reflexivity.
  - unfold Qsum, Qle. simpl. lia.
  - discriminate.
  - lia.
Defined.

Lemma accuracy_range_witness :
  accuracy [[[Fin 1; Fin 0; Fin 5]; [Fin 2; Fin 3; Fin 4]]]
           [[1; 0; -100]]%Z 1 (Some (-100)%Z) = Ok (Fin (1 # 2)) /\
  (Fin (1 # 2) = NaN \/ exists q : Q, Fin (1 # 2) = Fin q /\ (0 <= q <= 1)%Q).
Proof.
  split; [reflexivity|].
  apply (accuracy_range
           [[[Fin 1; Fin 0; Fin 5]; [Fin 2; Fin 3; Fin 4]]]
           [[1; 0; -100]]%Z 1 (Some (-100)%Z) (Fin (1 # 2))).
  reflexivity.
Defined.

Lemma accuracy_all_ignored_witness :
  accuracy [[[Fin 1; Fin 0]; [Fin 2; Fin 3]]] [[-100; -100]]%Z 1
           (Some (-100)%Z) = Ok NaN.
Proof.
  destruct (accuracy [[[Fin 1; Fin 0]; [Fin 2; Fin 3]]] [[-100; -100]]%Z 1
                     (Some (-100)%Z)) as [a|e] eqn:E;
    [|vm_compute in E; discriminate].
  f_equal.
  apply (accuracy_all_ignored
           [[[Fin 1; Fin 0]; [Fin 2; Fin 3]]] [[-100; -100]]%Z 1 (-100)%Z a).
  - repeat constructor.
  - exact E.
Defined.

Lemma generate_filter_unused_witness :
  Demo.generate 1 1 None MaskNone (PyFloat (Fin 8)) false (Fin (2 # 10)) 1
  = (fst (Demo.generate 1 1 None MaskNone (PyFloat (Fin 8)) true
                        (Fin (2 # 10)) 1),
     Ok [[[4]; [0]]]%Z).
Proof.
  apply (generate_filter_unused
           Dyadic.ln Dyadic.exp Dyadic.softmax Dyadic.log_softmax
           Demo.gamma Demo.score Demo.multinomial Demo.uniform Demo.model
           1 1 MaskNone (Fin (2 # 10)) 1 None (PyFloat (Fin 8))).
  reflexivity.
Defined.

Lemma accuracy_all_classes_witness :
  accuracy [[[Fin 1; Fin 0; Fin 5]; [Fin 2; Fin 3; Fin 4]]]
           [[1; 0; -100]]%Z 2 (Some (-100)%Z) = Ok (Fin (2 # 2)) /\
  exists q : Q, Fin (2 # 2) = Fin q /\ (q == 1)%Q.
Proof.
  split; [reflexivity|].
  apply (accuracy_all_classes
           [[[Fin 1; Fin 0; Fin 5]; [Fin 2; Fin 3; Fin 4]]]
           [[1; 0; -100]]%Z (-100)%Z (Fin (2 # 2))).
  - repeat constructor.
  - repeat constructor; cbn [hd length]; lia.
  - reflexivity.
  - discriminate.
Defined.
